(** * Voxel grid analysis: surface extraction, connected components, bubbles

    A shallow embedding of the algorithmic core of [src/Code.py]:

    - the surface-voxel masks and the mesh construction of
      [ProcessVoxelDataOperator.execute] (shared vertices, faces cancelled
      by exact-duplicate counting) and of
      [ProcessVoxelDataOperatorComplete.execute] (eight fresh vertices and
      six faces per voxel);
    - [BaseCountConnectedComponentsOperator.find_connected_components];
    - [BaseCountBubblesOperator.find_bubbles].

    File loading, [reshape] and every call into the host application are
    outside the embedding: the functions below start from the
    three-dimensional array [data] the numerical code works on.  The
    quarter turn [np.rot90] applied to the loaded array is embedded on its
    own, and related to the functions above. *)

From stdpp Require Import base numbers list gmap strings relations.

Open Scope Z_scope.

(** ** Dense three-dimensional arrays

    A numpy array of rank three in C order: its shape and its flat buffer.
    Element [(i, j, k)] sits at offset [i * s1 * s2 + j * s2 + k]. *)

Record ndarray (A : Type) := NDArray { shape : Z * Z * Z; flat : list A }.
Arguments NDArray {A} _ _.
Arguments shape {A} _.
Arguments flat {A} _.

Definition index : Type := Z * Z * Z.

Definition size_of (sh : Z * Z * Z) : Z :=
  let '(s0, s1, s2) := sh in s0 * s1 * s2.

Definition ravel (sh : Z * Z * Z) (p : index) : Z :=
  let '(_, s1, s2) := sh in
  let '(i, j, k) := p in
  i * s1 * s2 + j * s2 + k.

Definition in_bounds (sh : Z * Z * Z) (p : index) : bool :=
  let '(s0, s1, s2) := sh in
  let '(i, j, k) := p in
  (0 <=? i) && (i <? s0) && (0 <=? j) && (j <? s1) && (0 <=? k) && (k <? s2).

(** [a[i, j, k]].  Every read in the source is guarded by a bounds test or
    ranges over the shape, so the default is never observed. *)
Definition getitem {A} `{Inhabited A} (a : ndarray A) (p : index) : A :=
  flat a !!! Z.to_nat (ravel (shape a) p).

(** [a[i, j, k] = v]. *)
Definition setitem {A} (a : ndarray A) (p : index) (v : A) : ndarray A :=
  NDArray (shape a) (<[Z.to_nat (ravel (shape a) p) := v]> (flat a)).

(** The array of the given shape whose element at [p] is [f p], laid out in
    C order. *)
Definition tabulate {A} (sh : Z * Z * Z) (f : index → A) : ndarray A :=
  let '(s0, s1, s2) := sh in
  NDArray sh
    (i ← seqZ 0 s0; j ← seqZ 0 s1; (λ k, f (i, j, k)) <$> seqZ 0 s2).

(** A shape with non-negative extents and a buffer of matching length. *)
Definition wf_ndarray {A} (a : ndarray A) : Prop :=
  let '(s0, s1, s2) := shape a in
  0 ≤ s0 ∧ 0 ≤ s1 ∧ 0 ≤ s2 ∧ Z.of_nat (length (flat a)) = s0 * s1 * s2.

(** The Grid invariant of the data model: every cell is 0 or 1. *)
Definition binary (a : ndarray Z) : Prop :=
  Forall (λ v, v = 0 ∨ v = 1) (flat a).

(** *** The numpy operations the source uses *)

(** [np.zeros(sh)] *)
Definition np_zeros (sh : Z * Z * Z) : ndarray Z := tabulate sh (λ _, 0).

(** A Python slice [start:stop] with step one; [None] is an omitted bound. *)
Record slice := Slice { start : option Z; stop : option Z }.

(** Start and length of the slice on an axis of extent [n]: negative bounds
    count from the end, and both are clipped to the axis. *)
Definition slice_bounds (n : Z) (s : slice) : Z * Z :=
  let norm v := if v <? 0 then Z.max 0 (v + n) else Z.min v n in
  let lo := from_option norm 0 (start s) in
  let hi := from_option norm n (stop s) in
  (lo, Z.max 0 (hi - lo)).

(** [a[s0, s1, s2]] *)
Definition getslice {A} `{Inhabited A}
    (a : ndarray A) (s0 s1 s2 : slice) : ndarray A :=
  let '(n0, n1, n2) := shape a in
  let '(l0, c0) := slice_bounds n0 s0 in
  let '(l1, c1) := slice_bounds n1 s1 in
  let '(l2, c2) := slice_bounds n2 s2 in
  tabulate (c0, c1, c2) (λ '(i, j, k), getitem a (l0 + i, l1 + j, l2 + k)).

(** [a[s0, s1, s2] = b], for [b] of the shape of the slice. *)
Definition setslice {A} `{Inhabited A}
    (a : ndarray A) (s0 s1 s2 : slice) (b : ndarray A) : ndarray A :=
  let '(n0, n1, n2) := shape a in
  let '(l0, c0) := slice_bounds n0 s0 in
  let '(l1, c1) := slice_bounds n1 s1 in
  let '(l2, c2) := slice_bounds n2 s2 in
  tabulate (n0, n1, n2) (λ '(i, j, k),
    if (l0 <=? i) && (i <? l0 + c0) && (l1 <=? j) && (j <? l1 + c1)
       && (l2 <=? k) && (k <? l2 + c2)
    then getitem b (i - l0, j - l1, k - l2)
    else getitem a (i, j, k)).

(** Element-wise operations on arrays of one shape. *)
Definition np_map {A B} (f : A → B) (a : ndarray A) : ndarray B :=
  NDArray (shape a) (f <$> flat a).

Definition np_map2 {A B C} (f : A → B → C)
    (a : ndarray A) (b : ndarray B) : ndarray C :=
  NDArray (shape a) (zip_with f (flat a) (flat b)).

(** Addition at [dtype=np.uint8] wraps around modulo 256. *)
Definition uint8 (v : Z) : Z := v `mod` 256.
Definition add_uint8 (x y : Z) : Z := uint8 (x + y).

(** [np.pad(a, 1, mode='constant')]: one layer of zeros on every face. *)
Definition np_pad1 (a : ndarray Z) : ndarray Z :=
  let '(n0, n1, n2) := shape a in
  tabulate (n0 + 2, n1 + 2, n2 + 2) (λ '(i, j, k),
    if in_bounds (n0, n1, n2) (i - 1, j - 1, k - 1)
    then getitem a (i - 1, j - 1, k - 1) else 0).

(** [np.roll(a, shift, axis)]: the element at position [i] of the axis moves
    to position [(i + shift) mod n], wrapping around the axis. *)
Definition np_roll {A} `{Inhabited A}
    (a : ndarray A) (shift : Z) (axis : nat) : ndarray A :=
  let '(n0, n1, n2) := shape a in
  tabulate (n0, n1, n2) (λ '(i, j, k),
    match axis with
    | 0%nat => getitem a ((i - shift) `mod` n0, j, k)
    | 1%nat => getitem a (i, (j - shift) `mod` n1, k)
    | _ => getitem a (i, j, (k - shift) `mod` n2)
    end).

(** [range(n)] *)
Definition range (n : Z) : list Z := seqZ 0 n.

(** ** Surface extraction with shared vertices and face cancellation *)

Definition vertex : Type := Z * Z * Z.
Definition face : Type := nat * nat * nat * nat.

Module ProcessVoxelDataOperator.

(** Lines 140-158: the zero-padded copy, the six shifted slices and the
mask of solid voxels with fewer than six solid face neighbours. *)
Definition padded_data (data : ndarray Z) : ndarray Z :=
let '(s0, s1, s2) := shape data in
let padded_shape := (s0 + 2, s1 + 2, s2 + 2) in
setslice (np_zeros padded_shape)
(Slice (Some 1) (Some (-1))) (Slice (Some 1) (Some (-1)))
(Slice (Some 1) (Some (-1))) (np_map uint8 data).

Definition neighbor_sum (data : ndarray Z) : ndarray Z :=
let p := padded_data data in
let mid := Slice (Some 1) (Some (-1)) in
let low := Slice None (Some (-2)) in
let high := Slice (Some 2) None in
np_map2 add_uint8
(np_map2 add_uint8
  (np_map2 add_uint8
    (np_map2 add_uint8
      (np_map2 add_uint8
        (getslice p low mid mid) (getslice p high mid mid))
      (getslice p mid low mid))
    (getslice p mid high mid))
  (getslice p mid mid low))
(getslice p mid mid high).

Definition surface_voxels (data : ndarray Z) : ndarray bool :=
np_map2 andb
(np_map (λ v, v =? 1) data)
(np_map (λ s, s <? 6) (neighbor_sum data)).

Definition cube_size : Z := 1.

(** The eight corners of the cube at [(i, j, k)]. *)
Definition cube_vertices (p : index) : list vertex :=
let '(i, j, k) := p in
[ (i, j, k);
(i + cube_size, j, k);
(i + cube_size, j + cube_size, k);
(i, j + cube_size, k);
(i, j, k + cube_size);
(i + cube_size, j, k + cube_size);
(i + cube_size, j + cube_size, k + cube_size);
(i, j + cube_size, k + cube_size) ].

(** The mutable state of the mesh construction: the vertex list, the
dictionary from coordinates to vertex numbers, and the dictionary of
face occurrences in insertion order. *)
Record builder := Builder {
vertices : list vertex;
vertex_map : gmap vertex nat;
face_count : list (face * Z)
}.

Definition empty_builder : builder := Builder [] ∅ [].

(** One round of the loop over [cube_vertices]: allocate the vertex the
first time its coordinates are seen, then record its number. *)
Definition assign_vertex (st : builder * list nat) (v : vertex)
: builder * list nat :=
let '(b, vertex_indices) := st in
let b :=
match vertex_map b !! v with
| None => Builder (vertices b ++ [v])
                  (<[v := length (vertices b)]> (vertex_map b))
                  (face_count b)
| Some _ => b
end in
(b, vertex_indices ++ [vertex_map b !!! v]).

(** The six quads of a cube from the numbers of its corners, in the
ordering of the voxel's parity: base, top, front, right, back, left.
The table does not depend on what the corners are numbered with. *)
Definition cube_faces {A} `{Inhabited A} (is_clockwise : bool) (vi : list A)
: list (A * A * A * A) :=
let v n := vi !!! n in
if is_clockwise then
[ (v 0, v 1, v 2, v 3);
  (v 4, v 5, v 6, v 7);
  (v 0, v 1, v 5, v 4);
  (v 1, v 2, v 6, v 5);
  (v 2, v 3, v 7, v 6);
  (v 3, v 0, v 4, v 7) ]%nat
else
[ (v 1, v 0, v 3, v 2);
  (v 5, v 4, v 7, v 6);
  (v 1, v 0, v 4, v 5);
  (v 2, v 1, v 5, v 6);
  (v 3, v 2, v 6, v 7);
  (v 0, v 3, v 7, v 4) ]%nat.

(** [if face in face_count: face_count[face] += 1 else: face_count[face] = 1] *)
Fixpoint count_face (face_count : list (face * Z)) (f : face)
: list (face * Z) :=
match face_count with
| [] => [(f, 1)]
| (g, c) :: rest =>
  if decide (g = f) then (g, c + 1) :: rest
  else (g, c) :: count_face rest f
end.

(** The body of the three loops for one voxel. *)
Definition process_voxel (surface : ndarray bool) (b : builder) (p : index)
: builder :=
if getitem surface p then
let '(i, j, k) := p in
let is_clockwise := (i + j + k) `mod` 2 =? 0 in
let '(b, vertex_indices) :=
  foldl assign_vertex (b, []) (cube_vertices p) in
let faces := cube_faces is_clockwise vertex_indices in
Builder (vertices b) (vertex_map b) (foldl count_face (face_count b) faces)
else b.

Definition build (surface : ndarray bool) : builder :=
let '(s0, s1, s2) := shape surface in
foldl (λ b i,
foldl (λ b j,
  foldl (λ b k, process_voxel surface b (i, j, k)) b (range s2))
  b (range s1))
empty_builder (range s0).

(** [faces_list = [face for face, count in face_count.items() if count == 1]] *)
Definition faces_list (face_count : list (face * Z)) : list face :=
fst <$> filter (λ fc, fc.2 = 1) face_count.

(** The vertex list and the face list handed to [mesh.from_pydata]. *)
Definition execute (data : ndarray Z) : list vertex * list face :=
let b := build (surface_voxels data) in
(vertices b, faces_list (face_count b)).

End ProcessVoxelDataOperator.

(** ** Surface extraction with fresh vertices per voxel *)

Module ProcessVoxelDataOperatorComplete.

Definition Cube_size : Z := 1.

(** Lines 346-354: [np.pad], the six rolled copies and the mask read off
the interior of their sum.  The file is loaded without a [dtype], so
the cells are floats holding small integers and sums are exact. *)
Definition padded_data (data : ndarray Z) : ndarray Z := np_pad1 data.

Definition neighbor_sum (data : ndarray Z) : ndarray Z :=
let p := padded_data data in
np_map2 Z.add
(np_map2 Z.add
  (np_map2 Z.add
    (np_map2 Z.add
      (np_map2 Z.add (np_roll p 1 0) (np_roll p (-1) 0))
      (np_roll p 1 1))
    (np_roll p (-1) 1))
  (np_roll p 1 2))
(np_roll p (-1) 2).

Definition perimeter_voxels (data : ndarray Z) : ndarray bool :=
let mid := Slice (Some 1) (Some (-1)) in
np_map2 andb
(np_map (λ v, v =? 1) data)
(np_map (λ s, s <? 6) (getslice (neighbor_sum data) mid mid mid)).

Definition process_voxel (perimeter : ndarray bool)
(st : list vertex * list face) (p : index) : list vertex * list face :=
if getitem perimeter p then
let '(vertices, faces) := st in
let '(i, j, k) := p in
let cube_vertices :=
  [ (i, j, k); (i + Cube_size, j, k);
    (i + Cube_size, j + Cube_size, k); (i, j + Cube_size, k);
    (i, j, k + Cube_size); (i + Cube_size, j, k + Cube_size);
    (i + Cube_size, j + Cube_size, k + Cube_size);
    (i, j + Cube_size, k + Cube_size) ] in
let vertices := vertices ++ cube_vertices in
let s := (length vertices - 8)%nat in
(vertices,
 faces ++
   [ (s, s + 1, s + 2, s + 3); (s + 4, s + 5, s + 6, s + 7);
     (s, s + 1, s + 5, s + 4); (s + 1, s + 2, s + 6, s + 5);
     (s + 2, s + 3, s + 7, s + 6); (s + 3, s, s + 4, s + 7) ]%nat)
else st.

Definition execute (data : ndarray Z) : list vertex * list face :=
let perimeter := perimeter_voxels data in
let '(s0, s1, s2) := shape perimeter in
foldl (λ st i,
foldl (λ st j,
  foldl (λ st k, process_voxel perimeter st (i, j, k)) st (range s2))
  st (range s1))
([], []) (range s0).

End ProcessVoxelDataOperatorComplete.

(** ** Counting by flood fill

    The caller's array and the traversal state of a call live in a small
    heap, threaded through every loop: [data] is the array object the caller
    passed in, [visited] the array the call allocates ([None] until it
    does). *)

Record heap (T : Type) := Heap { data : ndarray Z; visited : option T }.
Arguments Heap {T} _ _.
Arguments data {T} _.
Arguments visited {T} _.

Inductive exn : Type :=
  | ValueError (msg : string).

(** The result of a call: a returned value or a raised exception.
    [OutOfFuel] is the recursion bound of the embedding running out; the
    bound handed to the loops is never reached (see the totality lemmas). *)
Inductive outcome (A : Type) : Type :=
  | Return (a : A)
  | Raise (e : exn)
  | OutOfFuel.
Arguments Return {A} _.
Arguments Raise {A} _.
Arguments OutOfFuel {A}.

Definition invalid_connectivity : exn :=
  ValueError "Invalid connectivity: must be 6, 18, or 26.".

(** Enough rounds for a flood fill over [total] voxels: every round pops one
    queue entry, and an entry is pushed only when a flag goes up. *)
Definition fuel_for (total : Z) : nat := (2 * Z.to_nat total + 1)%nat.

Module BaseCountConnectedComponentsOperator.

Definition NEIGHBORS_6 : list index :=
[(1, 0, 0); (-1, 0, 0); (0, 1, 0); (0, -1, 0); (0, 0, 1); (0, 0, -1)].

Definition NEIGHBORS_18 : list index :=
x ← [-1; 0; 1]; y ← [-1; 0; 1]; z ← [-1; 0; 1];
if bool_decide ((x, y, z) ≠ (0, 0, 0))
 && (Z.abs x + Z.abs y + Z.abs z <=? 2)
then [(x, y, z)] else [].

Definition NEIGHBORS_26 : list index :=
x ← [-1; 0; 1]; y ← [-1; 0; 1]; z ← [-1; 0; 1];
if bool_decide ((x, y, z) ≠ (0, 0, 0)) then [(x, y, z)] else [].

Definition visited_get (h : heap (list bool)) (idx : Z) : bool :=
from_option (λ v, v !!! Z.to_nat idx) false (visited h).

Definition visited_set (h : heap (list bool)) (idx : Z) : heap (list bool) :=
Heap (data h) (<[Z.to_nat idx := true]> <$> visited h).

(** The body of [for dx, dy, dz in neighbors] inside [bfs]. *)
Definition visit_neighbor (sh : Z * Z * Z) (c : index)
(st : heap (list bool) * list Z) (d : index)
: heap (list bool) * list Z :=
let '(h, queue) := st in
let '(shape_x, shape_y, shape_z) := sh in
let '(cx, cy, cz) := c in
let '(dx, dy, dz) := d in
let nx := cx + dx in
let ny := cy + dy in
let nz := cz + dz in
if (0 <=? nx) && (nx <? shape_x) && (0 <=? ny) && (ny <? shape_y)
 && (0 <=? nz) && (nz <? shape_z)
then
let neighbor_idx := nx * shape_y * shape_z + ny * shape_z + nz in
if (getitem (data h) (nx, ny, nz) =? 1)
   && negb (visited_get h neighbor_idx)
then (visited_set h neighbor_idx, queue ++ [neighbor_idx])
else (h, queue)
else (h, queue).

(** [while queue: ...] *)
Fixpoint bfs_loop (fuel : nat) (neighbors : list index) (sh : Z * Z * Z)
(queue : list Z) (h : heap (list bool)) : option (heap (list bool)) :=
match fuel with
| O => None
| S fuel =>
  match queue with
  | [] => Some h
  | current_idx :: queue =>
      let '(_, shape_y, shape_z) := sh in
      let cx := current_idx `div` (shape_y * shape_z) in
      let cy := (current_idx `mod` (shape_y * shape_z)) `div` shape_z in
      let cz := current_idx `mod` shape_z in
      let '(h, queue) :=
        foldl (visit_neighbor sh (cx, cy, cz)) (h, queue) neighbors in
      bfs_loop fuel neighbors sh queue h
  end
end.

Definition bfs (fuel : nat) (neighbors : list index) (sh : Z * Z * Z)
(start_idx : Z) (h : heap (list bool)) : option (heap (list bool)) :=
bfs_loop fuel neighbors sh [start_idx] (visited_set h start_idx).

(** The body of [for idx in range(total_voxels)]. *)
Definition scan_step (fuel : nat) (neighbors : list index) (sh : Z * Z * Z)
(st : option (heap (list bool) * Z)) (idx : Z)
: option (heap (list bool) * Z) :=
match st with
| None => None
| Some (h, components) =>
  if (flat (data h) !!! Z.to_nat idx =? 1) && negb (visited_get h idx)
  then match bfs fuel neighbors sh idx h with
       | None => None
       | Some h => Some (h, components + 1)
       end
  else Some (h, components)
end.

(** Lines 485-514: the flag array, the scan and the returned count, for
the neighbour list the connectivity argument selected. *)
Definition count_components (neighbors : list index)
(h : heap (list bool)) : outcome Z * heap (list bool) :=
let '(shape_x, shape_y, shape_z) := shape (data h) in
let total_voxels := shape_x * shape_y * shape_z in
let h := Heap (data h) (Some (replicate (Z.to_nat total_voxels) false)) in
match foldl (scan_step (fuel_for total_voxels) neighbors
             (shape_x, shape_y, shape_z))
          (Some (h, 0)) (range total_voxels) with
| Some (h, components) => (Return components, h)
| None => (OutOfFuel, h)
end.

Definition find_connected_components (connectivity : Z)
(h : heap (list bool)) : outcome Z * heap (list bool) :=
if connectivity =? 6 then count_components NEIGHBORS_6 h
else if connectivity =? 18 then count_components NEIGHBORS_18 h
else if connectivity =? 26 then count_components NEIGHBORS_26 h
else (Raise invalid_connectivity, h).

End BaseCountConnectedComponentsOperator.

Module BaseCountBubblesOperator.

Definition NEIGHBORS_6 : list index :=
[(1, 0, 0); (-1, 0, 0); (0, 1, 0); (0, -1, 0); (0, 0, 1); (0, 0, -1)].

Definition NEIGHBORS_18 : list index :=
x ← [-1; 0; 1]; y ← [-1; 0; 1]; z ← [-1; 0; 1];
if bool_decide ((x, y, z) ≠ (0, 0, 0))
 && (Z.abs x + Z.abs y + Z.abs z <=? 2)
then [(x, y, z)] else [].

Definition NEIGHBORS_26 : list index :=
x ← [-1; 0; 1]; y ← [-1; 0; 1]; z ← [-1; 0; 1];
if bool_decide ((x, y, z) ≠ (0, 0, 0)) then [(x, y, z)] else [].

Definition visited_get (h : heap (ndarray bool)) (p : index) : bool :=
from_option (λ v, getitem v p) false (visited h).

Definition visited_set (h : heap (ndarray bool)) (p : index)
: heap (ndarray bool) :=
Heap (data h) ((λ v, setitem v p true) <$> visited h).

(** [np.nonzero(mask)] zipped into index triples: the positions of the
true cells in C order. *)
Definition np_nonzero (mask : ndarray bool) : list index :=
filter (λ p, getitem mask p = true) (flat (tabulate (shape mask) id)).

(** The body of [for dx, dy, dz in neighbors] inside [bfs]; the state is
the heap, the queue and [is_boundary]. *)
Definition visit_neighbor (sh : Z * Z * Z) (c : index)
(st : heap (ndarray bool) * list index * bool) (d : index)
: heap (ndarray bool) * list index * bool :=
let '(h, queue, is_boundary) := st in
let '(shape_x, shape_y, shape_z) := sh in
let '(cx, cy, cz) := c in
let '(dx, dy, dz) := d in
let nx := cx + dx in
let ny := cy + dy in
let nz := cz + dz in
if (0 <=? nx) && (nx <? shape_x) && (0 <=? ny) && (ny <? shape_y)
 && (0 <=? nz) && (nz <? shape_z)
then
if (getitem (data h) (nx, ny, nz) =? 0)
   && negb (visited_get h (nx, ny, nz))
then (visited_set h (nx, ny, nz), queue ++ [(nx, ny, nz)], is_boundary)
else (h, queue, is_boundary)
else (h, queue, true).

(** [while queue: ...]; the loop ends with [return not is_boundary]. *)
Fixpoint bfs_loop (fuel : nat) (neighbors : list index) (sh : Z * Z * Z)
(queue : list index) (is_boundary : bool) (h : heap (ndarray bool))
: option (heap (ndarray bool) * bool) :=
match fuel with
| O => None
| S fuel =>
  match queue with
  | [] => Some (h, negb is_boundary)
  | c :: queue =>
      let '(h, queue, is_boundary) :=
        foldl (visit_neighbor sh c) (h, queue, is_boundary) neighbors in
      bfs_loop fuel neighbors sh queue is_boundary h
  end
end.

Definition bfs (fuel : nat) (neighbors : list index) (sh : Z * Z * Z)
(start : index) (h : heap (ndarray bool))
: option (heap (ndarray bool) * bool) :=
bfs_loop fuel neighbors sh [start] false (visited_set h start).

(** The body of the loop over the triples of [np.nonzero(data == 0)]. *)
Definition scan_step (fuel : nat) (neighbors : list index) (sh : Z * Z * Z)
(st : option (heap (ndarray bool) * Z)) (p : index)
: option (heap (ndarray bool) * Z) :=
match st with
| None => None
| Some (h, bubbles) =>
  if negb (visited_get h p)
  then match bfs fuel neighbors sh p h with
       | None => None
       | Some (h, true) => Some (h, bubbles + 1)
       | Some (h, false) => Some (h, bubbles)
       end
  else Some (h, bubbles)
end.

(** Lines 633-659: the flag array, the scan over the empty cells and the
returned count, for the neighbour list the connectivity argument
selected. *)
Definition count_bubbles (neighbors : list index)
(h : heap (ndarray bool)) : outcome Z * heap (ndarray bool) :=
let '(shape_x, shape_y, shape_z) := shape (data h) in
let empty_cells := np_nonzero (np_map (λ v, v =? 0) (data h)) in
let h := Heap (data h) (Some (np_map (λ _, false) (data h))) in
match foldl (scan_step (fuel_for (shape_x * shape_y * shape_z))
             neighbors (shape_x, shape_y, shape_z))
          (Some (h, 0)) empty_cells with
| Some (h, bubbles) => (Return (Z.max 0 bubbles), h)
| None => (OutOfFuel, h)
end.

Definition find_bubbles (connectivity : Z)
(h : heap (ndarray bool)) : outcome Z * heap (ndarray bool) :=
if connectivity =? 6 then count_bubbles NEIGHBORS_6 h
else if connectivity =? 18 then count_bubbles NEIGHBORS_18 h
else if connectivity =? 26 then count_bubbles NEIGHBORS_26 h
else (Raise invalid_connectivity, h).

End BaseCountBubblesOperator.

(** ** Reference notions the claims are stated against *)

Definition offset_add (p d : index) : index :=
  let '(x, y, z) := p in
  let '(dx, dy, dz) := d in
  (x + dx, y + dy, z + dz).

(** Voxel [p] lies in the grid and holds the value [t]. *)
Definition cell (g : ndarray Z) (t : Z) (p : index) : Prop :=
  in_bounds (shape g) p = true ∧ getitem g p = t.

(** Two cells of value [t] one offset of the adjacency model apart. *)
Definition link (g : ndarray Z) (t : Z) (N : list index) (p q : index) : Prop :=
  cell g t p ∧ cell g t q ∧ ∃ d, d ∈ N ∧ q = offset_add p d.

Definition connected (g : ndarray Z) (t : Z) (N : list index) : relation index :=
  rtc (link g t N).

(** [reps] picks exactly one element out of every class of [R] that lies in
    [P]: its entries are in [P], no two entries at different positions are
    related, and every element of [P] is related to an entry. *)
Record representatives {V : Type} (P : V → Prop) (R : relation V)
    (reps : list V) : Prop := Representatives {
  reps_member : ∀ r, r ∈ reps → P r;
  reps_apart : ∀ i j r r',
    reps !! i = Some r → reps !! j = Some r' → R r r' → i = j;
  reps_cover : ∀ v, P v → ∃ r, r ∈ reps ∧ R r v
}.

(** The number of classes of [R] within [P] is [n]. *)
Definition class_count {V : Type} (P : V → Prop) (R : relation V) (n : Z) : Prop :=
  ∃ reps, representatives P R reps ∧ n = Z.of_nat (length reps).

(** The number of maximal connected sets of solid voxels. *)
Definition component_count (g : ndarray Z) (N : list index) (n : Z) : Prop :=
  class_count (cell g 1) (connected g 1 N) n.

(** Some neighbour of [p] under the adjacency model is outside the grid. *)
Definition outside_neighbor (sh : Z * Z * Z) (N : list index) (p : index) : Prop :=
  ∃ d, d ∈ N ∧ in_bounds sh (offset_add p d) = false.

(** [p] is an empty voxel whose whole component keeps clear of the boundary. *)
Definition enclosed (g : ndarray Z) (N : list index) (p : index) : Prop :=
  cell g 0 p ∧ ∀ q, connected g 0 N p q → ¬ outside_neighbor (shape g) N q.

(** The number of maximal connected sets of empty voxels none of whose
    voxels has a neighbour outside the grid. *)
Definition bubble_count (g : ndarray Z) (N : list index) (n : Z) : Prop :=
  class_count (enclosed g N) (connected g 0 N) n.

(** The value of the grid at [p] once it is padded by one empty layer (and
    by zeros beyond). *)
Definition padded_value (g : ndarray Z) (p : index) : Z :=
  if in_bounds (shape g) p then getitem g p else 0.

Definition face_offsets : list index :=
  [(-1, 0, 0); (1, 0, 0); (0, -1, 0); (0, 1, 0); (0, 0, -1); (0, 0, 1)].

(** The sum of the six face-adjacent values around [p] in the padded grid. *)
Definition face_neighbor_sum (g : ndarray Z) (p : index) : Z :=
  foldr Z.add 0 ((λ d, padded_value g (offset_add p d)) <$> face_offsets).

(** The surface-voxel predicate of the specification. *)
Definition is_surface (g : ndarray Z) (p : index) : bool :=
  (getitem g p =? 1) && (face_neighbor_sum g p <? 6).

(** The models the connectivity argument selects. *)
Definition valid_connectivity (c : Z) : Prop := c = 6 ∨ c = 18 ∨ c = 26.

Definition neighbors_of (c : Z) : list index :=
  if c =? 6 then BaseCountConnectedComponentsOperator.NEIGHBORS_6
  else if c =? 18 then BaseCountConnectedComponentsOperator.NEIGHBORS_18
  else BaseCountConnectedComponentsOperator.NEIGHBORS_26.

(** The offsets that move along one axis, the offsets within the 3x3x3
    block around the origin, and the Manhattan norm. *)
Definition axis_offset (d : index) : Prop :=
  let '(x, y, z) := d in
  ((x = 1 ∨ x = -1) ∧ y = 0 ∧ z = 0)
  ∨ (x = 0 ∧ (y = 1 ∨ y = -1) ∧ z = 0)
  ∨ (x = 0 ∧ y = 0 ∧ (z = 1 ∨ z = -1)).

Definition unit_offset (d : index) : Prop :=
  let '(x, y, z) := d in
  (-1 ≤ x ≤ 1 ∧ -1 ≤ y ≤ 1 ∧ -1 ≤ z ≤ 1) ∧ d ≠ (0, 0, 0).

Definition manhattan (d : index) : Z :=
  let '(x, y, z) := d in Z.abs x + Z.abs y + Z.abs z.

#[global] Instance axis_offset_dec d : Decision (axis_offset d).
Proof. destruct d as [[x y] z]. unfold axis_offset. apply _. Defined.

#[global] Instance unit_offset_dec d : Decision (unit_offset d).
Proof. destruct d as [[x y] z]. unfold unit_offset. apply _. Defined.

(** The three slices the padded array is read through. *)
Definition mid : slice := Slice (Some 1) (Some (-1)).
Definition low : slice := Slice None (Some (-2)).
Definition high : slice := Slice (Some 2) None.

Definition unit_slice (s : slice) : Prop := s = low ∨ s = mid ∨ s = high.

(** ** A flood fill over an abstract graph

    Both counting operators are instances of one traversal: nodes carry a
    position [key] in the array of flags, [succ] lists the neighbours that
    pass the bounds and value tests, and [flag] tells the nodes that have a
    neighbour outside the grid. *)

Section Traversal.
Context {V : Type}.
Variable key : V → nat.
Variable succ : V → list V.
Variable flag : V → bool.

Definition t_visit (st : list bool * list V) (n : V) : list bool * list V :=
let '(vis, queue) := st in
if (vis !!! key n : bool) then (vis, queue)
else (<[key n := true]> vis, queue ++ [n]).

Fixpoint t_loop (fuel : nat) (queue : list V) (hit : bool) (vis : list bool)
: option (list bool * bool) :=
match fuel with
| O => None
| S fuel =>
  match queue with
  | [] => Some (vis, hit)
  | c :: queue =>
      let '(vis, queue) := foldl t_visit (vis, queue) (succ c) in
      t_loop fuel queue (hit || flag c) vis
  end
end.

Definition t_fill (fuel : nat) (s : V) (vis : list bool)
: option (list bool * bool) :=
t_loop fuel [s] false (<[key s := true]> vis).

Definition t_scan_step (fuel : nat) (st : option (list bool * Z)) (c : V)
: option (list bool * Z) :=
match st with
| None => None
| Some (vis, n) =>
  if (vis !!! key c : bool) then Some (vis, n)
  else match t_fill fuel c vis with
       | None => None
       | Some (vis, true) => Some (vis, n)
       | Some (vis, false) => Some (vis, n + 1)
       end
end.

Definition count_false (vis : list bool) : nat :=
length (filter (λ b, b = false) vis).

(** The flag of a node is up. *)
Definition marked (vis : list bool) (v : V) : Prop := vis !! key v = Some true.

(** Reachability along [succ]. *)
Definition edge (u v : V) : Prop := v ∈ succ u.
Definition reach : relation V := rtc edge.
Variable good : V → Prop.
Variable size : nat.

(** A node from which no flagged node is reachable. *)
Definition unflagged (v : V) : Prop := ∀ w, reach v w → flag w = false.

(** The state of the fill started at [s] over the flags [vis0]: [P] holds
the nodes already taken from the queue. *)
Record fill_invariant (vis0 : list bool) (s : V)
(q : list V) (vis : list bool) (P : V → Prop) : Prop := {
inv_len : length vis = size;
inv_mono : ∀ k, vis0 !! k = Some true → vis !! k = Some true;
inv_seed : marked vis s;
inv_reach : ∀ v, good v → marked vis v → marked vis0 v ∨ reach s v;
inv_queue : ∀ v, v ∈ q → good v ∧ marked vis v ∧ ¬ marked vis0 v;
inv_track : ∀ v, good v → marked vis v → ¬ marked vis0 v → v ∈ q ∨ P v;
inv_done : ∀ v, P v →
good v ∧ marked vis v ∧ ¬ marked vis0 v ∧ ∀ w, w ∈ succ v → marked vis w
}.

(** The state of the scan: [seeds] are the nodes a fill started from, [reps]
those of them whose fill met no flagged node. *)
Record scan_invariant (seen : list V) (vis : list bool) (n : Z)
(seeds reps : list V) : Prop := {
si_len : length vis = size;
si_marked : ∀ v, good v → (marked vis v ↔ ∃ r, r ∈ seeds ∧ reach r v);
si_seeds_good : ∀ r, r ∈ seeds → good r;
si_seeds_apart : ∀ i j r r',
seeds !! i = Some r → seeds !! j = Some r' → reach r r' → i = j;
si_reps : ∀ r, r ∈ reps ↔ r ∈ seeds ∧ unflagged r;
si_reps_apart : ∀ i j r r',
reps !! i = Some r → reps !! j = Some r' → reach r r' → i = j;
si_count : n = Z.of_nat (length reps);
si_seen : ∀ c, c ∈ seen → marked vis c
}.
End Traversal.

(** The graph of the cells of value [t] under the offsets [N]. *)
Definition grid_key (sh : Z * Z * Z) (p : index) : nat := Z.to_nat (ravel sh p).

Definition grid_succ (g : ndarray Z) (t : Z) (N : list index) (p : index)
    : list index :=
  filter (λ q, in_bounds (shape g) q = true ∧ getitem g q = t)
         (offset_add p <$> N).

Definition grid_flag (sh : Z * Z * Z) (N : list index) (p : index) : bool :=
  existsb (λ d, negb (in_bounds sh (offset_add p d))) N.

(** The index triple of a flat position, as [bfs] decodes it. *)
Definition unravel (sh : Z * Z * Z) (idx : Z) : index :=
  let '(_, s1, s2) := sh in
  (idx `div` (s1 * s2), (idx `mod` (s1 * s2)) `div` s2, idx `mod` s2).

(** The heap of a bubble count over the grid [g] whose flag array holds
    [vis], and the results of the abstract fill and scan carried to it. *)
Definition bubbles_heap (g : ndarray Z) (vis : list bool) : heap (ndarray bool) :=
  Heap g (Some (NDArray (shape g) vis)).

Definition bubbles_lift (g : ndarray Z) (r : option (list bool * bool))
    : option (heap (ndarray bool) * bool) :=
  match r with
  | Some (vis, hit) => Some (bubbles_heap g vis, negb hit)
  | None => None
  end.

Definition bubbles_lift_scan (g : ndarray Z) (r : option (list bool * Z))
    : option (heap (ndarray bool) * Z) :=
  match r with
  | Some (vis, n) => Some (bubbles_heap g vis, n)
  | None => None
  end.

(** The same for a component count. *)
Definition components_heap (g : ndarray Z) (vis : list bool) : heap (list bool) :=
  Heap g (Some vis).

Definition components_lift (g : ndarray Z) (r : option (list bool * bool))
    : option (heap (list bool)) :=
  match r with
  | Some (vis, _) => Some (components_heap g vis)
  | None => None
  end.

Definition components_lift_scan (g : ndarray Z) (r : option (list bool * Z))
    : option (heap (list bool) * Z) :=
  match r with
  | Some (vis, n) => Some (components_heap g vis, n)
  | None => None
  end.

Definition offset_neg (d : index) : index :=
  let '(x, y, z) := d in (- x, - y, - z).

(** A neighbour table closed under negation. *)
Definition symmetric_offsets (N : list index) : Prop :=
  ∀ d, d ∈ N → offset_neg d ∈ N.

(** The candidates of the two scans, as index triples. *)
Definition solid_cells (g : ndarray Z) : list index :=
  filter (λ p, getitem g p = 1) (unravel (shape g) <$> range (size_of (shape g))).

(** *** Faces and their directions *)

Definition quad_map {A B} (f : A → B) (q : A * A * A * A) : B * B * B * B :=
  let '(a, b, c, d) := q in (f a, f b, f c, f d).

(** The parity test of the shared-vertex path. *)
Definition is_clockwise (p : index) : bool :=
  let '(i, j, k) := p in (i + j + k) `mod` 2 =? 0.

(** The direction each entry of [cube_faces] faces: base, top, front, right,
    back, left. *)
Definition face_dirs : list index :=
  [(0, 0, -1); (0, 0, 1); (0, -1, 0); (1, 0, 0); (0, 1, 0); (-1, 0, 0)].

(** The six faces voxel [p] emits when vertices are numbered by [vi], and
    the one among them that faces direction [d]. *)
Definition voxel_faces (vi : vertex → nat) (p : index) : list face :=
  ProcessVoxelDataOperator.cube_faces (is_clockwise p)
    (vi <$> ProcessVoxelDataOperator.cube_vertices p).

Definition voxel_face (vi : vertex → nat) (p d : index) : option face :=
  list_find (λ e, e = d) face_dirs ≫= λ r, voxel_faces vi p !! r.1.

(** The same faces as quadruples of corner coordinates. *)
Definition corner_faces (p : index) : list (vertex * vertex * vertex * vertex) :=
  ProcessVoxelDataOperator.cube_faces (is_clockwise p)
    (ProcessVoxelDataOperator.cube_vertices p).

(** The coordinate quadruple of the [n]-th face of voxel [p], the direction
    it faces, and the position of the opposite direction in the table. *)
Definition corner_face (p : index) (n : nat) : vertex * vertex * vertex * vertex :=
  corner_faces p !!! n.

Definition face_dir (n : nat) : index := face_dirs !!! n.

Definition opposite (n : nat) : nat :=
  match n with
  | 0 => 1 | 1 => 0 | 2 => 4 | 3 => 5 | 4 => 2 | _ => 3
  end%nat.

(** The faces of a list of voxels as (voxel, position) slots, and the face a
    slot holds under a numbering. *)
Definition face_slots (cells : list index) : list (index * nat) :=
  cells ≫= λ p, pair p <$> seq 0 6.

Definition slot_face (vi : vertex → nat) (s : index * nat) : face :=
  quad_map vi (corner_face s.1 s.2).

(** An offset along the first or the second axis. *)
Definition lateral (d : index) : Prop := d.2 = 0.

(** All index triples of a shape in C order, and the surface voxels of a
    grid among them. *)
Definition grid_indices (sh : Z * Z * Z) : list index := flat (tabulate sh id).

Definition surface_at (g : ndarray Z) (p : index) : bool :=
  in_bounds (shape g) p && is_surface g p.

Definition surface_cells (g : ndarray Z) : list index :=
  filter (λ p, is_surface g p = true) (grid_indices (shape g)).

(** A solid voxel of the padded grid. *)
Definition solid_at (g : ndarray Z) (p : index) : bool := padded_value g p =? 1.

(** The number of the six face directions of [p] whose neighbour is not
    occupied, and its sum over a list of voxels. *)
Definition open_directions (occupied : index → bool) (p : index) : nat :=
  length (filter (λ d, occupied (offset_add p d) = false) face_offsets).

Definition exposed_faces (occupied : index → bool) (cells : list index) : nat :=
  sum_list (open_directions occupied <$> cells).

(** The number of occurrences of [x] in [l], and the tally a dictionary of
    counts holds for a key. *)
Definition occurrences {A} `{EqDecision A} (x : A) (l : list A) : nat :=
  length (filter (λ y, y = x) l).

Fixpoint tally {A} `{EqDecision A} (counts : list (A * Z)) (x : A) : Z :=
  match counts with
  | [] => 0
  | (y, c) :: rest => (if decide (y = x) then c else 0) + tally rest x
  end.

(** The vertex dictionary and the vertex list describe one numbering. *)
Definition consistent (b : ProcessVoxelDataOperator.builder) : Prop :=
  ∀ v i, ProcessVoxelDataOperator.vertex_map b !! v = Some i
         ↔ ProcessVoxelDataOperator.vertices b !! i = Some v.

(** The numbering a builder holds. *)
Definition numbering (b : ProcessVoxelDataOperator.builder) (v : vertex) : nat :=
  ProcessVoxelDataOperator.vertex_map b !!! v.

(** The numbering the shared-vertex path ends with on a grid, and the faces
    of its surface voxels under that numbering, in emission order. *)
Definition final_numbering (g : ndarray Z) : vertex → nat :=
  numbering (ProcessVoxelDataOperator.build
               (ProcessVoxelDataOperator.surface_voxels g)).

Definition raw_faces (g : ndarray Z) : list face :=
  slot_face (final_numbering g) <$> face_slots (surface_cells g).

(** ** Sample grids *)

Definition ones (sh : Z * Z * Z) : ndarray Z := tabulate sh (λ _, 1).

(** Two solid voxels touching at a corner only. *)
Definition two_corner : ndarray Z :=
  tabulate (2, 2, 2)
    (λ p, if bool_decide (p = (0, 0, 0) ∨ p = (1, 1, 1)) then 1 else 0).

(** A 3x3x3 block with the centre voxel removed. *)
Definition hollow : ndarray Z :=
  tabulate (3, 3, 3) (λ p, if bool_decide (p = (1, 1, 1)) then 0 else 1).

(** The bar of two voxels stacked along the third axis. *)
Definition bar : ndarray Z := ones (1, 1, 2).

(** A centre voxel and its six face neighbours in a 3x3x3 grid. *)
Definition cross : ndarray Z :=
  tabulate (3, 3, 3)
    (λ '(i, j, k),
       if Z.abs (i - 1) + Z.abs (j - 1) + Z.abs (k - 1) <=? 1 then 1 else 0).

(** ** Reference notions for the meshes *)

(** The quads of the cubes of a run of the fresh-vertex path that starts
    with [s] vertices allocated: every voxel takes the next eight. *)
Fixpoint fresh_faces (s : nat) (cells : list index) : list face :=
  match cells with
  | [] => []
  | _ :: rest =>
    [ (s, s + 1, s + 2, s + 3); (s + 4, s + 5, s + 6, s + 7);
      (s, s + 1, s + 5, s + 4); (s + 1, s + 2, s + 6, s + 5);
      (s + 2, s + 3, s + 7, s + 6); (s + 3, s, s + 4, s + 7) ]%nat
    ++ fresh_faces (s + 8) rest
  end.

(** A quad read through a vertex list. *)
Definition quad_corners (vs : list vertex) (f : face) :=
  quad_map (λ i, vs !! i) f.

(** The six quads of the cube at [p] in the first ordering of the face
    table, as corner coordinates. *)
Definition cube_quads (p : index) : list (vertex * vertex * vertex * vertex) :=
  ProcessVoxelDataOperator.cube_faces true
    (ProcessVoxelDataOperator.cube_vertices p).

(** The four numbers of a quad. *)
Definition quad_list {A} (q : A * A * A * A) : list A :=
  let '(a, b, c, d) := q in [a; b; c; d].

(** ** The quarter turn applied to the loaded grid *)

(** [np.flip(a, axis)] *)
Definition np_flip {A} `{Inhabited A} (a : ndarray A) (axis : nat) : ndarray A :=
  let '(n0, n1, n2) := shape a in
  tabulate (n0, n1, n2) (λ '(i, j, k),
    match axis with
    | 0%nat => getitem a (n0 - 1 - i, j, k)
    | 1%nat => getitem a (i, n1 - 1 - j, k)
    | _ => getitem a (i, j, n2 - 1 - k)
    end).

(** [np.transpose(a, (0, 2, 1))]: the last two axes exchanged. *)
Definition np_transpose_021 {A} `{Inhabited A} (a : ndarray A) : ndarray A :=
  let '(n0, n1, n2) := shape a in
  tabulate (n0, n2, n1) (λ '(i, j, k), getitem a (i, k, j)).

(** [np.rot90(a, k=1, axes=(1, 2))], which numpy computes as
    [transpose(flip(a, axes[1]), axes_list)] with the two axes exchanged in
    [axes_list]. *)
Definition np_rot90 {A} `{Inhabited A} (a : ndarray A) : ndarray A :=
  np_transpose_021 (np_flip a 2).

(** Where the rotation sends a position and an offset of the array it is
    applied to. *)
Definition rot90_index (sh : Z * Z * Z) (p : index) : index :=
  let '(i, j, k) := p in (i, sh.2 - 1 - k, j).

Definition rot90_offset (d : index) : index :=
  let '(dx, dy, dz) := d in (dx, - dz, dy).

(** The inverse maps. *)
Definition rot90_index_inv (sh : Z * Z * Z) (p : index) : index :=
  let '(i, j, k) := p in (i, k, sh.2 - 1 - j).

Definition rot90_offset_inv (d : index) : index :=
  let '(dx, dy, dz) := d in (dx, dz, - dy).

(** ** Further reference notions *)

(** A grid with an extent of at most two voxels, and a grid of empty
    voxels. *)
Definition thin (sh : Z * Z * Z) : Prop := sh.1.1 ≤ 2 ∨ sh.1.2 ≤ 2 ∨ sh.2 ≤ 2.

Definition all_empty (g : ndarray Z) : Prop :=
  ∀ p, in_bounds (shape g) p = true → getitem g p = 0.

(** The sum of the six face-adjacent values around [p] as the shared-vertex
    path computes it: every value and every partial sum is reduced modulo
    256. *)
Definition wrapped_neighbor_sum (g : ndarray Z) (p : index) : Z :=
  foldr Z.add 0 ((λ d, uint8 (padded_value g (offset_add p d))) <$> face_offsets)
    `mod` 256.

(** Cells that are integers between 0 and 255, the values of a [uint8]
    array; sums of six of them are exact in floating point as well. *)
Definition uint8_cells (g : ndarray Z) : Prop :=
  Forall (λ v, 0 ≤ v ≤ 255) (flat g).

(** A voxel of value 1 with six neighbours of value 43. *)
Definition loud : ndarray Z :=
  tabulate (3, 3, 3) (λ p, if bool_decide (p = (1, 1, 1)) then 1 else 43).

(** The face directions of [p] the shared-vertex path keeps: all but the
    ones along the first or second axis that lead to another surface
    voxel. *)
Definition kept_slot (g : ndarray Z) (s : index * nat) : Prop :=
  (s.2 < 2)%nat ∨ surface_at g (offset_add s.1 (face_dir s.2)) = false.

Definition kept_directions (g : ndarray Z) (p : index) : nat :=
  length (filter (λ n, kept_slot g (p, n)) (seq 0 6)).

(** * Properties *)

(** ** Arrays *)

Arguments tabulate : simpl never.
Arguments slice_bounds : simpl never.
Arguments getitem : simpl never.
Arguments in_bounds : simpl never.

Lemma lookup_bind_uniform {A B} (g : A → list B) (l : list A) (m i j : nat) :
  (∀ x, x ∈ l → length (g x) = m) → (j < m)%nat →
  (l ≫= g) !! (i * m + j)%nat = l !! i ≫= λ x, g x !! j.
Proof.
  revert i. induction l as [|a l IH]; intros i Hlen Hj; [done|].
  rewrite bind_cons. destruct i as [|i]; simpl.
  - rewrite lookup_app_l; [done|]. rewrite Hlen by left. done.
  - rewrite lookup_app_r; rewrite Hlen by left; [|lia].
    replace (m + i * m + j - m)%nat with (i * m + j)%nat by lia.
    apply IH; [|done]. intros x Hx. apply Hlen. by right.
Qed.

Lemma length_bind_uniform {A B} (g : A → list B) (l : list A) (m : nat) :
  (∀ x, x ∈ l → length (g x) = m) → length (l ≫= g) = (length l * m)%nat.
Proof.
  induction l as [|a l IH]; intros Hlen; [done|].
  rewrite bind_cons, length_app, Hlen by left. simpl.
  rewrite IH; [done|]. intros x Hx. apply Hlen. by right.
Qed.

Lemma in_bounds_spec sh p :
  in_bounds sh p = true ↔
    0 ≤ p.1.1 < sh.1.1 ∧ 0 ≤ p.1.2 < sh.1.2 ∧ 0 ≤ p.2 < sh.2.
Proof.
  destruct sh as [[s0 s1] s2], p as [[i j] k]. unfold in_bounds. simpl.
  rewrite !andb_true_iff, !Z.leb_le, !Z.ltb_lt. lia.
Qed.

Lemma ravel_bounds sh p :
  in_bounds sh p = true → 0 ≤ ravel sh p < size_of sh.
Proof.
  intros [? [? ?]]%in_bounds_spec.
  destruct sh as [[s0 s1] s2], p as [[i j] k]. simpl in *.
  assert (0 ≤ j * s2) by (apply Z.mul_nonneg_nonneg; lia).
  assert (j * s2 + s2 ≤ s1 * s2) by nia.
  assert (0 ≤ i * (s1 * s2)) by (repeat apply Z.mul_nonneg_nonneg; lia).
  assert (i * (s1 * s2) + s1 * s2 ≤ s0 * (s1 * s2)) by nia.
  lia.
Qed.

Lemma ravel_nat sh p :
  in_bounds sh p = true →
  Z.to_nat (ravel sh p) =
    (Z.to_nat p.1.1 * (Z.to_nat sh.1.2 * Z.to_nat sh.2)
     + (Z.to_nat p.1.2 * Z.to_nat sh.2 + Z.to_nat p.2))%nat.
Proof.
  intros [? [? ?]]%in_bounds_spec.
  destruct sh as [[s0 s1] s2], p as [[i j] k]. simpl in *.
  assert (0 ≤ i * s1 * s2 + j * s2 + k).
  { assert (0 ≤ j * s2) by (apply Z.mul_nonneg_nonneg; lia).
    assert (0 ≤ i * s1 * s2) by (repeat apply Z.mul_nonneg_nonneg; lia).
    lia. }
  apply Nat2Z.inj. rewrite Z2Nat.id by done.
  rewrite !Nat2Z.inj_add, !Nat2Z.inj_mul, !Z2Nat.id by lia. lia.
Qed.

Lemma euclid_unique a b a' b' m :
  0 ≤ b < m → 0 ≤ b' < m → a * m + b = a' * m + b' → a = a' ∧ b = b'.
Proof.
  intros Hb Hb' Heq.
  destruct (Z.lt_trichotomy a a') as [Hlt|[->|Hlt]]; [nia|lia|nia].
Qed.

Lemma ravel_inj sh p q :
  in_bounds sh p = true → in_bounds sh q = true →
  ravel sh p = ravel sh q → p = q.
Proof.
  intros [? [? ?]]%in_bounds_spec [? [? ?]]%in_bounds_spec.
  destruct sh as [[s0 s1] s2], p as [[i j] k], q as [[i' j'] k'].
  simpl in *. intros Heq.
  destruct (euclid_unique (i * s1 + j) k (i' * s1 + j') k' s2)
    as [Hij ->]; [lia|lia|lia|].
  destruct (euclid_unique i j i' j' s1) as [-> ->]; [lia|lia|lia|]. done.
Qed.

Lemma shape_tabulate {A} sh (f : index → A) : shape (tabulate sh f) = sh.
Proof. by destruct sh as [[s0 s1] s2]. Qed.


Lemma length_tabulate {A} sh (f : index → A) :
  length (flat (tabulate sh f)) =
    (Z.to_nat sh.1.1 * (Z.to_nat sh.1.2 * Z.to_nat sh.2))%nat.
Proof.
  destruct sh as [[s0 s1] s2]. unfold tabulate. simpl.
  rewrite (length_bind_uniform _ _ (Z.to_nat s1 * Z.to_nat s2)).
  - by rewrite length_seqZ.
  - intros i _. rewrite (length_bind_uniform _ _ (Z.to_nat s2)).
    + by rewrite length_seqZ.
    + intros j _. by rewrite length_fmap, length_seqZ.
Qed.

Lemma lookup_tabulate {A} sh (f : index → A) p :
  in_bounds sh p = true →
  flat (tabulate sh f) !! Z.to_nat (ravel sh p) = Some (f p).
Proof.
  intros Hin. rewrite ravel_nat by done.
  apply in_bounds_spec in Hin as [? [? ?]].
  destruct sh as [[s0 s1] s2], p as [[i j] k]. unfold tabulate. simpl in *.
  rewrite (lookup_bind_uniform _ _ (Z.to_nat s1 * Z.to_nat s2)).
  - rewrite lookup_seqZ_lt by lia. simpl.
    rewrite (lookup_bind_uniform _ _ (Z.to_nat s2)).
    + rewrite lookup_seqZ_lt by lia. simpl.
      rewrite list_lookup_fmap, lookup_seqZ_lt by lia. simpl.
      by rewrite !Z2Nat.id by lia.
    + intros y _. by rewrite length_fmap, length_seqZ.
    + lia.
  - intros x _. rewrite (length_bind_uniform _ _ (Z.to_nat s2)).
    + by rewrite length_seqZ.
    + intros y _. by rewrite length_fmap, length_seqZ.
  - nia.
Qed.

Lemma getitem_tabulate {A} `{Inhabited A} sh (f : index → A) p :
  in_bounds sh p = true → getitem (tabulate sh f) p = f p.
Proof.
  intros Hin. unfold getitem. rewrite shape_tabulate.
  rewrite list_lookup_total_alt, lookup_tabulate by done. done.
Qed.

Lemma wf_tabulate {A} sh (f : index → A) :
  0 ≤ sh.1.1 → 0 ≤ sh.1.2 → 0 ≤ sh.2 → wf_ndarray (tabulate sh f).
Proof.
  intros. unfold wf_ndarray. rewrite shape_tabulate, length_tabulate.
  destruct sh as [[s0 s1] s2]. simpl in *. repeat split; try done.
  rewrite !Nat2Z.inj_mul, !Z2Nat.id by lia. lia.
Qed.

Lemma wf_ndarray_length {A} (a : ndarray A) :
  wf_ndarray a → Z.of_nat (length (flat a)) = size_of (shape a).
Proof. unfold wf_ndarray. destruct (shape a) as [[s0 s1] s2]. simpl. tauto. Qed.

Lemma wf_ndarray_shape {A} (a : ndarray A) :
  wf_ndarray a → 0 ≤ (shape a).1.1 ∧ 0 ≤ (shape a).1.2 ∧ 0 ≤ (shape a).2.
Proof. unfold wf_ndarray. destruct (shape a) as [[s0 s1] s2]. simpl. tauto. Qed.

Lemma lookup_getitem {A} `{Inhabited A} (a : ndarray A) p :
  wf_ndarray a → in_bounds (shape a) p = true →
  flat a !! Z.to_nat (ravel (shape a) p) = Some (getitem a p).
Proof.
  intros Hwf Hin. unfold getitem. apply list_lookup_lookup_total_lt.
  apply wf_ndarray_length in Hwf. apply ravel_bounds in Hin. lia.
Qed.

Lemma wf_np_map {A B} (f : A → B) a : wf_ndarray a → wf_ndarray (np_map f a).
Proof. unfold wf_ndarray, np_map. simpl. by rewrite length_fmap. Qed.

Lemma getitem_np_map {A B} `{Inhabited A} `{Inhabited B} (f : A → B) a p :
  wf_ndarray a → in_bounds (shape a) p = true →
  getitem (np_map f a) p = f (getitem a p).
Proof.
  intros Hwf Hin. unfold getitem at 1. simpl.
  rewrite list_lookup_total_alt, list_lookup_fmap, lookup_getitem by done.
  done.
Qed.

Lemma shape_np_map2 {A B C} (f : A → B → C) a b :
  shape (np_map2 f a b) = shape a.
Proof. done. Qed.

Lemma shape_np_map {A B} (f : A → B) a : shape (np_map f a) = shape a.
Proof. done. Qed.

Lemma wf_np_map2 {A B C} (f : A → B → C) a b :
  wf_ndarray a → wf_ndarray b → shape a = shape b →
  wf_ndarray (np_map2 f a b).
Proof.
  unfold wf_ndarray, np_map2. simpl. intros Ha Hb Hs. rewrite <- Hs in Hb.
  destruct (shape a) as [[s0 s1] s2]. rewrite length_zip_with. lia.
Qed.

Lemma getitem_np_map2 {A B C} `{Inhabited A} `{Inhabited B} `{Inhabited C}
    (f : A → B → C) a b p :
  wf_ndarray a → wf_ndarray b → shape a = shape b →
  in_bounds (shape a) p = true →
  getitem (np_map2 f a b) p = f (getitem a p) (getitem b p).
Proof.
  intros Ha Hb Hs Hin. unfold getitem at 1. simpl.
  rewrite list_lookup_total_alt, lookup_zip_with.
  rewrite lookup_getitem by done. simpl.
  rewrite Hs in *. rewrite lookup_getitem by done. done.
Qed.

Lemma unravel_spec sh idx :
  0 ≤ sh.1.1 → 0 ≤ sh.1.2 → 0 ≤ sh.2 → 0 ≤ idx < size_of sh →
  in_bounds sh (unravel sh idx) = true ∧ ravel sh (unravel sh idx) = idx.
Proof.
  destruct sh as [[s0 s1] s2]. rewrite in_bounds_spec.
  unfold unravel, ravel, size_of. simpl. intros ? ? ? Hidx.
  assert (0 < s2) by nia. assert (0 < s1) by nia.
  assert (0 < s1 * s2) by nia.
  pose proof (Z.div_mod idx (s1 * s2) ltac:(lia)) as Hq.
  pose proof (Z.mod_pos_bound idx (s1 * s2) ltac:(lia)) as Hr.
  set (q := idx `div` (s1 * s2)) in *. set (r := idx `mod` (s1 * s2)) in *.
  pose proof (Z.div_mod r s2 ltac:(lia)) as Hq'.
  pose proof (Z.mod_pos_bound r s2 ltac:(lia)) as Hr'.
  assert (idx `mod` s2 = r `mod` s2) as ->.
  { symmetry. apply (Z.mod_unique idx s2 (s1 * q + r `div` s2)); [lia|].
    lia. }
  assert (0 ≤ r `div` s2 < s1).
  { split; [apply Z.div_pos; lia|]. apply Z.div_lt_upper_bound; lia. }
  assert (0 ≤ q < s0).
  { split; [apply Z.div_pos; lia|]. apply Z.div_lt_upper_bound; [lia|].
    replace (s1 * s2 * s0) with (s0 * s1 * s2) by lia. lia. }
  split; lia.
Qed.

Lemma unravel_ravel sh p :
  in_bounds sh p = true → unravel sh (ravel sh p) = p.
Proof.
  intros Hin. pose proof (ravel_bounds _ _ Hin) as Hb.
  pose proof Hin as [? [? ?]]%in_bounds_spec.
  destruct (unravel_spec sh (ravel sh p)) as [Hin' Heq]; [lia..|].
  by apply (ravel_inj sh).
Qed.

(** Two arrays of one shape that agree at every index are equal. *)
Lemma ndarray_ext {A} `{Inhabited A} (a b : ndarray A) :
  wf_ndarray a → wf_ndarray b → shape a = shape b →
  (∀ p, in_bounds (shape a) p = true → getitem a p = getitem b p) →
  a = b.
Proof.
  intros Ha Hb Hs Hp. destruct a as [sa fa], b as [sb fb]. simpl in *.
  subst sb. f_equal.
  pose proof (wf_ndarray_shape _ Ha) as (? & ? & ?).
  apply wf_ndarray_length in Ha, Hb. simpl in *.
  apply list_eq_same_length with (length fa); [lia|lia|].
  intros n x y Hn Hx Hy.
  destruct (unravel_spec sa (Z.of_nat n)) as [Hin Hrav]; [lia..|].
  specialize (Hp _ Hin). unfold getitem in Hp. simpl in Hp.
  rewrite Hrav, Nat2Z.id, !list_lookup_total_alt, Hx, Hy in Hp. done.
Qed.

Lemma binary_getitem (g : ndarray Z) p :
  wf_ndarray g → binary g → in_bounds (shape g) p = true →
  getitem g p = 0 ∨ getitem g p = 1.
Proof.
  intros Hwf Hbin Hin. pose proof (lookup_getitem g p Hwf Hin) as Hl.
  unfold binary in Hbin. rewrite Forall_lookup in Hbin. by eapply Hbin.
Qed.

Lemma shape_getslice {A} `{Inhabited A} (a : ndarray A) s0 s1 s2 :
  shape (getslice a s0 s1 s2) =
    ((slice_bounds (shape a).1.1 s0).2, (slice_bounds (shape a).1.2 s1).2,
     (slice_bounds (shape a).2 s2).2).
Proof.
  unfold getslice. destruct (shape a) as [[n0 n1] n2]. simpl.
  by destruct (slice_bounds n0 s0), (slice_bounds n1 s1), (slice_bounds n2 s2).
Qed.

Lemma slice_bounds_nonneg n s : 0 ≤ (slice_bounds n s).2.
Proof. unfold slice_bounds. simpl. lia. Qed.

Lemma wf_getslice {A} `{Inhabited A} (a : ndarray A) s0 s1 s2 :
  wf_ndarray (getslice a s0 s1 s2).
Proof.
  unfold getslice. destruct (shape a) as [[n0 n1] n2].
  pose proof (slice_bounds_nonneg n0 s0). pose proof (slice_bounds_nonneg n1 s1).
  pose proof (slice_bounds_nonneg n2 s2).
  destruct (slice_bounds n0 s0), (slice_bounds n1 s1), (slice_bounds n2 s2).
  by apply wf_tabulate.
Qed.

Lemma getitem_getslice {A} `{Inhabited A} (a : ndarray A) s0 s1 s2 p :
  in_bounds (shape (getslice a s0 s1 s2)) p = true →
  getitem (getslice a s0 s1 s2) p =
    getitem a ((slice_bounds (shape a).1.1 s0).1 + p.1.1,
               (slice_bounds (shape a).1.2 s1).1 + p.1.2,
               (slice_bounds (shape a).2 s2).1 + p.2).
Proof.
  rewrite shape_getslice. unfold getslice. destruct (shape a) as [[n0 n1] n2].
  simpl.
  destruct (slice_bounds n0 s0), (slice_bounds n1 s1), (slice_bounds n2 s2).
  simpl. intros Hin. rewrite getitem_tabulate by done. by destruct p as [[i j] k].
Qed.

Lemma slice_bounds_mid n : 0 ≤ n → slice_bounds (n + 2) mid = (1, n).
Proof.
  intros. unfold slice_bounds, mid. simpl.
  destruct (Z.ltb_spec 1 0), (Z.ltb_spec (-1) 0); try lia. f_equal; lia.
Qed.

Lemma slice_bounds_low n : 0 ≤ n → slice_bounds (n + 2) low = (0, n).
Proof.
  intros. unfold slice_bounds, low. simpl.
  destruct (Z.ltb_spec (-2) 0); try lia. f_equal; lia.
Qed.

Lemma slice_bounds_high n : 0 ≤ n → slice_bounds (n + 2) high = (2, n).
Proof.
  intros. unfold slice_bounds, high. simpl.
  destruct (Z.ltb_spec 2 0); try lia. f_equal; lia.
Qed.

Lemma shape_setslice {A} `{Inhabited A} (a : ndarray A) s0 s1 s2 b :
  shape (setslice a s0 s1 s2 b) = shape a.
Proof.
  unfold setslice. destruct (shape a) as [[n0 n1] n2].
  destruct (slice_bounds n0 s0), (slice_bounds n1 s1), (slice_bounds n2 s2).
  by rewrite shape_tabulate.
Qed.

Lemma in_bounds_shift s0 s1 s2 i j k :
  (1 <=? i) && (i <? 1 + s0) && (1 <=? j) && (j <? 1 + s1)
    && (1 <=? k) && (k <? 1 + s2)
  = in_bounds (s0, s1, s2) (i - 1, j - 1, k - 1).
Proof.
  unfold in_bounds.
  repeat match goal with
  | |- context [?a <=? ?b] => destruct (Z.leb_spec a b)
  | |- context [?a <? ?b] => destruct (Z.ltb_spec a b)
  end; simpl; try reflexivity; lia.
Qed.

Lemma padded_value_range (g : ndarray Z) p :
  wf_ndarray g → binary g → padded_value g p = 0 ∨ padded_value g p = 1.
Proof.
  intros Hwf Hbin. unfold padded_value.
  destruct (in_bounds (shape g) p) eqn:Hin; [|by left].
  by apply binary_getitem.
Qed.

Section Surface.
Variable data : ndarray Z.
Variables s0 s1 s2 : Z.
Hypothesis data_wf : wf_ndarray data.
Hypothesis data_shape : shape data = (s0, s1, s2).

Lemma shape_nonneg : 0 ≤ s0 ∧ 0 ≤ s1 ∧ 0 ≤ s2.
Proof.
pose proof (wf_ndarray_shape _ data_wf) as Hs.
by rewrite data_shape in Hs.
Qed.

(** The padded copy of the shared-vertex path. *)
Lemma shape_padded_data :
shape (ProcessVoxelDataOperator.padded_data data) = (s0 + 2, s1 + 2, s2 + 2).
Proof.
unfold ProcessVoxelDataOperator.padded_data. rewrite data_shape.
rewrite shape_setslice. unfold np_zeros. by rewrite shape_tabulate.
Qed.

Lemma getitem_padded_data i j k :
in_bounds (s0 + 2, s1 + 2, s2 + 2) (i, j, k) = true →
getitem (ProcessVoxelDataOperator.padded_data data) (i, j, k) =
padded_value (np_map uint8 data) (i - 1, j - 1, k - 1).
Proof.
intros Hin. pose proof shape_nonneg as (? & ? & ?).
unfold ProcessVoxelDataOperator.padded_data. rewrite data_shape.
unfold setslice, np_zeros. rewrite shape_tabulate.
rewrite !(slice_bounds_mid) by done.
rewrite getitem_tabulate by done.
rewrite in_bounds_shift. unfold padded_value. simpl. rewrite data_shape.
destruct (in_bounds (s0, s1, s2) (i - 1, j - 1, k - 1)); [done|].
by rewrite getitem_tabulate.
Qed.

(** The padded copy of the fresh-vertex path. *)
Lemma shape_np_pad1 : shape (np_pad1 data) = (s0 + 2, s1 + 2, s2 + 2).
Proof. unfold np_pad1. rewrite data_shape. by rewrite shape_tabulate. Qed.

Lemma getitem_np_pad1 i j k :
in_bounds (s0 + 2, s1 + 2, s2 + 2) (i, j, k) = true →
getitem (np_pad1 data) (i, j, k) = padded_value data (i - 1, j - 1, k - 1).
Proof.
intros Hin. unfold np_pad1. rewrite data_shape.
rewrite getitem_tabulate by done. unfold padded_value.
by rewrite data_shape.
Qed.

Lemma padded_value_uint8 p :
binary data → padded_value (np_map uint8 data) p = padded_value data p.
Proof.
intros Hbin. unfold padded_value. simpl.
destruct (in_bounds (shape data) p) eqn:Hin; [|done].
rewrite getitem_np_map by done.
destruct (binary_getitem data p data_wf Hbin Hin) as [-> | ->]; done.
Qed.

(** A slice of the padded array that drops two entries per axis has the
shape of [data], and reads the padded array at a fixed displacement. *)
Lemma slice_bounds_unit n s :
0 ≤ n → unit_slice s →
(slice_bounds (n + 2) s).2 = n ∧ 0 ≤ (slice_bounds (n + 2) s).1 ≤ 2.
Proof.
intros Hn [-> | [-> | ->]].
- by rewrite slice_bounds_low.
- by rewrite slice_bounds_mid.
- by rewrite slice_bounds_high.
Qed.

Lemma shape_unit_getslice (P : ndarray Z) x y z :
shape P = (s0 + 2, s1 + 2, s2 + 2) →
unit_slice x → unit_slice y → unit_slice z →
shape (getslice P x y z) = (s0, s1, s2).
Proof.
intros HP Hx Hy Hz. pose proof shape_nonneg as (? & ? & ?).
rewrite shape_getslice, HP. cbn [fst snd].
destruct (slice_bounds_unit s0 x) as [-> _]; [done..|].
destruct (slice_bounds_unit s1 y) as [-> _]; [done..|].
destruct (slice_bounds_unit s2 z) as [-> _]; done.
Qed.

Lemma getitem_unit_getslice (P : ndarray Z) x y z i j k :
shape P = (s0 + 2, s1 + 2, s2 + 2) →
unit_slice x → unit_slice y → unit_slice z →
in_bounds (s0, s1, s2) (i, j, k) = true →
getitem (getslice P x y z) (i, j, k) =
getitem P ((slice_bounds (s0 + 2) x).1 + i,
           (slice_bounds (s1 + 2) y).1 + j,
           (slice_bounds (s2 + 2) z).1 + k)
∧ in_bounds (s0 + 2, s1 + 2, s2 + 2)
  ((slice_bounds (s0 + 2) x).1 + i,
   (slice_bounds (s1 + 2) y).1 + j,
   (slice_bounds (s2 + 2) z).1 + k) = true.
Proof.
intros HP Hx Hy Hz Hin. pose proof shape_nonneg as (? & ? & ?). split.
- rewrite getitem_getslice by (by rewrite shape_unit_getslice).
by rewrite HP.
- apply in_bounds_spec in Hin. cbn [fst snd] in Hin.
apply in_bounds_spec. cbn [fst snd].
destruct (slice_bounds_unit s0 x) as [_ ?]; [done..|].
destruct (slice_bounds_unit s1 y) as [_ ?]; [done..|].
destruct (slice_bounds_unit s2 z) as [_ ?]; [done..|]. lia.
Qed.

Lemma unit_low : unit_slice low. Proof. by left. Qed.
Lemma unit_mid : unit_slice mid. Proof. by right; left. Qed.
Lemma unit_high : unit_slice high. Proof. by right; right. Qed.

Lemma getitem_neighbor_sum i j k :
in_bounds (s0, s1, s2) (i, j, k) = true →
let pv := padded_value (np_map uint8 data) in
getitem (ProcessVoxelDataOperator.neighbor_sum data) (i, j, k) =
add_uint8 (add_uint8 (add_uint8 (add_uint8 (add_uint8
  (pv (i - 1, j, k)) (pv (i + 1, j, k)))
  (pv (i, j - 1, k))) (pv (i, j + 1, k)))
  (pv (i, j, k - 1))) (pv (i, j, k + 1)).
Proof.
intros Hin pv. pose proof shape_nonneg as (? & ? & ?).
pose proof shape_padded_data as HP.
pose proof unit_low. pose proof unit_mid. pose proof unit_high.
unfold ProcessVoxelDataOperator.neighbor_sum. fold low mid high.
set (P := ProcessVoxelDataOperator.padded_data data) in *.
assert (∀ x y z, unit_slice x → unit_slice y → unit_slice z →
getitem (getslice P x y z) (i, j, k) =
  pv ((slice_bounds (s0 + 2) x).1 + i - 1,
      (slice_bounds (s1 + 2) y).1 + j - 1,
      (slice_bounds (s2 + 2) z).1 + k - 1)) as Hget.
{ intros x y z Hx Hy Hz.
destruct (getitem_unit_getslice P x y z i j k) as [-> Hb]; [done..|].
unfold P. by rewrite getitem_padded_data. }
rewrite !getitem_np_map2;
repeat first [ apply wf_getslice | apply wf_np_map2 ];
rewrite ?shape_np_map2, ?shape_unit_getslice by done; try done.
rewrite !Hget by done.
rewrite !slice_bounds_low, !slice_bounds_mid, !slice_bounds_high by done.
cbn [fst snd]. repeat f_equal; lia.
Qed.

Lemma shape_surface_voxels :
shape (ProcessVoxelDataOperator.surface_voxels data) = (s0, s1, s2).
Proof. unfold ProcessVoxelDataOperator.surface_voxels. by simpl. Qed.

Lemma wf_neighbor_sum :
wf_ndarray (ProcessVoxelDataOperator.neighbor_sum data)
∧ shape (ProcessVoxelDataOperator.neighbor_sum data) = (s0, s1, s2).
Proof.
pose proof shape_padded_data as HP.
pose proof unit_low. pose proof unit_mid. pose proof unit_high.
unfold ProcessVoxelDataOperator.neighbor_sum. fold low mid high.
split.
- repeat first [ apply wf_getslice | apply wf_np_map2 ];
  by rewrite ?shape_np_map2, !shape_unit_getslice.
- by rewrite !shape_np_map2, shape_unit_getslice.
Qed.

(** The fresh-vertex path: rolled copies of the padded array. *)
Lemma shape_np_roll {A} `{Inhabited A} (P : ndarray A) shift axis :
shape (np_roll P shift axis) = shape P.
Proof.
unfold np_roll. destruct (shape P) as [[n0 n1] n2].
by rewrite shape_tabulate.
Qed.

Lemma wf_np_roll {A} `{Inhabited A} (P : ndarray A) shift axis :
wf_ndarray P → wf_ndarray (np_roll P shift axis).
Proof.
intros (? & ? & ?)%wf_ndarray_shape. unfold np_roll.
destruct (shape P) as [[n0 n1] n2]. by apply wf_tabulate.
Qed.

Lemma getitem_np_roll {A} `{Inhabited A} (P : ndarray A) shift axis a b c :
in_bounds (shape P) (a, b, c) = true →
getitem (np_roll P shift axis) (a, b, c) =
match axis with
| 0%nat => getitem P ((a - shift) `mod` (shape P).1.1, b, c)
| 1%nat => getitem P (a, (b - shift) `mod` (shape P).1.2, c)
| _ => getitem P (a, b, (c - shift) `mod` (shape P).2)
end.
Proof.
intros Hin. unfold np_roll. destruct (shape P) as [[n0 n1] n2].
by rewrite getitem_tabulate.
Qed.

Lemma wf_np_pad1 : wf_ndarray (np_pad1 data).
Proof.
pose proof shape_nonneg as (? & ? & ?). unfold np_pad1.
rewrite data_shape. apply wf_tabulate; simpl; lia.
Qed.

Lemma wf_complete_neighbor_sum :
wf_ndarray (ProcessVoxelDataOperatorComplete.neighbor_sum data)
∧ shape (ProcessVoxelDataOperatorComplete.neighbor_sum data)
= (s0 + 2, s1 + 2, s2 + 2).
Proof.
pose proof wf_np_pad1. pose proof shape_np_pad1.
unfold ProcessVoxelDataOperatorComplete.neighbor_sum,
ProcessVoxelDataOperatorComplete.padded_data.
split.
- repeat first [ by apply wf_np_roll | apply wf_np_map2 ];
  by rewrite ?shape_np_map2, !shape_np_roll.
- by rewrite !shape_np_map2, shape_np_roll.
Qed.

Lemma getitem_complete_neighbor_sum i j k :
in_bounds (s0, s1, s2) (i, j, k) = true →
let pv := padded_value data in
getitem (ProcessVoxelDataOperatorComplete.neighbor_sum data)
(1 + i, 1 + j, 1 + k) =
pv (i - 1, j, k) + pv (i + 1, j, k) + pv (i, j - 1, k)
+ pv (i, j + 1, k) + pv (i, j, k - 1) + pv (i, j, k + 1).
Proof.
intros Hin pv. pose proof shape_nonneg as (? & ? & ?).
pose proof wf_np_pad1 as Hwf. pose proof shape_np_pad1 as Hsh.
pose proof Hin as (? & ? & ?)%in_bounds_spec. simpl in *.
assert (in_bounds (s0 + 2, s1 + 2, s2 + 2) (1 + i, 1 + j, 1 + k) = true)
as Hin' by (apply in_bounds_spec; simpl; lia).
unfold ProcessVoxelDataOperatorComplete.neighbor_sum,
ProcessVoxelDataOperatorComplete.padded_data.
rewrite !getitem_np_map2;
repeat first [ by apply wf_np_roll | apply wf_np_map2 ];
rewrite ?shape_np_map2, ?shape_np_roll, ?Hsh; try done.
rewrite !getitem_np_roll by (by rewrite Hsh).
rewrite Hsh. cbn [fst snd].
rewrite !Z.mod_small by lia.
rewrite !getitem_np_pad1 by (apply in_bounds_spec; simpl; lia).
unfold pv. repeat f_equal; lia.
Qed.

Lemma add_uint8_small a b c d e f :
0 ≤ a ≤ 1 → 0 ≤ b ≤ 1 → 0 ≤ c ≤ 1 → 0 ≤ d ≤ 1 → 0 ≤ e ≤ 1 → 0 ≤ f ≤ 1 →
add_uint8 (add_uint8 (add_uint8 (add_uint8 (add_uint8 a b) c) d) e) f
= a + b + c + d + e + f.
Proof.
intros. unfold add_uint8, uint8.
rewrite (Z.mod_small (a + b)) by lia.
rewrite (Z.mod_small (a + b + c)) by lia.
rewrite (Z.mod_small (a + b + c + d)) by lia.
rewrite (Z.mod_small (a + b + c + d + e)) by lia.
rewrite Z.mod_small by lia. done.
Qed.

Lemma padded_value_01 p :
binary data → 0 ≤ padded_value data p ≤ 1.
Proof.
intros Hbin. destruct (padded_value_range data p data_wf Hbin); lia.
Qed.

(** At every index of the grid the mask of the shared-vertex path is the
surface predicate. *)
Lemma getitem_surface_voxels p :
binary data → in_bounds (s0, s1, s2) p = true →
getitem (ProcessVoxelDataOperator.surface_voxels data) p
= is_surface data p.
Proof.
intros Hbin Hin. destruct p as [[i j] k].
destruct wf_neighbor_sum as [Hwf Hsh].
unfold ProcessVoxelDataOperator.surface_voxels.
rewrite getitem_np_map2;
rewrite ?shape_np_map, ?Hsh, ?data_shape;
try done; try by apply wf_np_map.
rewrite !getitem_np_map by (by rewrite ?Hsh, ?data_shape).
rewrite getitem_neighbor_sum by done. cbv zeta.
rewrite !padded_value_uint8 by done.
rewrite add_uint8_small by (by apply padded_value_01).
unfold is_surface, face_neighbor_sum, face_offsets. simpl.
replace (i + -1) with (i - 1) by lia.
replace (j + -1) with (j - 1) by lia.
replace (k + -1) with (k - 1) by lia.
do 2 f_equal. rewrite !Z.add_0_r. lia.
Qed.

Lemma getitem_perimeter_voxels p :
in_bounds (s0, s1, s2) p = true →
getitem (ProcessVoxelDataOperatorComplete.perimeter_voxels data) p
= is_surface data p.
Proof.
intros Hin. destruct p as [[i j] k].
destruct wf_complete_neighbor_sum as [Hwf Hsh].
pose proof unit_mid.
unfold ProcessVoxelDataOperatorComplete.perimeter_voxels. fold mid.
rewrite getitem_np_map2;
rewrite ?shape_np_map, ?data_shape, ?shape_unit_getslice;
try done; try (apply wf_np_map; try done; apply wf_getslice).
rewrite !getitem_np_map;
rewrite ?data_shape, ?shape_unit_getslice; try done;
try apply wf_getslice.
destruct (getitem_unit_getslice _ mid mid mid i j k Hsh) as [-> _];
[done..|].
rewrite !slice_bounds_mid by (pose proof shape_nonneg; lia).
cbn [fst snd]. rewrite getitem_complete_neighbor_sum by done. cbv zeta.
unfold is_surface, face_neighbor_sum, face_offsets. simpl.
replace (i + -1) with (i - 1) by lia.
replace (j + -1) with (j - 1) by lia.
replace (k + -1) with (k - 1) by lia.
do 2 f_equal. rewrite !Z.add_0_r. lia.
Qed.
End Surface.

Lemma shape_eta (sh : Z * Z * Z) : sh = (sh.1.1, sh.1.2, sh.2).
Proof. by destruct sh as [[??]?]. Qed.

Ltac solve_binary :=
  unfold binary; vm_compute;
  repeat (apply List.Forall_cons; [lia|]); apply List.Forall_nil.

Ltac solve_wf :=
  unfold wf_ndarray; vm_compute; repeat split; congruence.

(** C5.  For every grid, the surface voxels computed by the extraction are
    exactly the voxels whose value is 1 and whose six face-adjacent neighbour
    values, with positions outside the grid counted as 0, sum to strictly
    less than 6. *)
Theorem surface_voxels_exact (data : ndarray Z) :
  wf_ndarray data → binary data →
  shape (ProcessVoxelDataOperator.surface_voxels data) = shape data
  ∧ ∀ p, in_bounds (shape data) p = true →
      (getitem (ProcessVoxelDataOperator.surface_voxels data) p = true
       ↔ getitem data p = 1 ∧ face_neighbor_sum data p < 6).
Proof.
  intros Hwf Hbin. pose proof (shape_eta (shape data)) as Hsh. split.
  - by rewrite (shape_surface_voxels data _ _ _ Hsh).
  - intros p Hin. rewrite Hsh in Hin.
    rewrite (getitem_surface_voxels data _ _ _ Hwf Hsh p Hbin Hin).
    unfold is_surface. rewrite andb_true_iff, Z.eqb_eq, Z.ltb_lt. done.
Qed.

Lemma surface_voxels_exact_witness :
  shape (ProcessVoxelDataOperator.surface_voxels cross) = shape cross
  ∧ ∀ p, in_bounds (shape cross) p = true →
      (getitem (ProcessVoxelDataOperator.surface_voxels cross) p = true
       ↔ getitem cross p = 1 ∧ face_neighbor_sum cross p < 6).
Proof. apply (surface_voxels_exact cross); [solve_wf | solve_binary]. Defined.

(** C10.  For every grid, the zero-padded array with explicit slice sums of
    the shared-vertex path and the [np.pad] plus [np.roll] neighbour sum
    restricted to the interior of the fresh-vertex path produce the same
    boolean mask: the wrap-around of [np.roll] never reaches the interior of
    the padded array. *)
Theorem surface_masks_agree (data : ndarray Z) :
  wf_ndarray data → binary data →
  ProcessVoxelDataOperatorComplete.perimeter_voxels data
  = ProcessVoxelDataOperator.surface_voxels data.
Proof.
  intros Hwf Hbin. pose proof (shape_eta (shape data)) as Hsh.
  destruct (wf_neighbor_sum data _ _ _ Hwf Hsh) as [Hwf1 Hsh1].
  destruct (wf_complete_neighbor_sum data _ _ _ Hwf Hsh) as [Hwf2 Hsh2].
  pose proof (wf_ndarray_shape _ Hwf) as (? & ? & ?).
  apply ndarray_ext.
  - unfold ProcessVoxelDataOperatorComplete.perimeter_voxels.
    apply wf_np_map2; [by apply wf_np_map | apply wf_np_map, wf_getslice |].
    rewrite !shape_np_map, shape_getslice, Hsh2. cbn [fst snd].
    fold mid. rewrite !slice_bounds_mid by done. done.
  - unfold ProcessVoxelDataOperator.surface_voxels.
    apply wf_np_map2; [by apply wf_np_map | by apply wf_np_map |].
    by rewrite !shape_np_map, Hsh1.
  - done.
  - intros p Hin. change (in_bounds (shape data) p = true) in Hin.
    rewrite Hsh in Hin.
    rewrite (getitem_perimeter_voxels data _ _ _ Hwf Hsh p Hin).
    by rewrite (getitem_surface_voxels data _ _ _ Hwf Hsh p Hbin Hin).
Qed.

Lemma surface_masks_agree_witness :
  ProcessVoxelDataOperatorComplete.perimeter_voxels hollow
  = ProcessVoxelDataOperator.surface_voxels hollow.
Proof. apply (surface_masks_agree hollow); [solve_wf | solve_binary]. Defined.

(** ** The neighbour tables *)

Lemma table_membership (P : index → Prop) `{∀ d, Decision (P d)} (l : list index) :
  bool_decide (Forall P l) = true →
  (∀ x y z, -1 ≤ x ≤ 1 → -1 ≤ y ≤ 1 → -1 ≤ z ≤ 1 →
     P (x, y, z) → bool_decide ((x, y, z) ∈ l) = true) →
  (∀ d, P d → unit_offset d) →
  ∀ d, d ∈ l ↔ P d.
Proof.
  intros Hall Hin Hunit d. split.
  - intros Hd. apply bool_decide_eq_true in Hall.
    rewrite Forall_forall in Hall. by apply Hall.
  - intros HP. destruct d as [[x y] z].
    destruct (Hunit _ HP) as [(? & ? & ?) _].
    eapply bool_decide_eq_true, Hin; done.
Qed.

Ltac split_unit x :=
  match goal with
  | H : -1 ≤ x ≤ 1 |- _ =>
      assert (x = -1 ∨ x = 0 ∨ x = 1) as [-> | [-> | ->]] by lia; clear H
  end.

Lemma NEIGHBORS_6_spec d :
  d ∈ BaseCountConnectedComponentsOperator.NEIGHBORS_6 ↔ axis_offset d.
Proof.
  apply (table_membership axis_offset).
  - by vm_compute.
  - intros x y z Hx Hy Hz HP. split_unit x; split_unit y; split_unit z;
      first [ by vm_compute | exfalso; unfold axis_offset in HP; lia ].
  - intros [[x y] z] HP. unfold axis_offset in HP. unfold unit_offset.
    split; [lia|]. intros [= -> -> ->]. lia.
Qed.

Lemma NEIGHBORS_18_spec d :
  d ∈ BaseCountConnectedComponentsOperator.NEIGHBORS_18
  ↔ unit_offset d ∧ manhattan d ≤ 2.
Proof.
  apply (table_membership (λ d, unit_offset d ∧ manhattan d ≤ 2)).
  - by vm_compute.
  - intros x y z Hx Hy Hz [[_ Hne] Hm].
    split_unit x; split_unit y; split_unit z;
      first [ by vm_compute | done | exfalso; simpl in Hm; lia ].
  - by intros ? [? _].
Qed.

Lemma NEIGHBORS_26_spec d :
  d ∈ BaseCountConnectedComponentsOperator.NEIGHBORS_26 ↔ unit_offset d.
Proof.
  apply (table_membership unit_offset).
  - by vm_compute.
  - intros x y z Hx Hy Hz [_ Hne].
    split_unit x; split_unit y; split_unit z;
      first [ by vm_compute | done ].
  - done.
Qed.

(** C8.  The three neighbour tables have exactly the specified members: the
    six offsets with +1 or -1 on one axis and 0 elsewhere; the 18 non-zero
    offsets with coordinates in {-1,0,1} and Manhattan norm at most 2, which
    leaves out the eight corner offsets; all 26 non-zero offsets with
    coordinates in {-1,0,1}.  Both operator families hold the same tables. *)
Theorem neighbor_tables :
  let N6 := BaseCountConnectedComponentsOperator.NEIGHBORS_6 in
  let N18 := BaseCountConnectedComponentsOperator.NEIGHBORS_18 in
  let N26 := BaseCountConnectedComponentsOperator.NEIGHBORS_26 in
  ((∀ d, d ∈ N6 ↔ axis_offset d) ∧ NoDup N6 ∧ length N6 = 6%nat)
  ∧ ((∀ d, d ∈ N18 ↔ unit_offset d ∧ manhattan d ≤ 2)
     ∧ NoDup N18 ∧ length N18 = 18%nat)
  ∧ ((∀ d, d ∈ N26 ↔ unit_offset d) ∧ NoDup N26 ∧ length N26 = 26%nat)
  ∧ (∀ d, d ∈ N26 ∧ d ∉ N18 ↔ manhattan d = 3 ∧ unit_offset d)
  ∧ length (filter (λ d, d ∉ N18) N26) = 8%nat
  ∧ BaseCountBubblesOperator.NEIGHBORS_6 = N6
  ∧ BaseCountBubblesOperator.NEIGHBORS_18 = N18
  ∧ BaseCountBubblesOperator.NEIGHBORS_26 = N26.
Proof.
  cbv zeta.
  assert (∀ l : list index, bool_decide (NoDup l) = true → NoDup l) as Hnd
    by (intros l; apply bool_decide_eq_true).
  split_and!; try (by apply Hnd; vm_compute); try reflexivity.
  - apply NEIGHBORS_6_spec.
  - apply NEIGHBORS_18_spec.
  - apply NEIGHBORS_26_spec.
  - intros d. rewrite NEIGHBORS_26_spec, NEIGHBORS_18_spec.
    destruct d as [[x y] z]. unfold unit_offset, manhattan. split.
    + intros [[Hr Hne] Hn]. split; [|done].
      destruct (decide (Z.abs x + Z.abs y + Z.abs z ≤ 2)); [|lia].
      exfalso. apply Hn. done.
    + intros [Hm [Hr Hne]]. split; [done|]. intros [_ ?]. lia.
Qed.

(** ** Validation and the frame of the counting calls *)

Lemma foldl_none {A B} (f : option A → B → option A) (l : list B) :
  (∀ b, f None b = None) → foldl f None l = None.
Proof. intros Hf. induction l as [|b l IH]; simpl; [done|]. by rewrite Hf. Qed.

Module ComponentsFrame.
Import BaseCountConnectedComponentsOperator.

Lemma components_visit_neighbor_data sh c st d :
data (visit_neighbor sh c st d).1 = data st.1.
Proof.
destruct st as [h q], sh as [[sx sy] sz], c as [[cx cy] cz],
d as [[dx dy] dz]. unfold visit_neighbor.
repeat case_match; done.
Qed.

Lemma components_fold_visit_data sh c l st :
data (foldl (visit_neighbor sh c) st l).1 = data st.1.
Proof.
revert st. induction l as [|d l IH]; intros st; simpl; [done|].
by rewrite IH, components_visit_neighbor_data.
Qed.

Lemma components_bfs_loop_data fuel N sh q h h' :
bfs_loop fuel N sh q h = Some h' → data h' = data h.
Proof.
revert q h. induction fuel as [|fuel IH]; intros q h; simpl; [done|].
destruct q as [|c q]; [by intros [= ->]|].
destruct sh as [[sx sy] sz].
destruct (foldl _ _ _) as [h1 q1] eqn:Hfold. intros Hloop.
apply IH in Hloop. rewrite Hloop.
pose proof (components_fold_visit_data (sx, sy, sz)
(c `div` (sy * sz), (c `mod` (sy * sz)) `div` sz, c `mod` sz) N (h, q))
as Hd.
by rewrite Hfold in Hd.
Qed.

Lemma components_scan_data fuel N sh l h n h' n' :
foldl (scan_step fuel N sh) (Some (h, n)) l = Some (h', n') →
data h' = data h.
Proof.
revert h n. induction l as [|idx l IH]; intros h n; simpl.
- by intros [= -> _].
- destruct (_ && _).
+ unfold bfs. destruct (bfs_loop _ _ _ _ _) as [h1|] eqn:Hb.
  * intros Hf. apply IH in Hf. rewrite Hf.
    by apply components_bfs_loop_data in Hb.
  * by rewrite foldl_none.
+ apply IH.
Qed.

Lemma count_components_data N h : data (count_components N h).2 = data h.
Proof.
unfold count_components. destruct (shape (data h)) as [[sx sy] sz].
destruct (foldl _ _ _) as [[h1 n1]|] eqn:Hf; [|done].
by apply components_scan_data in Hf.
Qed.

Lemma find_connected_components_data c h :
data (find_connected_components c h).2 = data h.
Proof.
unfold find_connected_components.
repeat case_match; by rewrite ?count_components_data.
Qed.
End ComponentsFrame.

Module BubblesFrame.
Import BaseCountBubblesOperator.

Lemma bubbles_visit_neighbor_data sh c st d :
data (visit_neighbor sh c st d).1.1 = data st.1.1.
Proof.
destruct st as [[h q] b], sh as [[sx sy] sz], c as [[cx cy] cz],
d as [[dx dy] dz]. unfold visit_neighbor.
repeat case_match; done.
Qed.

Lemma bubbles_fold_visit_data sh c l st :
data (foldl (visit_neighbor sh c) st l).1.1 = data st.1.1.
Proof.
revert st. induction l as [|d l IH]; intros st; simpl; [done|].
by rewrite IH, bubbles_visit_neighbor_data.
Qed.

Lemma bubbles_bfs_loop_data fuel N sh q b h r :
bfs_loop fuel N sh q b h = Some r → data r.1 = data h.
Proof.
revert q b h. induction fuel as [|fuel IH]; intros q b h; simpl; [done|].
destruct q as [|c q]; [by intros [= <-]|].
destruct (foldl _ _ _) as [[h1 q1] b1] eqn:Hfold. intros Hloop.
apply IH in Hloop. rewrite Hloop.
pose proof (bubbles_fold_visit_data sh c N (h, q, b)) as Hd.
by rewrite Hfold in Hd.
Qed.

Lemma bubbles_scan_data fuel N sh l h n h' n' :
foldl (scan_step fuel N sh) (Some (h, n)) l = Some (h', n') →
data h' = data h.
Proof.
revert h n. induction l as [|p l IH]; intros h n; simpl.
- by intros [= -> _].
- destruct (negb _).
+ unfold bfs. destruct (bfs_loop _ _ _ _ _ _) as [[h1 []]|] eqn:Hb.
  * intros Hf. apply IH in Hf. rewrite Hf.
    by apply bubbles_bfs_loop_data in Hb.
  * intros Hf. apply IH in Hf. rewrite Hf.
    by apply bubbles_bfs_loop_data in Hb.
  * by rewrite foldl_none.
+ apply IH.
Qed.

Lemma count_bubbles_data N h : data (count_bubbles N h).2 = data h.
Proof.
unfold count_bubbles. destruct (shape (data h)) as [[sx sy] sz].
destruct (foldl _ _ _) as [[h1 n1]|] eqn:Hf; [|done].
by apply bubbles_scan_data in Hf.
Qed.

Lemma find_bubbles_data c h : data (find_bubbles c h).2 = data h.
Proof.
unfold find_bubbles. repeat case_match; by rewrite ?count_bubbles_data.
Qed.
End BubblesFrame.

(** C7.  For every grid and every connectivity value other than 6, 18 and
    26 both counting calls fail with the invalid-connectivity error (the
    [ValueError] the source raises), and the heap after the call is the heap
    before it: no flag array has been allocated and no voxel marked. *)
Theorem invalid_connectivity_rejected (c : Z)
    (hc : heap (list bool)) (hb : heap (ndarray bool)) :
  ¬ valid_connectivity c →
  BaseCountConnectedComponentsOperator.find_connected_components c hc
    = (Raise invalid_connectivity, hc)
  ∧ BaseCountBubblesOperator.find_bubbles c hb
    = (Raise invalid_connectivity, hb).
Proof.
  unfold valid_connectivity. intros Hc.
  unfold BaseCountConnectedComponentsOperator.find_connected_components,
    BaseCountBubblesOperator.find_bubbles.
  destruct (Z.eqb_spec c 6); [tauto|].
  destruct (Z.eqb_spec c 18); [tauto|].
  destruct (Z.eqb_spec c 26); [tauto|]. done.
Qed.

Lemma invalid_connectivity_rejected_witness :
  BaseCountConnectedComponentsOperator.find_connected_components 7
      (Heap two_corner None)
    = (Raise invalid_connectivity, Heap two_corner None)
  ∧ BaseCountBubblesOperator.find_bubbles 7 (Heap two_corner None)
    = (Raise invalid_connectivity, Heap two_corner None).
Proof.
  apply (invalid_connectivity_rejected 7).
  unfold valid_connectivity. lia.
Defined.

(** C9.  Both counting calls leave the grid unchanged: the array held by the
    heap after the call is the array passed in, whatever the connectivity
    argument. *)
Theorem grid_unchanged (c : Z)
    (hc : heap (list bool)) (hb : heap (ndarray bool)) :
  data (BaseCountConnectedComponentsOperator.find_connected_components c hc).2
    = data hc
  ∧ data (BaseCountBubblesOperator.find_bubbles c hb).2 = data hb.
Proof.
  split.
  - apply ComponentsFrame.find_connected_components_data.
  - apply BubblesFrame.find_bubbles_data.
Qed.

(** ** The abstract flood fill *)

Section TraversalProofs.
Context {V : Type}.
Variable key : V → nat.
Variable succ : V → list V.
Variable flag : V → bool.
Variable good : V → Prop.
Variable size : nat.
Hypothesis key_inj : ∀ u v, good u → good v → key u = key v → u = v.
Hypothesis key_lt : ∀ v, good v → (key v < size)%nat.
Hypothesis succ_good : ∀ u v, good u → v ∈ succ u → good v.
Hypothesis succ_sym : ∀ u v, good u → v ∈ succ u → u ∈ succ v.

Abbreviation is_marked := (marked key).
Abbreviation reaches := (reach succ).
Abbreviation scan_inv := (scan_invariant key succ flag good size).
Abbreviation unflagged := (unflagged succ flag).

Lemma reach_good u v : good u → reaches u v → good v.
Proof.
intros Hu Hr. induction Hr as [|x y z Hxy _ IH]; [done|].
apply IH. by eapply succ_good.
Qed.

Lemma reach_sym u v : good u → reaches u v → reaches v u.
Proof.
intros Hu Hr. induction Hr as [|x y z Hxy _ IH]; [apply rtc_refl|].
eapply rtc_r; [apply IH; by eapply succ_good|].
by apply succ_sym.
Qed.

Lemma count_false_insert (vis : list bool) k :
vis !! k = Some false →
(count_false (<[k := true]> vis) + 1 = count_false vis)%nat.
Proof.
unfold count_false. revert k.
induction vis as [|b vis IH]; intros k Hk; [done|].
destruct k as [|k]; simpl in *.
- injection Hk as ->. rewrite (filter_cons_True _ false) by done.
rewrite (filter_cons_False _ true) by done. simpl. lia.
- specialize (IH k Hk). rewrite !filter_cons.
destruct (decide (b = false)); simpl; lia.
Qed.

Lemma count_false_le (vis : list bool) : (count_false vis ≤ length vis)%nat.
Proof. unfold count_false. apply length_filter. Qed.

Lemma lookup_bool_total (vis : list bool) k b :
vis !! k = Some b → vis !!! k = b.
Proof. intros Hk. by rewrite list_lookup_total_alt, Hk. Qed.

(** One pass over the candidate neighbours of a node. *)
Lemma fold_visit_spec l : ∀ vis q,
length vis = size → (∀ n, n ∈ l → good n) →
∃ vis' new,
foldl (t_visit key) (vis, q) l = (vis', q ++ new)
∧ length vis' = size
∧ (∀ k, vis !! k = Some true → vis' !! k = Some true)
∧ (∀ n, n ∈ l → is_marked vis' n)
∧ (∀ n, n ∈ new → n ∈ l ∧ ¬ is_marked vis n)
∧ (∀ k, vis' !! k = Some true →
     vis !! k = Some true ∨ ∃ n, n ∈ new ∧ key n = k)
∧ (count_false vis' + length new = count_false vis)%nat.
Proof.
induction l as [|n l IH]; intros vis q Hlen Hgood.
- exists vis, []. rewrite app_nil_r. split_and!.
+ done.
+ done.
+ done.
+ intros n Hn. by apply elem_of_nil in Hn.
+ intros n Hn. by apply elem_of_nil in Hn.
+ by left.
+ simpl. lia.
- assert (key n < length vis)%nat as Hlt
  by (rewrite Hlen; apply key_lt, Hgood; left).
destruct (lookup_lt_is_Some_2 _ _ Hlt) as [b Hb].
simpl. rewrite (lookup_bool_total _ _ _ Hb).
destruct b.
+ destruct (IH vis q Hlen) as (vis' & new & Hf & Hl & Hm & Hall & Hnew & Hsrc & Hc).
  { intros n' Hn'. apply Hgood. by right. }
  exists vis', new. split_and!.
  * done.
  * done.
  * done.
  * intros n' [->|Hn']%elem_of_cons; [by apply Hm|by apply Hall].
  * intros n' Hn'. destruct (Hnew _ Hn'). split; [by right|done].
  * done.
  * done.
+ destruct (IH (<[key n := true]> vis) (q ++ [n]))
    as (vis' & new & Hf & Hl & Hm & Hall & Hnew & Hsrc & Hc).
  { by rewrite length_insert. }
  { intros n' Hn'. apply Hgood. by right. }
  assert (∀ k, vis !! k = Some true →
               <[key n := true]> vis !! k = Some true) as Hm1.
  { intros k Hk. destruct (decide (k = key n)) as [->|Hne].
    - by rewrite list_lookup_insert_eq.
    - by rewrite list_lookup_insert_ne. }
  exists vis', (n :: new). split_and!.
  * rewrite Hf. by rewrite <- app_assoc.
  * done.
  * intros k Hk. by apply Hm, Hm1.
  * intros n' [->|Hn']%elem_of_cons; [|by apply Hall].
    apply Hm. by rewrite list_lookup_insert_eq.
  * intros n' [->|Hn']%elem_of_cons.
    -- split; [by left|]. unfold is_marked. by rewrite Hb.
    -- destruct (Hnew _ Hn') as [? Hnm]. split; [by right|].
       intros Hmk. apply Hnm. by apply Hm1.
  * intros k Hk. destruct (Hsrc _ Hk) as [Hk1|(n' & Hn' & <-)].
    -- destruct (decide (k = key n)) as [->|Hne].
       ++ right. exists n. split; [by left|done].
       ++ left. by rewrite list_lookup_insert_ne in Hk1.
    -- right. exists n'. split; [by right|done].
  * pose proof (count_false_insert _ _ Hb). simpl. lia.
Qed.

Section Fill.
Variable vis0 : list bool.
Variable s : V.

Abbreviation fill_inv := (fill_invariant key succ good size vis0 s).

Lemma fill_inv_proper q vis (P P' : V → Prop) :
(∀ v, P v ↔ P' v) → fill_inv q vis P → fill_inv q vis P'.
Proof.
intros HP [H1 H2 Hs H3 H4 H5 H6]. split; try done.
- intros v Hg Hm Hn. destruct (H5 v Hg Hm Hn); [by left|right].
by apply HP.
- intros v Hv. apply H6. by apply HP.
Qed.

Lemma fill_inv_step c q vis P :
fill_inv (c :: q) vis P →
∃ vis' q',
foldl (t_visit key) (vis, q) (succ c) = (vis', q')
∧ fill_inv q' vis' (λ v, v = c ∨ P v)
∧ (length q' + 2 * count_false vis'
< length (c :: q) + 2 * count_false vis)%nat.
Proof.
intros [H1 H2 Hs H3 H4 H5 H6].
destruct (H4 c) as (Hgc & Hmc & Hnc); [by left|].
assert (reaches s c) as Hrc by (destruct (H3 c Hgc Hmc); done).
destruct (fold_visit_spec (succ c) vis q H1)
as (vis' & new & Hf & Hl & Hm & Hall & Hnew & Hsrc & Hc).
{ intros n Hn. by apply (succ_good c). }
exists vis', (q ++ new). split; [done|]. split; [split|].
- done.
- intros k Hk. by apply Hm, H2.
- by apply Hm.
- intros v Hg Hmv. destruct (Hsrc _ Hmv) as [Hv|(n & Hn & Hk)].
+ by apply H3.
+ destruct (Hnew _ Hn) as [Hnc' _].
assert (n = v) as -> by
(apply key_inj; [by apply (succ_good c)|done|done]).
right. eapply rtc_r; [exact Hrc|exact Hnc'].
- intros v [Hv|Hv]%elem_of_app.
+ destruct (H4 v) as (? & ? & ?); [by right|].
split_and!; [done| |done]. by apply Hm.
+ destruct (Hnew _ Hv) as [Hvc Hvn]. split_and!.
* by apply (succ_good c).
* by apply Hall.
* intros Hv0. apply Hvn. by apply H2.
- intros v Hg Hmv Hn0. destruct (Hsrc _ Hmv) as [Hv|(n & Hn & Hk)].
+ destruct (H5 v Hg Hv Hn0) as [[->|Hq]%elem_of_cons|HP].
* right. by left.
* left. apply elem_of_app. by left.
* right. by right.
+ destruct (Hnew _ Hn) as [Hnc' _].
assert (n = v) as -> by
(apply key_inj; [by apply (succ_good c)|done|done]).
left. apply elem_of_app. by right.
- intros v [->|HP].
+ split_and!; [done|by apply Hm|done|done].
+ destruct (H6 v HP) as (? & ? & ? & Hsucc).
split_and!; [done|by apply Hm|done|].
intros w Hw. by apply Hm, Hsucc.
- rewrite length_app. simpl. lia.
Qed.

Lemma t_loop_spec fuel : ∀ q vis hit P,
fill_inv q vis P →
(length q + 2 * count_false vis < fuel)%nat →
∃ vis' pop,
t_loop key succ flag fuel q hit vis
= Some (vis', hit || existsb flag pop)
∧ fill_inv [] vis' (λ v, v ∈ pop ∨ P v).
Proof.
induction fuel as [|fuel IH]; intros q vis hit P Hinv Hfuel; [lia|].
destruct q as [|c q].
- exists vis, []. simpl. rewrite orb_false_r. split; [done|].
eapply fill_inv_proper; [|exact Hinv].
intros v. rewrite elem_of_nil. tauto.
- destruct (fill_inv_step c q vis P Hinv) as (vis1 & q1 & Hf & Hinv1 & Hlt).
destruct (IH q1 vis1 (hit || flag c) _ Hinv1) as (vis' & pop & Hloop & Hinv').
{ change (length (c :: q)) with (S (length q)) in *. lia. }
exists vis', (c :: pop). split.
+ simpl. rewrite Hf, Hloop. by rewrite orb_assoc.
+ eapply fill_inv_proper; [|exact Hinv'].
intros v. rewrite elem_of_cons. tauto.
Qed.

Hypothesis vis0_len : length vis0 = size.
Hypothesis s_good : good s.
Hypothesis s_fresh : vis0 !! key s = Some false.
Hypothesis vis0_apart : ∀ v, reaches s v → ¬ is_marked vis0 v.

Lemma fill_inv_init : fill_inv [s] (<[key s := true]> vis0) (λ _, False).
Proof.
assert (is_marked (<[key s := true]> vis0) s) as Hs.
{ apply list_lookup_insert_eq. rewrite vis0_len. by apply key_lt. }
split.
- by rewrite length_insert.
- intros k Hk. destruct (decide (k = key s)) as [->|Hne].
+ congruence.
+ by rewrite list_lookup_insert_ne.
- done.
- intros v Hg Hm. unfold marked in Hm.
destruct (decide (key v = key s)) as [He|Hne].
+ right. apply key_inj in He as ->; [apply rtc_refl|done..].
+ left. by rewrite list_lookup_insert_ne in Hm.
- intros v ->%list_elem_of_singleton. split_and!; [done|done|].
unfold marked. congruence.
- intros v Hg Hm Hn. left. apply list_elem_of_singleton.
unfold marked in Hm.
destruct (decide (key v = key s)) as [He|Hne].
+ by apply key_inj in He.
+ by rewrite list_lookup_insert_ne in Hm.
- done.
Qed.

Lemma t_fill_spec fuel :
(2 * size < fuel)%nat →
∃ vis' pop,
t_fill key succ flag fuel s vis0 = Some (vis', existsb flag pop)
∧ length vis' = size
∧ (∀ k, vis0 !! k = Some true → vis' !! k = Some true)
∧ (∀ v, good v → (is_marked vis' v ↔ is_marked vis0 v ∨ reaches s v))
∧ (∀ v, v ∈ pop ↔ reaches s v).
Proof.
intros Hfuel.
destruct (t_loop_spec fuel [s] (<[key s := true]> vis0) false _ fill_inv_init)
as (vis' & pop & Hloop & [H1 H2 Hs H3 H4 H5 H6]).
{ pose proof (count_false_insert _ _ s_fresh).
pose proof (count_false_le vis0). simpl. lia. }
assert (∀ v, reaches s v → is_marked vis' v) as Hclosed.
{ apply (rtc_ind_r (λ v, is_marked vis' v)); [done|].
intros y z Hsy Hyz IH.
assert (good y) as Hgy by (by eapply reach_good).
destruct (H5 y Hgy IH) as [Hq|[Hp|[]]].
- by apply vis0_apart.
- by apply elem_of_nil in Hq.
- destruct (H6 y (or_introl Hp)) as (_ & _ & _ & Hsucc).
by apply Hsucc. }
exists vis', pop. split_and!; [done|done|done| |].
- intros v Hg. split; [by apply H3|].
intros [Hv|Hv]; [by apply H2|by apply Hclosed].
- intros v. split.
+ intros Hv. destruct (H6 v (or_introl Hv)) as (Hg & Hm & Hn & _).
by destruct (H3 v Hg Hm).
+ intros Hr. assert (good v) as Hg by (by eapply reach_good).
destruct (H5 v Hg (Hclosed v Hr)) as [Hq|[Hp|[]]]; [| |done].
* by apply vis0_apart.
* by apply elem_of_nil in Hq.
Qed.
End Fill.
Lemma snoc_apart (l : list V) (c : V) :
(∀ i j r r', l !! i = Some r → l !! j = Some r' → reaches r r' → i = j) →
(∀ r, r ∈ l → good r) → good c →
(∀ r, r ∈ l → ¬ reaches r c) →
∀ i j r r',
(l ++ [c]) !! i = Some r → (l ++ [c]) !! j = Some r' → reaches r r' → i = j.
Proof.
intros Hap Hg Hc Hfar i j r r'.
rewrite !lookup_snoc_Some.
intros [[Hi Hr] | [Hi Hr]] [[Hj Hr'] | [Hj Hr']] Hreach; subst.
- by eapply Hap.
- exfalso. eapply Hfar; [|exact Hreach]. by eapply list_elem_of_lookup_2.
- exfalso. eapply (Hfar r'); [by eapply list_elem_of_lookup_2|].
by apply reach_sym.
- done.
Qed.

Lemma t_scan_step_spec fuel seen vis n seeds reps c :
(2 * size < fuel)%nat → good c →
scan_inv seen vis n seeds reps →
∃ vis' n' seeds' reps',
t_scan_step key succ flag fuel (Some (vis, n)) c = Some (vis', n')
∧ scan_inv (seen ++ [c]) vis' n' seeds' reps'.
Proof.
intros Hfuel Hgc [H1 H2 H3 H4 H5 H6 H7 H8].
assert (key c < length vis)%nat as Hlt by (rewrite H1; by apply key_lt).
destruct (lookup_lt_is_Some_2 _ _ Hlt) as [b Hb].
unfold t_scan_step. rewrite (lookup_bool_total _ _ _ Hb). destruct b.
{ exists vis, n, seeds, reps. split; [done|]. split; try done.
intros c' [Hc'| ->%list_elem_of_singleton]%elem_of_app; [by apply H8|done]. }
assert (∀ r, r ∈ seeds → ¬ reaches r c) as Hfar.
{ intros r Hr Hrc. assert (is_marked vis c) as Hm by (apply H2; eauto).
unfold marked in Hm. congruence. }
destruct (t_fill_spec vis c H1 Hgc Hb) with (fuel := fuel)
as (vis' & pop & Hfill & Hlen & Hmono & Hmk & Hpop); [|done|].
{ intros v Hcv Hm. assert (good v) as Hgv by (by eapply reach_good).
apply H2 in Hm as (r & Hr & Hrv); [|done].
apply (Hfar r Hr). eapply rtc_trans; [exact Hrv|].
by apply reach_sym. }
rewrite Hfill.
assert (∀ v, good v →
(is_marked vis' v ↔ ∃ r, r ∈ seeds ++ [c] ∧ reaches r v)) as Hmk'.
{ intros v Hg. rewrite Hmk, H2 by done. split.
- intros [(r & Hr & Hrv)|Hcv].
  + exists r. split; [apply elem_of_app; by left|done].
  + exists c. split; [apply elem_of_app; right; by left|done].
- intros (r & [Hr| ->%list_elem_of_singleton]%elem_of_app & Hrv).
  + left. eauto.
  + by right. }
assert (∀ r, r ∈ seeds ++ [c] → good r) as Hgood'.
{ intros r [Hr| ->%list_elem_of_singleton]%elem_of_app; [by apply H3|done]. }
assert (∀ c', c' ∈ seen ++ [c] → is_marked vis' c') as Hseen'.
{ intros c' [Hc'| ->%list_elem_of_singleton]%elem_of_app.
- by apply Hmono, H8.
- apply Hmk; [done|]. right. apply rtc_refl. }
destruct (existsb flag pop) eqn:Hhit.
- apply existsb_exists in Hhit as (w & Hw%list_elem_of_In & Hfw).
apply Hpop in Hw.
exists vis', n, (seeds ++ [c]), reps. split; [done|].
split; try done.
+ by apply snoc_apart.
+ intros r. rewrite H5, elem_of_app, list_elem_of_singleton. split.
  * intros [? ?]. split; [by left|done].
  * intros [[?| ->] Hcl]; [done|].
    specialize (Hcl w Hw). congruence.
- exists vis', (n + 1), (seeds ++ [c]), (reps ++ [c]). split; [done|].
assert (unflagged c) as Hclear.
{ intros w Hw. apply Hpop in Hw.
  destruct (flag w) eqn:Hfw; [|done].
  assert (existsb flag pop = true); [|congruence].
  apply existsb_exists. exists w. by rewrite <- list_elem_of_In. }
split; try done.
+ by apply snoc_apart.
+ intros r. rewrite !elem_of_app, list_elem_of_singleton, H5. split.
  * intros [[? ?]| ->]; [split; [by left|done]|].
    split; [by right|done].
  * intros [[?| ->] Hcl]; [left; done|by right].
+ apply snoc_apart; try done.
  * intros r Hr. apply H3. by apply H5.
  * intros r Hr. apply Hfar. by apply H5.
+ rewrite length_app. simpl. lia.
Qed.

Lemma t_scan_spec fuel cands : ∀ seen vis n seeds reps,
(2 * size < fuel)%nat → (∀ c, c ∈ cands → good c) →
scan_inv seen vis n seeds reps →
∃ vis' n' seeds' reps',
foldl (t_scan_step key succ flag fuel) (Some (vis, n)) cands
  = Some (vis', n')
∧ scan_inv (seen ++ cands) vis' n' seeds' reps'.
Proof.
induction cands as [|c cands IH]; intros seen vis n seeds reps Hfuel Hg Hinv.
- exists vis, n, seeds, reps. by rewrite app_nil_r.
- destruct (t_scan_step_spec fuel seen vis n seeds reps c)
  as (vis1 & n1 & seeds1 & reps1 & Hstep & Hinv1); [done|apply Hg; by left|done|].
destruct (IH (seen ++ [c]) vis1 n1 seeds1 reps1)
  as (vis' & n' & seeds' & reps' & Hfold & Hinv'); [done| |done|].
{ intros c' Hc'. apply Hg. by right. }
exists vis', n', seeds', reps'. split.
+ cbn [foldl]. by rewrite Hstep.
+ by rewrite <- app_assoc in Hinv'.
Qed.

(** The scan over every node counts the classes of [reaches] that contain no
flagged node. *)
Theorem t_scan_correct fuel cands :
(2 * size < fuel)%nat →
(∀ c, c ∈ cands ↔ good c) →
∃ vis n,
foldl (t_scan_step key succ flag fuel)
      (Some (replicate size false, 0)) cands = Some (vis, n)
∧ class_count (λ v, good v ∧ unflagged v) reaches n.
Proof.
intros Hfuel Hc.
destruct (t_scan_spec fuel cands [] (replicate size false) 0 [] [])
as (vis & n & seeds & reps & Hfold & [H1 H2 H3 H4 H5 H6 H7 H8]).
{ done. }
{ intros c. apply Hc. }
{ split.
- by rewrite length_replicate.
- intros v Hg. unfold marked. split.
  + intros [Hx _]%lookup_replicate. done.
  + intros (r & Hr & _). by apply elem_of_nil in Hr.
- intros r Hr. by apply elem_of_nil in Hr.
- intros i j r r' Hi. by rewrite lookup_nil in Hi.
- intros r. rewrite elem_of_nil. tauto.
- intros i j r r' Hi. by rewrite lookup_nil in Hi.
- done.
- intros c Hin. by apply elem_of_nil in Hin. }
exists vis, n. split; [done|]. exists reps. split; [|done]. split.
- intros r [Hr Hcl]%H5. split; [by apply H3|done].
- done.
- intros v [Hg Hcl]. simpl in H8.
destruct (proj1 (H2 v Hg)) as (r & Hr & Hrv); [by apply H8, Hc|].
exists r. split; [|done]. apply H5. split; [done|].
intros w Hw. apply Hcl. eapply rtc_trans; [|exact Hw].
apply reach_sym; [by apply H3|done].
Qed.
End TraversalProofs.

(** ** Counting classes *)

Lemma class_count_proper {V} (P P' : V → Prop) (R R' : relation V) n :
  (∀ v, P v ↔ P' v) → (∀ u v, P u → (R u v ↔ R' u v)) →
  class_count P R n → class_count P' R' n.
Proof.
  intros HP HR (reps & [H1 H2 H3] & ->). exists reps. split; [|done].
  split.
  - intros r Hr. by apply HP, H1.
  - intros i j r r' Hi Hj Hrr. eapply H2; [done..|].
    apply HR; [|done]. by eapply H1, list_elem_of_lookup_2.
  - intros v Hv%HP. destruct (H3 v Hv) as (r & Hr & Hrv).
    exists r. split; [done|]. apply HR; [by apply H1|done].
Qed.

(** A coarser relation on a smaller set has at most as many classes. *)
Lemma representatives_le {V} (P1 P2 : V → Prop) (R1 R2 : relation V) reps1 reps2 :
  (∀ v, P2 v → P1 v) → (∀ u v, R1 u v → R2 u v) →
  (∀ u v, R1 u v → R1 v u) → (∀ u v w, R1 u v → R1 v w → R1 u w) →
  representatives P1 R1 reps1 → representatives P2 R2 reps2 →
  (length reps2 ≤ length reps1)%nat.
Proof.
  intros HP HR Hsym Htrans [A1 A2 A3] [B1 B2 B3].
  assert (∃ l, Forall2 (λ r2 r1, r1 ∈ reps1 ∧ R1 r1 r2) reps2 l) as [l Hl].
  { clear B2 B3. induction reps2 as [|r reps2 IH].
    - exists []. constructor.
    - destruct IH as [l Hl]; [intros r' Hr'; apply B1; by right|].
      destruct (A3 r) as (r1 & Hr1 & Hrr); [apply HP, B1; by left|].
      exists (r1 :: l). by constructor. }
  rewrite (Forall2_length _ _ _ Hl). apply submseteq_length, NoDup_submseteq.
  - apply NoDup_alt. intros i j r1 Hi Hj.
    destruct (Forall2_lookup_r _ _ _ _ _ Hl Hi) as (x & Hx & _ & Hrx).
    destruct (Forall2_lookup_r _ _ _ _ _ Hl Hj) as (y & Hy & _ & Hry).
    eapply B2; [exact Hx|exact Hy|]. apply HR.
    eapply Htrans; [apply Hsym; exact Hrx|exact Hry].
  - intros r1 Hr1. apply list_elem_of_lookup in Hr1 as [i Hi].
    by destruct (Forall2_lookup_r _ _ _ _ _ Hl Hi) as (x & _ & ? & _).
Qed.

Lemma class_count_le {V} (P1 P2 : V → Prop) (R1 R2 : relation V) n1 n2 :
  (∀ v, P2 v → P1 v) → (∀ u v, R1 u v → R2 u v) →
  (∀ u v, R1 u v → R1 v u) → (∀ u v w, R1 u v → R1 v w → R1 u w) →
  class_count P1 R1 n1 → class_count P2 R2 n2 → n2 ≤ n1.
Proof.
  intros HP HR Hsym Htrans (reps1 & H1 & ->) (reps2 & H2 & ->).
  apply inj_le. by eapply (representatives_le P1 P2 R1 R2).
Qed.

(** The count is determined by the set and the equivalence. *)
Lemma class_count_unique {V} (P : V → Prop) (R : relation V) n m :
  (∀ u v, R u v → R v u) → (∀ u v w, R u v → R v w → R u w) →
  class_count P R n → class_count P R m → n = m.
Proof.
  intros Hsym Htrans Hn Hm.
  pose proof (class_count_le P P R R n m) as H1.
  pose proof (class_count_le P P R R m n) as H2.
  apply Z.le_antisymm; [apply H2|apply H1]; auto.
Qed.

Lemma class_count_empty {V} (P : V → Prop) (R : relation V) n :
  (∀ v, ¬ P v) → class_count P R n → n = 0.
Proof.
  intros HP (reps & [H1 _ _] & ->). destruct reps as [|r reps]; [done|].
  exfalso. apply (HP r), H1. by left.
Qed.


(** ** The grid as a graph *)

Section GridGraph.
Variable g : ndarray Z.
Variable t : Z.
Variable N : list index.
Hypothesis N_sym : symmetric_offsets N.

Lemma grid_key_inj p q :
cell g t p → cell g t q →
grid_key (shape g) p = grid_key (shape g) q → p = q.
Proof.
intros [Hp _] [Hq _] Hk. unfold grid_key in Hk.
apply (ravel_inj (shape g)); [done..|].
apply ravel_bounds in Hp, Hq. apply Z2Nat.inj; lia.
Qed.

Lemma grid_key_lt p :
cell g t p → (grid_key (shape g) p < Z.to_nat (size_of (shape g)))%nat.
Proof. intros [Hp%ravel_bounds _]. unfold grid_key. lia. Qed.

Lemma elem_of_grid_succ p q :
q ∈ grid_succ g t N p ↔ cell g t q ∧ ∃ d, d ∈ N ∧ q = offset_add p d.
Proof.
unfold grid_succ. rewrite list_elem_of_filter, list_elem_of_fmap.
unfold cell. split.
- intros [Hc (d & -> & Hd)]. split; [done|]. by exists d.
- intros [Hc (d & Hd & ->)]. split; [done|]. by exists d.
Qed.

Lemma grid_succ_good p q : cell g t p → q ∈ grid_succ g t N p → cell g t q.
Proof. intros _ Hq. by apply elem_of_grid_succ in Hq as [? _]. Qed.

Lemma offset_add_neg p d : offset_add (offset_add p d) (offset_neg d) = p.
Proof.
destruct p as [[x y] z], d as [[dx dy] dz]. simpl. f_equal; [f_equal|]; lia.
Qed.

Lemma grid_succ_sym p q :
cell g t p → q ∈ grid_succ g t N p → p ∈ grid_succ g t N q.
Proof.
intros Hp (Hq & d & Hd & ->)%elem_of_grid_succ. apply elem_of_grid_succ.
split; [done|]. exists (offset_neg d). split; [by apply N_sym|].
by rewrite offset_add_neg.
Qed.

Lemma connected_reach p q :
connected g t N p q → reach (grid_succ g t N) p q.
Proof.
intros Hc. induction Hc as [|x y z (Hx & Hy & d & Hd & ->) _ IH];
[apply rtc_refl|].
eapply rtc_l; [|exact IH]. apply elem_of_grid_succ. eauto.
Qed.

Lemma reach_connected p q :
cell g t p → reach (grid_succ g t N) p q → connected g t N p q.
Proof.
intros Hp Hr. induction Hr as [|x y z Hxy _ IH]; [apply rtc_refl|].
apply elem_of_grid_succ in Hxy as (Hy & d & Hd & ->).
eapply rtc_l; [|by apply IH]. split_and!; eauto.
Qed.

Lemma connected_sym p q : connected g t N p q → connected g t N q p.
Proof.
intros Hc. induction Hc as [|x y z (Hx & Hy & d & Hd & ->) _ IH];
[apply rtc_refl|].
eapply rtc_r; [exact IH|]. split_and!; [done..|].
exists (offset_neg d). split; [by apply N_sym|]. by rewrite offset_add_neg.
Qed.

Lemma grid_flag_spec p :
grid_flag (shape g) N p = false ↔ ¬ outside_neighbor (shape g) N p.
Proof.
unfold grid_flag, outside_neighbor. split.
- intros Hf (d & Hd & Hout).
assert (existsb (λ d, negb (in_bounds (shape g) (offset_add p d))) N = true);
  [|congruence].
apply existsb_exists. exists d. rewrite <- list_elem_of_In.
by rewrite Hout.
- intros Hn. destruct (existsb _ N) eqn:He; [|done]. exfalso. apply Hn.
apply existsb_exists in He as (d & Hd%list_elem_of_In & Ho).
exists d. split; [done|]. by apply negb_true_iff.
Qed.

(** The scan of the abstract traversal over every cell of value [t], with
the nodes next to the outside flagged, counts the enclosed classes. *)
Lemma grid_scan_enclosed fuel cands :
(2 * Z.to_nat (size_of (shape g)) < fuel)%nat →
(∀ p, p ∈ cands ↔ cell g t p) →
∃ vis n,
foldl (t_scan_step (grid_key (shape g)) (grid_succ g t N)
         (grid_flag (shape g) N) fuel)
      (Some (replicate (Z.to_nat (size_of (shape g))) false, 0)) cands
  = Some (vis, n)
∧ class_count
    (λ p, cell g t p
          ∧ ∀ q, connected g t N p q → ¬ outside_neighbor (shape g) N q)
    (connected g t N) n.
Proof.
intros Hfuel Hc.
destruct (t_scan_correct (grid_key (shape g)) (grid_succ g t N)
          (grid_flag (shape g) N) (cell g t)
          (Z.to_nat (size_of (shape g)))
          grid_key_inj grid_key_lt grid_succ_good grid_succ_sym
          fuel cands Hfuel Hc) as (vis & n & Hfold & Hcount).
exists vis, n. split; [done|].
eapply class_count_proper; [| |exact Hcount].
- intros p. unfold unflagged. split.
+ intros [Hp Hcl]. split; [done|]. intros q Hq.
  by apply grid_flag_spec, Hcl, connected_reach.
+ intros [Hp Hcl]. split; [done|]. intros q Hq.
  by apply grid_flag_spec, Hcl, reach_connected.
- intros p q [Hp _]. split; [by apply reach_connected|apply connected_reach].
Qed.

(** The same scan without flags counts every class. *)
Lemma grid_scan_all fuel cands :
(2 * Z.to_nat (size_of (shape g)) < fuel)%nat →
(∀ p, p ∈ cands ↔ cell g t p) →
∃ vis n,
foldl (t_scan_step (grid_key (shape g)) (grid_succ g t N)
         (λ _, false) fuel)
      (Some (replicate (Z.to_nat (size_of (shape g))) false, 0)) cands
  = Some (vis, n)
∧ class_count (cell g t) (connected g t N) n.
Proof.
intros Hfuel Hc.
destruct (t_scan_correct (grid_key (shape g)) (grid_succ g t N)
          (λ _, false) (cell g t)
          (Z.to_nat (size_of (shape g)))
          grid_key_inj grid_key_lt grid_succ_good grid_succ_sym
          fuel cands Hfuel Hc) as (vis & n & Hfold & Hcount).
exists vis, n. split; [done|].
eapply class_count_proper; [| |exact Hcount].
- intros p. unfold unflagged. split; [by intros [? _]|].
intros Hp. split; [done|]. by intros.
- intros p q [Hp _]. split; [by apply reach_connected|apply connected_reach].
Qed.
End GridGraph.

(** ** The bubble count refines the abstract scan *)

Lemma in_bounds_unfold sx sy sz x y z :
  (0 <=? x) && (x <? sx) && (0 <=? y) && (y <? sy) && (0 <=? z) && (z <? sz)
  = in_bounds (sx, sy, sz) (x, y, z).
Proof. done. Qed.

Lemma t_visit_eq {V} (key : V → nat) (vis : list bool) (q : list V) (n : V) :
  t_visit key (vis, q) n =
    if (vis !!! key n : bool) then (vis, q)
    else (<[key n := true]> vis, q ++ [n]).
Proof. done. Qed.

Lemma grid_succ_cons g t d l c :
  grid_succ g t (d :: l) c =
    if decide (in_bounds (shape g) (offset_add c d) = true
               ∧ getitem g (offset_add c d) = t)
    then offset_add c d :: grid_succ g t l c
    else grid_succ g t l c.
Proof. unfold grid_succ. by rewrite fmap_cons, filter_cons. Qed.

Lemma grid_flag_cons sh d l c :
  grid_flag sh (d :: l) c
  = negb (in_bounds sh (offset_add c d)) || grid_flag sh l c.
Proof. done. Qed.

Section BubblesRefine.
Import BaseCountBubblesOperator.
Variable g : ndarray Z.
Variables sx sy sz : Z.
Hypothesis g_shape : shape g = (sx, sy, sz).

Lemma bubbles_visited_get vis p :
visited_get (bubbles_heap g vis) p = vis !!! grid_key (sx, sy, sz) p.
Proof. unfold bubbles_heap. by rewrite g_shape. Qed.

Lemma bubbles_visited_set vis p :
visited_set (bubbles_heap g vis) p
= bubbles_heap g (<[grid_key (sx, sy, sz) p := true]> vis).
Proof. unfold bubbles_heap. by rewrite g_shape. Qed.

Lemma bubbles_fold_visit c l : ∀ vis q b,
foldl (visit_neighbor (sx, sy, sz) c) (bubbles_heap g vis, q, b) l =
(bubbles_heap g (foldl (t_visit (grid_key (sx, sy, sz))) (vis, q)
                     (grid_succ g 0 l c)).1,
 (foldl (t_visit (grid_key (sx, sy, sz))) (vis, q) (grid_succ g 0 l c)).2,
 b || grid_flag (sx, sy, sz) l c).
Proof.
induction l as [|d l IH]; intros vis q b.
- simpl. by rewrite orb_false_r.
- cbn [foldl]. rewrite grid_succ_cons, grid_flag_cons, g_shape.
destruct c as [[cx cy] cz], d as [[dx dy] dz].
unfold visit_neighbor at 2. cbn [offset_add].
rewrite in_bounds_unfold.
change (data (bubbles_heap g vis)) with g.
rewrite bubbles_visited_get, bubbles_visited_set.
destruct (in_bounds (sx, sy, sz) (cx + dx, cy + dy, cz + dz)) eqn:Hin.
+ destruct (Z.eqb_spec (getitem g (cx + dx, cy + dy, cz + dz)) 0) as [Hz|Hz].
  * rewrite decide_True by done. cbn [foldl andb negb orb].
    rewrite (t_visit_eq (grid_key (sx, sy, sz)) vis q).
    destruct (vis !!! grid_key (sx, sy, sz) (cx + dx, cy + dy, cz + dz) : bool);
      cbn [negb]; apply IH.
  * rewrite decide_False by (intros [_ ?]; done). cbn [andb negb orb].
    apply IH.
+ rewrite decide_False by (intros [? _]; done). cbn [negb orb].
  rewrite IH. by rewrite orb_true_r.
Qed.

Lemma bubbles_bfs_loop N fuel : ∀ q b vis,
bfs_loop fuel N (sx, sy, sz) q b (bubbles_heap g vis) =
bubbles_lift g
  (t_loop (grid_key (sx, sy, sz)) (grid_succ g 0 N)
          (grid_flag (sx, sy, sz) N) fuel q b vis).
Proof.
induction fuel as [|fuel IH]; intros q b vis; [done|].
destruct q as [|c q]; [done|].
cbn [bfs_loop t_loop]. rewrite bubbles_fold_visit.
destruct (foldl (t_visit _) _ _) as [vis1 q1]. apply IH.
Qed.

Lemma bubbles_scan N fuel l : ∀ vis n,
foldl (scan_step fuel N (sx, sy, sz)) (Some (bubbles_heap g vis, n)) l =
bubbles_lift_scan g
  (foldl (t_scan_step (grid_key (sx, sy, sz)) (grid_succ g 0 N)
            (grid_flag (sx, sy, sz) N) fuel)
         (Some (vis, n)) l).
Proof.
induction l as [|p l IH]; intros vis n; [done|].
cbn [foldl]. unfold scan_step at 2, t_scan_step at 2.
rewrite bubbles_visited_get.
destruct (vis !!! grid_key (sx, sy, sz) p : bool); cbn [negb]; [apply IH|].
unfold bfs, t_fill. rewrite bubbles_visited_set, bubbles_bfs_loop.
destruct (t_loop _ _ _ _ _ _ _) as [[vis1 [|]]|]; cbn [bubbles_lift negb].
- apply IH.
- apply IH.
- rewrite !foldl_none; done.
Qed.
End BubblesRefine.

Lemma elem_of_indices sh p :
  0 ≤ sh.1.1 → 0 ≤ sh.1.2 → 0 ≤ sh.2 →
  p ∈ flat (tabulate sh id) ↔ in_bounds sh p = true.
Proof.
  intros H0 H1 H2. split.
  - intros [n Hn]%list_elem_of_lookup.
    pose proof (lookup_lt_Some _ _ _ Hn) as Hlt.
    rewrite length_tabulate in Hlt.
    destruct (unravel_spec sh (Z.of_nat n)) as [Hin Hrav]; [done..| |].
    { destruct sh as [[s0 s1] s2]. simpl in *. split; [lia|].
      rewrite <- (Z2Nat.id s0), <- (Z2Nat.id s1), <- (Z2Nat.id s2) by done.
      rewrite <- !Nat2Z.inj_mul. lia. }
    pose proof (lookup_tabulate sh id _ Hin) as Hl.
    rewrite Hrav, Nat2Z.id, Hn in Hl. by injection Hl as ->.
  - intros Hin. eapply list_elem_of_lookup_2.
    exact (lookup_tabulate sh id p Hin).
Qed.

Lemma elem_of_np_nonzero (mask : ndarray bool) p :
  wf_ndarray mask →
  p ∈ BaseCountBubblesOperator.np_nonzero mask
  ↔ in_bounds (shape mask) p = true ∧ getitem mask p = true.
Proof.
  intros (? & ? & ?)%wf_ndarray_shape.
  unfold BaseCountBubblesOperator.np_nonzero.
  rewrite list_elem_of_filter, elem_of_indices by done. tauto.
Qed.

Lemma fuel_for_enough total :
  (2 * Z.to_nat total < fuel_for total)%nat.
Proof. unfold fuel_for. lia. Qed.

(** The body of [find_bubbles] returns the number of enclosed components of
    empty voxels. *)
Lemma count_bubbles_correct N (h : heap (ndarray bool)) :
  wf_ndarray (data h) → symmetric_offsets N →
  ∃ n h', BaseCountBubblesOperator.count_bubbles N h = (Return n, h')
          ∧ bubble_count (data h) N n.
Proof.
  intros Hwf Hsym. unfold BaseCountBubblesOperator.count_bubbles.
  destruct (shape (data h)) as [[sx sy] sz] eqn:Hsh.
  set (g := data h) in *.
  assert (Heap g (Some (np_map (λ _, false) g))
          = bubbles_heap g (replicate (Z.to_nat (size_of (sx, sy, sz))) false))
    as ->.
  { unfold bubbles_heap, np_map. do 3 f_equal.
    rewrite (const_fmap _ _ false) by done. f_equal.
    apply wf_ndarray_length in Hwf. rewrite Hsh in Hwf. lia. }
  rewrite (bubbles_scan g sx sy sz Hsh).
  destruct (grid_scan_enclosed g 0 N Hsym
              (fuel_for (sx * sy * sz))
              (BaseCountBubblesOperator.np_nonzero (np_map (λ v, v =? 0) g)))
    as (vis & n & Hfold & Hcount).
  { rewrite Hsh. apply fuel_for_enough. }
  { intros p. rewrite elem_of_np_nonzero by (by apply wf_np_map).
    rewrite shape_np_map. unfold cell. split.
    - intros [Hin Hp]. split; [done|].
      rewrite getitem_np_map in Hp by done. by apply Z.eqb_eq.
    - intros [Hin Hp]. split; [done|].
      rewrite getitem_np_map by done. by apply Z.eqb_eq. }
  rewrite Hsh in Hfold. rewrite Hfold. cbn [bubbles_lift_scan].
  destruct Hcount as (reps & Hreps & ->).
  exists (Z.of_nat (length reps)), (bubbles_heap g vis). split.
  - by rewrite Z.max_r by lia.
  - exists reps. split; [|done]. rewrite Hsh in Hreps. unfold enclosed.
    by rewrite Hsh.
Qed.

(** ** The component count refines the abstract scan *)

Lemma t_visit_fold_queue {V} (key : V → nat) (P : V → Prop) l : ∀ vis q,
  Forall P q → Forall P l → Forall P (foldl (t_visit key) (vis, q) l).2.
Proof.
  induction l as [|n l IH]; intros vis q Hq Hl; [done|].
  apply Forall_cons in Hl as [Hn Hl]. cbn [foldl]. rewrite t_visit_eq.
  destruct (vis !!! key n : bool); apply IH; try done.
  apply Forall_app. split; [done|]. by apply Forall_singleton.
Qed.

Lemma t_loop_no_flag {V} (key : V → nat) (succ : V → list V) fuel :
  ∀ q hit vis vis' hit',
    t_loop key succ (λ _, false) fuel q hit vis = Some (vis', hit') →
    hit' = hit.
Proof.
  induction fuel as [|fuel IH]; intros q hit vis vis' hit'; [done|].
  destruct q as [|c q]; cbn [t_loop].
  - by intros [= _ ->].
  - destruct (foldl _ _ _) as [vis1 q1]. intros Hl%IH.
    by rewrite orb_false_r in Hl.
Qed.

Lemma Forall_grid_succ g t N c :
  Forall (λ p, in_bounds (shape g) p = true) (grid_succ g t N c).
Proof.
  apply Forall_forall. intros p Hp. unfold grid_succ in Hp.
  by apply list_elem_of_filter in Hp as [[? _] _].
Qed.

Section ComponentsRefine.
Import BaseCountConnectedComponentsOperator.
Variable g : ndarray Z.
Variables sx sy sz : Z.
Hypothesis g_shape : shape g = (sx, sy, sz).

Lemma components_visited_get vis p :
visited_get (components_heap g vis) (ravel (sx, sy, sz) p)
= vis !!! grid_key (sx, sy, sz) p.
Proof. done. Qed.

Lemma components_visited_set vis p :
visited_set (components_heap g vis) (ravel (sx, sy, sz) p)
= components_heap g (<[grid_key (sx, sy, sz) p := true]> vis).
Proof. done. Qed.

Lemma components_fold_visit c l : ∀ vis q,
foldl (visit_neighbor (sx, sy, sz) c)
    (components_heap g vis, ravel (sx, sy, sz) <$> q) l =
(components_heap g
   (foldl (t_visit (grid_key (sx, sy, sz))) (vis, q)
          (grid_succ g 1 l c)).1,
 ravel (sx, sy, sz) <$>
   (foldl (t_visit (grid_key (sx, sy, sz))) (vis, q)
          (grid_succ g 1 l c)).2).
Proof.
induction l as [|d l IH]; intros vis q; [done|].
cbn [foldl]. rewrite grid_succ_cons, g_shape.
destruct c as [[cx cy] cz], d as [[dx dy] dz].
unfold visit_neighbor at 2. cbn [offset_add].
rewrite in_bounds_unfold.
change (data (components_heap g vis)) with g.
change ((cx + dx) * sy * sz + (cy + dy) * sz + (cz + dz))
with (ravel (sx, sy, sz) (cx + dx, cy + dy, cz + dz)).
rewrite components_visited_get, components_visited_set.
destruct (in_bounds (sx, sy, sz) (cx + dx, cy + dy, cz + dz)) eqn:Hin.
- destruct (Z.eqb_spec (getitem g (cx + dx, cy + dy, cz + dz)) 1) as [Hz|Hz].
+ rewrite decide_True by done. cbn [foldl andb negb].
  rewrite (t_visit_eq (grid_key (sx, sy, sz)) vis q).
  destruct (vis !!! grid_key (sx, sy, sz) (cx + dx, cy + dy, cz + dz) : bool);
    cbn [negb]; [apply IH|].
  rewrite <- IH. by rewrite fmap_app.
+ rewrite decide_False by (intros [_ ?]; done). cbn [andb negb].
  apply IH.
- rewrite decide_False by (intros [? _]; done). apply IH.
Qed.

Lemma components_bfs_loop N fuel : ∀ q hit vis,
Forall (λ p, in_bounds (sx, sy, sz) p = true) q →
bfs_loop fuel N (sx, sy, sz) (ravel (sx, sy, sz) <$> q)
       (components_heap g vis) =
components_lift g
  (t_loop (grid_key (sx, sy, sz)) (grid_succ g 1 N) (λ _, false)
          fuel q hit vis).
Proof.
induction fuel as [|fuel IH]; intros q hit vis Hq; [done|].
destruct q as [|c q]; [done|].
apply Forall_cons in Hq as [Hc Hq].
rewrite fmap_cons. cbn [bfs_loop t_loop].
change (ravel (sx, sy, sz) c `div` (sy * sz),
      (ravel (sx, sy, sz) c `mod` (sy * sz)) `div` sz,
      ravel (sx, sy, sz) c `mod` sz)
with (unravel (sx, sy, sz) (ravel (sx, sy, sz) c)).
rewrite unravel_ravel by done. rewrite components_fold_visit.
pose proof (t_visit_fold_queue (grid_key (sx, sy, sz))
            (λ p, in_bounds (sx, sy, sz) p = true)
            (grid_succ g 1 N c) vis q Hq) as Hq1.
destruct (foldl (t_visit _) _ _) as [vis1 q1]. apply IH. apply Hq1.
rewrite <- g_shape. apply Forall_grid_succ.
Qed.

Lemma components_scan N fuel l : ∀ vis n,
0 ≤ sx → 0 ≤ sy → 0 ≤ sz →
Forall (λ idx, 0 ≤ idx < size_of (sx, sy, sz)) l →
foldl (scan_step fuel N (sx, sy, sz)) (Some (components_heap g vis, n)) l =
components_lift_scan g
  (foldl (t_scan_step (grid_key (sx, sy, sz)) (grid_succ g 1 N)
            (λ _, false) fuel)
         (Some (vis, n))
         (filter (λ p, getitem g p = 1) (unravel (sx, sy, sz) <$> l))).
Proof.
induction l as [|idx l IH]; intros vis n Hx Hy Hz Hl; [done|].
apply Forall_cons in Hl as [Hidx Hl].
destruct (unravel_spec (sx, sy, sz) idx) as [Hin Hrav]; [done..|].
rewrite fmap_cons, filter_cons. cbn [foldl]. unfold scan_step at 2.
change (data (components_heap g vis)) with g.
assert (flat g !!! Z.to_nat idx = getitem g (unravel (sx, sy, sz) idx)) as ->.
{ unfold getitem. by rewrite g_shape, Hrav. }
set (p := unravel (sx, sy, sz) idx) in *. clearbody p. subst idx.
rewrite components_visited_get.
destruct (Z.eqb_spec (getitem g p) 1) as [H1|H1].
- rewrite decide_True by done. cbn [foldl andb]. unfold t_scan_step at 2.
destruct (vis !!! grid_key (sx, sy, sz) p : bool);
  cbn [negb]; [by apply IH|].
unfold bfs, t_fill. rewrite components_visited_set.
change [ravel (sx, sy, sz) p] with (ravel (sx, sy, sz) <$> [p]).
rewrite (components_bfs_loop N fuel _ false)
  by (by apply Forall_singleton).
destruct (t_loop _ _ _ _ _ _ _) as [[vis1 hit]|] eqn:Hloop;
  cbn [components_lift].
+ apply t_loop_no_flag in Hloop as ->. by apply IH.
+ rewrite !foldl_none; done.
- rewrite decide_False by done. cbn [andb]. by apply IH.
Qed.
End ComponentsRefine.

Lemma elem_of_solid_cells g p :
  wf_ndarray g → p ∈ solid_cells g ↔ cell g 1 p.
Proof.
  intros (? & ? & ?)%wf_ndarray_shape. unfold solid_cells, cell, range.
  rewrite list_elem_of_filter, list_elem_of_fmap. split.
  - intros [Hp (idx & -> & Hidx%elem_of_seqZ)]. split; [|done].
    by apply unravel_spec; [..|lia].
  - intros [Hin Hp]. split; [done|]. exists (ravel (shape g) p). split.
    + by rewrite unravel_ravel.
    + apply elem_of_seqZ. apply ravel_bounds in Hin. lia.
Qed.

(** The body of [find_connected_components] returns the number of connected
    components of solid voxels. *)
Lemma count_components_correct N (h : heap (list bool)) :
  wf_ndarray (data h) → symmetric_offsets N →
  ∃ n h',
    BaseCountConnectedComponentsOperator.count_components N h = (Return n, h')
    ∧ component_count (data h) N n.
Proof.
  intros Hwf Hsym.
  unfold BaseCountConnectedComponentsOperator.count_components.
  pose proof (wf_ndarray_shape _ Hwf) as (Hx & Hy & Hz).
  pose proof (λ p, elem_of_solid_cells (data h) p Hwf) as Hcells.
  unfold solid_cells in Hcells.
  destruct (shape (data h)) as [[sx sy] sz] eqn:Hsh. simpl in Hx, Hy, Hz.
  set (g := data h) in *.
  change (Heap g (Some (replicate (Z.to_nat (sx * sy * sz)) false)))
    with (components_heap g (replicate (Z.to_nat (size_of (sx, sy, sz))) false)).
  rewrite (components_scan g sx sy sz Hsh); try done.
  - destruct (grid_scan_all g 1 N Hsym (fuel_for (sx * sy * sz))
                (filter (λ p, getitem g p = 1)
                   (unravel (sx, sy, sz) <$> range (size_of (sx, sy, sz)))))
      as (vis & n & Hfold & Hcount).
    { rewrite Hsh. apply fuel_for_enough. }
    { done. }
    rewrite Hsh in Hfold. unfold range, size_of in *. rewrite Hfold.
    cbn [components_lift_scan]. by exists n, (components_heap g vis).
  - apply Forall_forall. intros idx Hidx%elem_of_seqZ. simpl. lia.
Qed.

(** ** The counting operators *)

Lemma symmetric_offsets_decide N :
  bool_decide (Forall (λ d, offset_neg d ∈ N) N) = true → symmetric_offsets N.
Proof.
  intros HF%bool_decide_eq_true d Hd. rewrite Forall_forall in HF. by apply HF.
Qed.

Lemma neighbors_of_symmetric c : symmetric_offsets (neighbors_of c).
Proof.
  unfold neighbors_of.
  repeat case_match; apply symmetric_offsets_decide; by vm_compute.
Qed.

Lemma neighbors_subset_decide (N N' : list index) :
  bool_decide (Forall (λ d, d ∈ N') N) = true → ∀ d, d ∈ N → d ∈ N'.
Proof.
  intros HF%bool_decide_eq_true d Hd. rewrite Forall_forall in HF. by apply HF.
Qed.

Lemma neighbors_6_18 d : d ∈ neighbors_of 6 → d ∈ neighbors_of 18.
Proof. apply neighbors_subset_decide. by vm_compute. Qed.

Lemma neighbors_18_26 d : d ∈ neighbors_of 18 → d ∈ neighbors_of 26.
Proof. apply neighbors_subset_decide. by vm_compute. Qed.

Lemma connected_mono g t (N N' : list index) p q :
  (∀ d, d ∈ N → d ∈ N') → connected g t N p q → connected g t N' p q.
Proof.
  intros Hsub Hc. induction Hc as [|x y z (Hx & Hy & d & Hd & ->) _ IH];
    [apply rtc_refl|].
  eapply rtc_l; [|exact IH]. split_and!; [done..|]. exists d. auto.
Qed.

Lemma outside_neighbor_mono sh (N N' : list index) p :
  (∀ d, d ∈ N → d ∈ N') → outside_neighbor sh N p → outside_neighbor sh N' p.
Proof. intros Hsub (d & Hd & Ho). exists d. auto. Qed.

Lemma enclosed_mono g (N N' : list index) p :
  (∀ d, d ∈ N → d ∈ N') → enclosed g N' p → enclosed g N p.
Proof.
  intros Hsub [Hp Hcl]. split; [done|]. intros q Hq Ho.
  apply (Hcl q); [by eapply connected_mono|by eapply outside_neighbor_mono].
Qed.

Lemma find_connected_components_run c h :
  valid_connectivity c →
  BaseCountConnectedComponentsOperator.find_connected_components c h
  = BaseCountConnectedComponentsOperator.count_components (neighbors_of c) h.
Proof. by intros [-> | [-> | ->]]. Qed.

Lemma find_bubbles_run c h :
  valid_connectivity c →
  BaseCountBubblesOperator.find_bubbles c h
  = BaseCountBubblesOperator.count_bubbles (neighbors_of c) h.
Proof. by intros [-> | [-> | ->]]. Qed.

Lemma component_count_unique g N n m :
  symmetric_offsets N →
  component_count g N n → component_count g N m → n = m.
Proof.
  intros Hsym. apply class_count_unique.
  - intros u v. by apply connected_sym.
  - intros u v w. apply rtc_trans.
Qed.

Lemma bubble_count_unique g N n m :
  symmetric_offsets N → bubble_count g N n → bubble_count g N m → n = m.
Proof.
  intros Hsym. apply class_count_unique.
  - intros u v. by apply connected_sym.
  - intros u v w. apply rtc_trans.
Qed.



(** C4.  For every grid and every adjacency model among 6, 18 and 26 the
    bubble count returns the number of maximal connected sets of empty
    (value 0) voxels none of whose voxels has a neighbour outside the grid
    under that model.  The 3x3x3 block of ones with an empty centre gives 1
    under each model, the 3x3x3 grid of zeros gives 0 under each model. *)
Theorem find_bubbles_correct (c : Z) (h : heap (ndarray bool)) :
  wf_ndarray (data h) → valid_connectivity c →
  (∃ n h',
     BaseCountBubblesOperator.find_bubbles c h = (Return n, h')
     ∧ bubble_count (data h) (neighbors_of c) n
     ∧ (∀ m, bubble_count (data h) (neighbors_of c) m → m = n))
  ∧ (BaseCountBubblesOperator.find_bubbles c (Heap hollow None)).1 = Return 1
  ∧ (BaseCountBubblesOperator.find_bubbles c (Heap (np_zeros (3, 3, 3)) None)).1
    = Return 0.
Proof.
  intros Hwf Hc. split_and!.
  - rewrite find_bubbles_run by done.
    destruct (count_bubbles_correct (neighbors_of c) h Hwf
                (neighbors_of_symmetric c)) as (n & h' & Hrun & Hcount).
    exists n, h'. split_and!; [done|done|].
    intros m Hm. by eapply bubble_count_unique, Hcount;
      [apply neighbors_of_symmetric|].
  - destruct Hc as [-> | [-> | ->]]; by vm_compute.
  - destruct Hc as [-> | [-> | ->]]; by vm_compute.
Qed.

Lemma find_bubbles_correct_witness :
  (∃ n h',
     BaseCountBubblesOperator.find_bubbles 18 (Heap hollow None) = (Return n, h')
     ∧ bubble_count hollow (neighbors_of 18) n
     ∧ (∀ m, bubble_count hollow (neighbors_of 18) m → m = n))
  ∧ (BaseCountBubblesOperator.find_bubbles 18 (Heap hollow None)).1 = Return 1
  ∧ (BaseCountBubblesOperator.find_bubbles 18 (Heap (np_zeros (3, 3, 3)) None)).1
    = Return 0.
Proof.
  apply (find_bubbles_correct 18 (Heap hollow None)).
  - solve_wf.
  - unfold valid_connectivity. lia.
Defined.

Lemma component_count_le g (N N' : list index) n n' :
  symmetric_offsets N → (∀ d, d ∈ N → d ∈ N') →
  component_count g N n → component_count g N' n' → n' ≤ n.
Proof.
  intros Hsym Hsub. apply class_count_le.
  - done.
  - intros u v. by apply connected_mono.
  - intros u v. by apply connected_sym.
  - intros u v w. apply rtc_trans.
Qed.

Lemma bubble_count_le g (N N' : list index) n n' :
  symmetric_offsets N → (∀ d, d ∈ N → d ∈ N') →
  bubble_count g N n → bubble_count g N' n' → n' ≤ n.
Proof.
  intros Hsym Hsub. apply class_count_le.
  - intros p. by apply enclosed_mono.
  - intros u v. by apply connected_mono.
  - intros u v. by apply connected_sym.
  - intros u v w. apply rtc_trans.
Qed.

(** C6.  For every grid the three component counts are returned and ordered
    by adjacency: the count under 6-connectivity is at least the count under
    18-connectivity, which is at least the count under 26-connectivity; the
    same holds of the three bubble counts. *)
Theorem adjacency_monotone (g : ndarray Z)
    (vc : option (list bool)) (vb : option (ndarray bool)) :
  wf_ndarray g →
  ∃ n6 n18 n26 b6 b18 b26,
    (BaseCountConnectedComponentsOperator.find_connected_components 6
       (Heap g vc)).1 = Return n6
    ∧ (BaseCountConnectedComponentsOperator.find_connected_components 18
         (Heap g vc)).1 = Return n18
    ∧ (BaseCountConnectedComponentsOperator.find_connected_components 26
         (Heap g vc)).1 = Return n26
    ∧ n18 ≤ n6 ∧ n26 ≤ n18
    ∧ (BaseCountBubblesOperator.find_bubbles 6 (Heap g vb)).1 = Return b6
    ∧ (BaseCountBubblesOperator.find_bubbles 18 (Heap g vb)).1 = Return b18
    ∧ (BaseCountBubblesOperator.find_bubbles 26 (Heap g vb)).1 = Return b26
    ∧ b18 ≤ b6 ∧ b26 ≤ b18.
Proof.
  intros Hwf.
  destruct (count_components_correct (neighbors_of 6) (Heap g vc) Hwf
              (neighbors_of_symmetric 6)) as (n6 & ? & Hn6 & Hc6).
  destruct (count_components_correct (neighbors_of 18) (Heap g vc) Hwf
              (neighbors_of_symmetric 18)) as (n18 & ? & Hn18 & Hc18).
  destruct (count_components_correct (neighbors_of 26) (Heap g vc) Hwf
              (neighbors_of_symmetric 26)) as (n26 & ? & Hn26 & Hc26).
  destruct (count_bubbles_correct (neighbors_of 6) (Heap g vb) Hwf
              (neighbors_of_symmetric 6)) as (b6 & ? & Hb6 & Hd6).
  destruct (count_bubbles_correct (neighbors_of 18) (Heap g vb) Hwf
              (neighbors_of_symmetric 18)) as (b18 & ? & Hb18 & Hd18).
  destruct (count_bubbles_correct (neighbors_of 26) (Heap g vb) Hwf
              (neighbors_of_symmetric 26)) as (b26 & ? & Hb26 & Hd26).
  exists n6, n18, n26, b6, b18, b26.
  assert (valid_connectivity 6) by (unfold valid_connectivity; lia).
  assert (valid_connectivity 18) by (unfold valid_connectivity; lia).
  assert (valid_connectivity 26) by (unfold valid_connectivity; lia).
  rewrite !find_connected_components_run, !find_bubbles_run by done.
  rewrite Hn6, Hn18, Hn26, Hb6, Hb18, Hb26. cbn [fst data] in *.
  split_and!; try done.
  - eapply (component_count_le g (neighbors_of 6) (neighbors_of 18));
      [apply neighbors_of_symmetric|apply neighbors_6_18|done..].
  - eapply (component_count_le g (neighbors_of 18) (neighbors_of 26));
      [apply neighbors_of_symmetric|apply neighbors_18_26|done..].
  - eapply (bubble_count_le g (neighbors_of 6) (neighbors_of 18));
      [apply neighbors_of_symmetric|apply neighbors_6_18|done..].
  - eapply (bubble_count_le g (neighbors_of 18) (neighbors_of 26));
      [apply neighbors_of_symmetric|apply neighbors_18_26|done..].
Qed.

Lemma adjacency_monotone_witness :
  ∃ n6 n18 n26 b6 b18 b26,
    (BaseCountConnectedComponentsOperator.find_connected_components 6
       (Heap two_corner None)).1 = Return n6
    ∧ (BaseCountConnectedComponentsOperator.find_connected_components 18
         (Heap two_corner None)).1 = Return n18
    ∧ (BaseCountConnectedComponentsOperator.find_connected_components 26
         (Heap two_corner None)).1 = Return n26
    ∧ n18 ≤ n6 ∧ n26 ≤ n18
    ∧ (BaseCountBubblesOperator.find_bubbles 6 (Heap two_corner None)).1
      = Return b6
    ∧ (BaseCountBubblesOperator.find_bubbles 18 (Heap two_corner None)).1
      = Return b18
    ∧ (BaseCountBubblesOperator.find_bubbles 26 (Heap two_corner None)).1
      = Return b26
    ∧ b18 ≤ b6 ∧ b26 ≤ b18.
Proof. apply (adjacency_monotone two_corner None None). solve_wf. Defined.

(** ** Counting faces in the dictionary *)

Section Tally.
Context {A : Type} `{EqDecision A}.
Implicit Types (x y : A) (l : list A) (counts : list (A * Z)).

Lemma occurrences_cons x y l :
occurrences x (y :: l)
= ((if decide (y = x) then 1 else 0) + occurrences x l)%nat.
Proof. unfold occurrences. rewrite filter_cons. by destruct (decide (y = x)). Qed.

Lemma occurrences_app x l l' :
occurrences x (l ++ l') = (occurrences x l + occurrences x l')%nat.
Proof. unfold occurrences. by rewrite filter_app, length_app. Qed.

Lemma occurrences_pos x l : x ∈ l ↔ (0 < occurrences x l)%nat.
Proof.
unfold occurrences. split.
- intros Hx. assert (x ∈ filter (λ y, y = x) l) as Hf
  by (by apply list_elem_of_filter).
destruct (filter _ l); [by apply elem_of_nil in Hf|simpl; lia].
- intros Hpos. destruct (filter (λ y, y = x) l) as [|y l'] eqn:Hf;
  [simpl in Hpos; lia|].
assert (y ∈ filter (λ y, y = x) l) as Hy by (rewrite Hf; by left).
by apply list_elem_of_filter in Hy as [-> ?].
Qed.

Lemma tally_not_key counts x : x ∉ counts.*1 → tally counts x = 0.
Proof.
induction counts as [|[y c] counts IH]; [done|]. simpl.
intros [Hne Hx]%not_elem_of_cons. rewrite decide_False by done.
by rewrite IH.
Qed.

Lemma tally_key counts x c :
NoDup counts.*1 → (x, c) ∈ counts → tally counts x = c.
Proof.
induction counts as [|[y c'] counts IH]; intros Hnd Hx.
- by apply elem_of_nil in Hx.
- simpl in *. apply NoDup_cons in Hnd as [Hy Hnd].
apply elem_of_cons in Hx as [[= <- <-]|Hx].
+ rewrite decide_True by done. rewrite tally_not_key by done. lia.
+ assert (y ≠ x) as Hne.
  { intros ->. apply Hy. apply list_elem_of_fmap. by exists (x, c). }
  rewrite decide_False by done. rewrite IH by done. lia.
Qed.

(** The entries of a list that occur in it exactly once are distinct. *)
Lemma NoDup_filter_once (P : A → Prop) `{∀ x, Decision (P x)} l :
(∀ x, P x → (occurrences x l ≤ 1)%nat) → NoDup (filter P l).
Proof.
induction l as [|y l IH]; intros HP; [constructor|].
rewrite filter_cons. destruct (decide (P y)) as [Hy|Hy].
- apply NoDup_cons. split.
+ intros [_ Hin]%list_elem_of_filter. apply occurrences_pos in Hin.
  specialize (HP y Hy). rewrite occurrences_cons in HP.
  rewrite decide_True in HP by done. lia.
+ apply IH. intros x Hx. specialize (HP x Hx).
  rewrite occurrences_cons in HP. lia.
- apply IH. intros x Hx. specialize (HP x Hx).
rewrite occurrences_cons in HP. lia.
Qed.

Lemma filter_fmap {B} (P : A → Prop) `{∀ x, Decision (P x)} (F : B → A)
(l : list B) :
filter P (F <$> l) = F <$> filter (λ b, P (F b)) l.
Proof.
induction l as [|b l IH]; [done|].
rewrite fmap_cons, !filter_cons, IH. by destruct (decide (P (F b))).
Qed.

(** In a list without repetitions mapped through [F], the image of [a] occurs
once exactly when no other entry has the same image. *)
Lemma occurrences_fmap_once {B} `{EqDecision B} (F : B → A) (l : list B) a :
NoDup l → a ∈ l →
occurrences (F a) (F <$> l) = 1%nat ↔ ∀ b, b ∈ l → F b = F a → b = a.
Proof.
intros Hnd Ha. unfold occurrences.
rewrite (filter_fmap (λ y, y = F a) F l), length_fmap.
pose proof (NoDup_filter (λ b, F b = F a) l Hnd) as Hndf.
assert (a ∈ filter (λ b, F b = F a) l) as Haf
by (by apply list_elem_of_filter).
split.
- intros Hlen b Hb Hbe.
assert (b ∈ filter (λ b, F b = F a) l) as Hbf
  by (by apply list_elem_of_filter).
destruct (filter (λ b, F b = F a) l) as [|c [|c' l']]; simpl in Hlen;
  [lia| |lia].
apply list_elem_of_singleton in Haf, Hbf. congruence.
- intros Huniq.
destruct (filter (λ b, F b = F a) l) as [|c [|c' l']] eqn:Hf.
+ by apply elem_of_nil in Haf.
+ done.
+ exfalso. apply NoDup_cons in Hndf as [Hc _]. apply Hc.
  assert (c ∈ filter (λ b, F b = F a) l) as Hc1 by (rewrite Hf; by left).
  assert (c' ∈ filter (λ b, F b = F a) l) as Hc2
    by (rewrite Hf; right; by left).
  apply list_elem_of_filter in Hc1 as [? ?], Hc2 as [? ?].
  rewrite (Huniq c), (Huniq c') by done. by left.
Qed.
End Tally.

Section FaceCount.
Import ProcessVoxelDataOperator.
Implicit Types (fc : list (face * Z)) (f x : face) (L : list face).

Lemma tally_count_face fc f x :
tally (count_face fc f) x = tally fc x + (if decide (f = x) then 1 else 0).
Proof.
induction fc as [|[g c] fc IH]; simpl.
- lia.
- destruct (decide (g = f)) as [->|Hne]; simpl.
+ destruct (decide (f = x)); lia.
+ rewrite IH. lia.
Qed.

Lemma keys_count_face fc f :
(count_face fc f).*1 = if decide (f ∈ fc.*1) then fc.*1 else fc.*1 ++ [f].
Proof.
induction fc as [|[g c] fc IH]; [done|].
cbn [count_face]. rewrite (fmap_cons fst (g, c)). cbn [fst].
destruct (decide (g = f)) as [->|Hne].
- rewrite fmap_cons. cbn [fst]. rewrite decide_True; [done|]. by left.
- rewrite fmap_cons, IH. cbn [fst]. destruct (decide (f ∈ fc.*1)).
+ rewrite decide_True; [done|]. by right.
+ rewrite decide_False; [done|].
  intros [?|?]%elem_of_cons; congruence.
Qed.

Lemma NoDup_count_face fc f : NoDup fc.*1 → NoDup (count_face fc f).*1.
Proof.
intros Hnd. rewrite keys_count_face. destruct (decide (f ∈ fc.*1)); [done|].
apply NoDup_app. split_and!; [done| |apply NoDup_singleton].
intros x Hx ->%list_elem_of_singleton. done.
Qed.

Lemma positive_count_face fc f :
Forall (λ e, 1 ≤ e.2) fc → Forall (λ e, 1 ≤ e.2) (count_face fc f).
Proof.
induction fc as [|[g c] fc IH]; intros Hpos; simpl.
- by apply Forall_singleton.
- apply Forall_cons in Hpos as [Hc Hpos]. simpl in Hc.
destruct (decide (g = f)); apply Forall_cons; simpl; split;
  first [lia | done | by apply IH].
Qed.

Lemma foldl_count_face L : ∀ fc,
NoDup fc.*1 → Forall (λ e, 1 ≤ e.2) fc →
NoDup (foldl count_face fc L).*1
∧ Forall (λ e, 1 ≤ e.2) (foldl count_face fc L)
∧ ∀ x, tally (foldl count_face fc L) x
     = tally fc x + Z.of_nat (occurrences x L).
Proof.
induction L as [|f L IH]; intros fc Hnd Hpos.
- split_and!; [done..|]. intros x. unfold occurrences. simpl. lia.
- destruct (IH (count_face fc f)) as (H1 & H2 & H3);
  [by apply NoDup_count_face|by apply positive_count_face|].
split_and!; [done..|]. intros x. cbn [foldl].
rewrite H3, tally_count_face, occurrences_cons.
destruct (decide (f = x)); lia.
Qed.

Lemma elem_of_faces_list fc f :
NoDup fc.*1 → Forall (λ e, 1 ≤ e.2) fc →
f ∈ faces_list fc ↔ tally fc f = 1.
Proof.
intros Hnd Hpos. unfold faces_list. rewrite list_elem_of_fmap. split.
- intros ([g c] & -> & [Hc Hin]%list_elem_of_filter). simpl in *. subst c.
by apply tally_key.
- intros Ht. destruct (decide (f ∈ fc.*1)) as [Hin|Hin].
+ apply list_elem_of_fmap in Hin as ([g c] & -> & Hin). simpl in *.
  exists (g, c). split; [done|]. apply list_elem_of_filter.
  split; [|done]. simpl. by rewrite (tally_key _ _ _ Hnd Hin) in Ht.
+ rewrite tally_not_key in Ht by done. lia.
Qed.

Lemma NoDup_faces_list fc : NoDup fc.*1 → NoDup (faces_list fc).
Proof.
intros Hnd. unfold faces_list. eapply sublist_NoDup; [exact Hnd|].
apply fmap_sublist, sublist_filter.
Qed.

(** The faces kept are the faces that were counted exactly once. *)
Lemma faces_list_once L :
faces_list (foldl count_face [] L)
≡ₚ filter (λ f, occurrences f L = 1%nat) L.
Proof.
destruct (foldl_count_face L []) as (Hnd & Hpos & Ht);
[constructor|constructor|].
apply NoDup_Permutation.
- by apply NoDup_faces_list.
- apply NoDup_filter_once. intros x Hx. lia.
- intros f. rewrite elem_of_faces_list by done.
rewrite Ht, list_elem_of_filter. simpl. split.
+ intros Hocc. split; [lia|]. apply occurrences_pos. lia.
+ intros [Hocc _]. lia.
Qed.
End FaceCount.

(** ** Building the mesh *)

Lemma foldl_bind {A B C} (f : A → B → A) (g : C → list B) (l : list C) a :
  foldl f a (l ≫= g) = foldl (λ a x, foldl f a (g x)) a l.
Proof.
  revert a. induction l as [|x l IH]; intros a; [done|].
  rewrite bind_cons, foldl_app. apply IH.
Qed.

Lemma foldl_ext {A B} (f g : A → B → A) (l : list B) a :
  (∀ a x, f a x = g a x) → foldl f a l = foldl g a l.
Proof.
  intros Hfg. revert a. induction l as [|x l IH]; intros a; [done|].
  cbn [foldl]. by rewrite Hfg, IH.
Qed.

Lemma foldl_filter {A B} (f : A → B → A) (P : B → Prop)
    `{∀ x, Decision (P x)} (l : list B) a :
  foldl (λ a x, if decide (P x) then f a x else a) a l
  = foldl f a (filter P l).
Proof.
  revert a. induction l as [|x l IH]; intros a; [done|].
  rewrite filter_cons. cbn [foldl]. destruct (decide (P x)); apply IH.
Qed.

Lemma filter_ext_in {A} (P Q : A → Prop) `{∀ x, Decision (P x)}
    `{∀ x, Decision (Q x)} (l : list A) :
  (∀ x, x ∈ l → (P x ↔ Q x)) → filter P l = filter Q l.
Proof.
  induction l as [|x l IH]; intros Hext; [done|].
  rewrite !filter_cons.
  rewrite IH by (intros y Hy; apply Hext; by right).
  destruct (decide (P x)) as [HP|HP], (decide (Q x)) as [HQ|HQ]; try done;
    exfalso; apply (Hext x (list_elem_of_here _ _)) in HP || apply HP;
    try done; by apply (Hext x (list_elem_of_here _ _)).
Qed.

Section Build.
Import ProcessVoxelDataOperator.

Lemma consistent_empty : consistent empty_builder.
Proof. intros v i. simpl. by rewrite lookup_empty, lookup_nil. Qed.

Lemma assign_vertex_spec b vis v :
consistent b →
∃ b' i,
assign_vertex (b, vis) v = (b', vis ++ [i])
∧ consistent b'
∧ vertex_map b ⊆ vertex_map b'
∧ face_count b' = face_count b
∧ vertex_map b' !! v = Some i.
Proof.
intros Hc. unfold assign_vertex.
destruct (vertex_map b !! v) as [i|] eqn:Hv.
- exists b, i. rewrite (lookup_total_correct _ _ _ Hv). done.
- set (b' := Builder (vertices b ++ [v])
             (<[v := length (vertices b)]> (vertex_map b)) (face_count b)).
exists b', (length (vertices b)).
assert (vertex_map b' !! v = Some (length (vertices b))) as Hv'
  by apply lookup_insert_eq.
rewrite (lookup_total_correct _ _ _ Hv'). split_and!; try done.
+ intros w i. simpl. rewrite lookup_insert_Some, lookup_snoc_Some.
  rewrite (Hc w i). split.
  * intros [[<- <-]|[Hne Hw]]; [by right|left].
    split; [|done]. by eapply lookup_lt_Some.
  * intros [[Hlt Hw]|[-> ->]]; [right|by left].
    split; [|done]. intros <-. apply Hc in Hw. congruence.
+ by apply insert_subseteq.
Qed.

Lemma assign_vertices_spec l : ∀ b vis,
consistent b →
∃ b',
foldl assign_vertex (b, vis) l = (b', vis ++ (numbering b' <$> l))
∧ consistent b'
∧ vertex_map b ⊆ vertex_map b'
∧ face_count b' = face_count b
∧ ∀ v, v ∈ l → is_Some (vertex_map b' !! v).
Proof.
induction l as [|v l IH]; intros b vis Hc.
- exists b. rewrite app_nil_r. split_and!; try done.
intros v Hv. by apply elem_of_nil in Hv.
- destruct (assign_vertex_spec b vis v Hc) as (b1 & i & H1 & Hc1 & Hs1 & Hf1 & Hv1).
destruct (IH b1 (vis ++ [i]) Hc1) as (b' & H2 & Hc2 & Hs2 & Hf2 & Hv2).
exists b'. cbn [foldl]. rewrite H1, H2. split_and!.
+ assert (numbering b' v = i) as Hi.
  { unfold numbering. apply lookup_total_correct. by eapply lookup_weaken. }
  by rewrite <- app_assoc, fmap_cons, Hi.
+ done.
+ by etrans.
+ congruence.
+ intros w [->|Hw]%elem_of_cons; [|by apply Hv2].
  exists i. by eapply lookup_weaken.
Qed.

Lemma voxel_faces_ext (vi vi' : vertex → nat) p :
(∀ v, v ∈ cube_vertices p → vi v = vi' v) →
voxel_faces vi p = voxel_faces vi' p.
Proof.
intros Hext. unfold voxel_faces. f_equal.
apply list_fmap_ext. intros i v Hv. apply Hext.
by eapply list_elem_of_lookup_2.
Qed.

Lemma numbering_weaken b b' v :
vertex_map b ⊆ vertex_map b' → is_Some (vertex_map b !! v) →
numbering b v = numbering b' v.
Proof.
intros Hsub [i Hi]. unfold numbering.
rewrite (lookup_total_correct _ _ _ Hi).
symmetry. apply lookup_total_correct. by eapply lookup_weaken.
Qed.

(** One surface voxel: its eight corners are numbered and its six faces
counted. *)
Lemma process_voxel_spec surface b p :
getitem surface p = true → consistent b →
let b' := process_voxel surface b p in
consistent b'
∧ vertex_map b ⊆ vertex_map b'
∧ (∀ v, v ∈ cube_vertices p → is_Some (vertex_map b' !! v))
∧ face_count b'
= foldl count_face (face_count b) (voxel_faces (numbering b') p).
Proof.
intros Hs Hc. unfold process_voxel. rewrite Hs.
destruct (assign_vertices_spec (cube_vertices p) b [] Hc)
as (b1 & H1 & Hc1 & Hs1 & Hf1 & Hv1).
destruct p as [[i j] k]. rewrite H1. cbn zeta. cbn [app].
split_and!; try done.
rewrite Hf1. done.
Qed.

Lemma process_voxel_skip surface b p :
getitem surface p ≠ true → process_voxel surface b p = b.
Proof. intros Hs. unfold process_voxel. by destruct (getitem surface p). Qed.

(** A run over surface voxels: the faces counted are the faces of the
voxels under the final numbering. *)
Lemma process_voxels_spec surface l : ∀ b,
(∀ p, p ∈ l → getitem surface p = true) → consistent b →
let b' := foldl (process_voxel surface) b l in
consistent b'
∧ vertex_map b ⊆ vertex_map b'
∧ (∀ p v, p ∈ l → v ∈ cube_vertices p → is_Some (vertex_map b' !! v))
∧ face_count b'
= foldl count_face (face_count b) (l ≫= voxel_faces (numbering b')).
Proof.
induction l as [|p l IH]; intros b Hl Hc.
- cbn. split_and!; try done. intros p v Hp. by apply elem_of_nil in Hp.
- destruct (process_voxel_spec surface b p) as (Hc1 & Hs1 & Hv1 & Hf1);
  [apply Hl; by left|done|].
destruct (IH (process_voxel surface b p)) as (Hc2 & Hs2 & Hv2 & Hf2);
  [intros q Hq; apply Hl; by right|done|].
cbn [foldl]. cbv zeta. split_and!.
+ done.
+ by etrans.
+ intros q v [->|Hq]%elem_of_cons Hv; [|by eapply Hv2].
  eapply lookup_weaken_is_Some; [by apply Hv1|done].
+ rewrite Hf2, Hf1, bind_cons, foldl_app. do 2 f_equal.
  apply voxel_faces_ext. intros v Hv.
  apply numbering_weaken; [done|by apply Hv1].
Qed.

(** The three nested loops visit the indices of the mask in C order and
process the true ones. *)
Lemma build_eq surface :
build surface
= foldl (process_voxel surface) empty_builder
  (filter (λ p, getitem surface p = true) (grid_indices (shape surface))).
Proof.
rewrite <- (foldl_filter (process_voxel surface)).
rewrite (foldl_ext _ (process_voxel surface)).
2:{ intros b p. destruct (decide _); [done|].
  symmetry. by apply process_voxel_skip. }
unfold build, grid_indices, tabulate, range.
destruct (shape surface) as [[s0 s1] s2]. cbn [flat].
rewrite foldl_bind. apply foldl_ext. intros b i.
rewrite foldl_bind. apply foldl_ext. intros b' j.
by rewrite foldl_fmap.
Qed.
End Build.

(** ** The geometry of the face table *)

Lemma is_clockwise_spec p :
  is_clockwise p = true ↔ ∃ q, p.1.1 + p.1.2 + p.2 = 2 * q.
Proof.
  destruct p as [[i j] k]. unfold is_clockwise. simpl. rewrite Z.eqb_eq.
  pose proof (Z.div_mod (i + j + k) 2 ltac:(lia)) as Hdm. split.
  - intros Hm. exists ((i + j + k) `div` 2). lia.
  - intros [q Hq]. rewrite Hq, Z.mul_comm. apply Z.mod_mul. lia.
Qed.

Lemma is_clockwise_false p :
  is_clockwise p = false ↔ ∃ q, p.1.1 + p.1.2 + p.2 = 2 * q + 1.
Proof.
  destruct p as [[i j] k]. unfold is_clockwise. simpl. rewrite Z.eqb_neq.
  pose proof (Z.div_mod (i + j + k) 2 ltac:(lia)) as Hdm.
  pose proof (Z.mod_pos_bound (i + j + k) 2 ltac:(lia)) as Hb. split.
  - intros Hm. exists ((i + j + k) `div` 2). lia.
  - intros [q Hq] Hm. rewrite Hm in Hdm. lia.
Qed.

Ltac six n :=
  destruct n as [|[|[|[|[|[|n]]]]]]; [| | | | | |exfalso; simpl in *; lia].

(** Two faces with the same corner quadruple are the same face of the same
    voxel, or the two copies of a face shared along the first or second
    axis. *)
Lemma corner_face_eq p p' n n' :
  (n < 6)%nat → (n' < 6)%nat →
  corner_face p n = corner_face p' n' →
  (p = p' ∧ n = n')
  ∨ (p' = offset_add p (face_dir n) ∧ n' = opposite n ∧ lateral (face_dir n)).
Proof.
  intros Hn Hn'. unfold corner_face, corner_faces.
  destruct (is_clockwise p) eqn:Hp, (is_clockwise p') eqn:Hp';
    first [apply is_clockwise_spec in Hp as [a Hp]
          | apply is_clockwise_false in Hp as [a Hp]];
    first [apply is_clockwise_spec in Hp' as [a' Hp']
          | apply is_clockwise_false in Hp' as [a' Hp']];
    destruct p as [[i j] k], p' as [[i' j'] k']; simpl in Hp, Hp';
    six n; six n';
    unfold ProcessVoxelDataOperator.cube_faces,
      ProcessVoxelDataOperator.cube_vertices,
      ProcessVoxelDataOperator.cube_size;
    cbn; intros [=];
    first [ exfalso; lia
          | left; split; [repeat f_equal; lia | reflexivity]
          | right; split; [repeat f_equal; lia | split; reflexivity] ].
Qed.

Lemma is_clockwise_step p n :
  (n < 6)%nat →
  is_clockwise (offset_add p (face_dir n)) = negb (is_clockwise p).
Proof.
  intros Hn. destruct (is_clockwise p) eqn:Hp; simpl.
  - apply is_clockwise_spec in Hp as [a Hp]. apply is_clockwise_false.
    destruct p as [[i j] k]. simpl in Hp.
    six n; cbn; first [exists a; lia | exists (a - 1); lia].
  - apply is_clockwise_false in Hp as [a Hp]. apply is_clockwise_spec.
    destruct p as [[i j] k]. simpl in Hp.
    six n; cbn; first [exists a; lia | exists (a + 1); lia].
Qed.

(** The two copies of a face shared along the first or second axis are the
    same quadruple of corners. *)
Lemma corner_face_shared p n :
  (2 ≤ n < 6)%nat →
  corner_face p n = corner_face (offset_add p (face_dir n)) (opposite n).
Proof.
  intros Hn. unfold corner_face, corner_faces.
  rewrite is_clockwise_step by lia.
  destruct (is_clockwise p), p as [[i j] k]; six n; try (exfalso; lia);
    cbn; unfold ProcessVoxelDataOperator.cube_size; repeat f_equal; lia.
Qed.

Lemma voxel_faces_corner vi p :
  voxel_faces vi p = quad_map vi <$> corner_faces p.
Proof.
  unfold voxel_faces, corner_faces.
  by destruct (is_clockwise p), p as [[i j] k].
Qed.

Lemma voxel_faces_slots vi p :
  voxel_faces vi p = slot_face vi <$> (pair p <$> seq 0 6).
Proof.
  rewrite voxel_faces_corner. unfold slot_face, corner_face, corner_faces.
  destruct p as [[i j] k]. cbn [fmap list_fmap seq fst snd].
  by destruct (is_clockwise (i, j, k)).
Qed.

Lemma bind_voxel_faces vi cells :
  cells ≫= voxel_faces vi = slot_face vi <$> face_slots cells.
Proof.
  unfold face_slots. induction cells as [|p cells IH]; [done|].
  by rewrite !bind_cons, fmap_app, IH, voxel_faces_slots.
Qed.

Lemma elem_of_face_slots cells p n :
  (p, n) ∈ face_slots cells ↔ p ∈ cells ∧ (n < 6)%nat.
Proof.
  unfold face_slots. rewrite list_elem_of_bind. split.
  - intros (q & Hpn & Hq). apply list_elem_of_fmap in Hpn as (m & [= -> ->] & Hm).
    apply elem_of_seq in Hm. split; [done|lia].
  - intros [Hp Hn]. exists p. split; [|done]. apply list_elem_of_fmap.
    exists n. split; [done|]. apply elem_of_seq. lia.
Qed.

Lemma NoDup_face_slots cells : NoDup cells → NoDup (face_slots cells).
Proof.
  intros Hnd. unfold face_slots. apply NoDup_bind; [| |done].
  - intros p q [r n] _ _ (m & [= -> ->] & _)%list_elem_of_fmap
      (m' & [= -> _] & _)%list_elem_of_fmap. done.
  - intros p _. apply NoDup_fmap_2; [|apply NoDup_seq].
    by intros m m' [=].
Qed.

Lemma corner_face_corners p n :
  (n < 6)%nat →
  let '(a, b, c, d) := corner_face p n in
  a ∈ ProcessVoxelDataOperator.cube_vertices p
  ∧ b ∈ ProcessVoxelDataOperator.cube_vertices p
  ∧ c ∈ ProcessVoxelDataOperator.cube_vertices p
  ∧ d ∈ ProcessVoxelDataOperator.cube_vertices p.
Proof.
  intros Hn. unfold corner_face, corner_faces.
  destruct (is_clockwise p), p as [[i j] k]; six n; cbn;
    rewrite !elem_of_cons; tauto.
Qed.

(** Under a numbering that is injective on the corners involved, two slots
    hold the same face only if they hold the same corner quadruple. *)
Lemma slot_face_inj (vi : vertex → nat) (D : vertex → Prop) p n p' n' :
  (∀ v w, D v → D w → vi v = vi w → v = w) →
  (∀ v, v ∈ ProcessVoxelDataOperator.cube_vertices p → D v) →
  (∀ v, v ∈ ProcessVoxelDataOperator.cube_vertices p' → D v) →
  (n < 6)%nat → (n' < 6)%nat →
  slot_face vi (p, n) = slot_face vi (p', n') →
  corner_face p n = corner_face p' n'.
Proof.
  intros Hinj Hp Hp' Hn Hn'. unfold slot_face. simpl.
  pose proof (corner_face_corners p n Hn) as H1.
  pose proof (corner_face_corners p' n' Hn') as H2.
  destruct (corner_face p n) as [[[a b] c] d].
  destruct (corner_face p' n') as [[[a' b'] c'] d']. simpl.
  destruct H1 as (? & ? & ? & ?), H2 as (? & ? & ? & ?).
  intros [= Ha Hb Hc Hd].
  apply Hinj in Ha, Hb, Hc, Hd; auto. by subst.
Qed.

Lemma NoDup_grid_indices sh : NoDup (grid_indices sh).
Proof.
  unfold grid_indices, tabulate. destruct sh as [[s0 s1] s2]. cbn [flat].
  apply NoDup_bind; [| |apply NoDup_seqZ].
  - intros i i' p _ _ (j & Hp & _)%list_elem_of_bind
      (j' & Hp' & _)%list_elem_of_bind.
    apply list_elem_of_fmap in Hp as (k & -> & _).
    apply list_elem_of_fmap in Hp' as (k' & [= -> _ _] & _). done.
  - intros i _. apply NoDup_bind; [| |apply NoDup_seqZ].
    + intros j j' p _ _ (k & -> & _)%list_elem_of_fmap
        (k' & [= -> _] & _)%list_elem_of_fmap. done.
    + intros j _. apply NoDup_fmap_2; [|apply NoDup_seqZ].
      by intros k k' [=].
Qed.

Lemma face_dirs_offsets : face_dirs ≡ₚ face_offsets.
Proof.
  apply NoDup_Permutation.
  - apply (bool_decide_unpack (NoDup face_dirs)). by vm_compute.
  - apply (bool_decide_unpack (NoDup face_offsets)). by vm_compute.
  - intros d. unfold face_dirs, face_offsets.
    rewrite !elem_of_cons, !elem_of_nil. tauto.
Qed.

Lemma length_filter_slots (Q : index * nat → Prop) `{∀ s, Decision (Q s)} cells :
  length (filter Q (face_slots cells))
  = sum_list ((λ p, length (filter (λ n, Q (p, n)) (seq 0 6))) <$> cells).
Proof.
  unfold face_slots. induction cells as [|p cells IH]; [done|].
  rewrite bind_cons, filter_app, length_app, IH, fmap_cons.
  cbn [sum_list sum_list_with]. f_equal.
  by rewrite filter_fmap, length_fmap.
Qed.

Lemma open_directions_slots (occ : index → bool) p :
  length (filter (λ n, occ (offset_add p (face_dir n)) = false) (seq 0 6))
  = open_directions occ p.
Proof.
  unfold open_directions. rewrite <- face_dirs_offsets.
  change face_dirs with (face_dir <$> seq 0 6).
  by rewrite filter_fmap, length_fmap.
Qed.

(** ** The faces the shared-vertex path retains *)

Section Extraction.
Import ProcessVoxelDataOperator.
Variable g : ndarray Z.
Hypothesis g_wf : wf_ndarray g.
Hypothesis g_binary : binary g.

Lemma elem_of_surface_cells p : p ∈ surface_cells g ↔ surface_at g p = true.
Proof.
pose proof (wf_ndarray_shape _ g_wf) as (? & ? & ?).
unfold surface_cells, surface_at, grid_indices.
rewrite list_elem_of_filter, elem_of_indices, andb_true_iff by done. tauto.
Qed.

Lemma NoDup_surface_cells : NoDup (surface_cells g).
Proof. apply NoDup_filter, NoDup_grid_indices. Qed.

Lemma surface_mask_cells :
filter (λ p, getitem (surface_voxels g) p = true)
     (grid_indices (shape (surface_voxels g)))
= surface_cells g.
Proof.
pose proof (wf_ndarray_shape _ g_wf) as (? & ? & ?).
pose proof (shape_eta (shape g)) as Hsh.
rewrite (shape_surface_voxels g _ _ _ Hsh), <- Hsh.
unfold surface_cells. apply filter_ext_in. intros p Hp.
apply elem_of_indices in Hp; [|done..]. rewrite Hsh in Hp.
by rewrite (getitem_surface_voxels g _ _ _ g_wf Hsh p g_binary Hp).
Qed.

Lemma build_facts :
consistent (build (surface_voxels g))
∧ (∀ p v, p ∈ surface_cells g → v ∈ cube_vertices p →
   is_Some (vertex_map (build (surface_voxels g)) !! v))
∧ face_count (build (surface_voxels g)) = foldl count_face [] (raw_faces g).
Proof.
unfold raw_faces, final_numbering.
rewrite build_eq, surface_mask_cells.
destruct (process_voxels_spec (surface_voxels g) (surface_cells g)
          empty_builder) as (Hc & _ & Hv & Hf).
- intros p Hp. rewrite <- surface_mask_cells in Hp.
by apply list_elem_of_filter in Hp as [? _].
- apply consistent_empty.
- split_and!; [done|done|]. rewrite Hf. by rewrite bind_voxel_faces.
Qed.

Lemma final_numbering_inj v w :
is_Some (vertex_map (build (surface_voxels g)) !! v) →
is_Some (vertex_map (build (surface_voxels g)) !! w) →
(final_numbering g) v = (final_numbering g) w → v = w.
Proof.
destruct build_facts as (Hc & _ & _).
intros [i Hi] [j Hj]. unfold final_numbering, numbering.
rewrite (lookup_total_correct _ _ _ Hi), (lookup_total_correct _ _ _ Hj).
intros ->. apply Hc in Hi, Hj. congruence.
Qed.

Lemma slot_face_eq p n p' n' :
(p, n) ∈ face_slots (surface_cells g) →
(p', n') ∈ face_slots (surface_cells g) →
slot_face (final_numbering g) (p, n) = slot_face (final_numbering g) (p', n')
↔ corner_face p n = corner_face p' n'.
Proof.
intros [Hp Hn]%elem_of_face_slots [Hp' Hn']%elem_of_face_slots.
destruct build_facts as (_ & Hv & _). split.
- apply (slot_face_inj (final_numbering g)
         (λ v, is_Some (vertex_map (build (surface_voxels g)) !! v)));
  [apply final_numbering_inj|intros v ?; by apply (Hv p)
  |intros v ?; by apply (Hv p')|done..].
- unfold slot_face. simpl. by intros ->.
Qed.

Lemma execute_faces :
(execute g).2 ≡ₚ filter (λ f, occurrences f (raw_faces g) = 1%nat) (raw_faces g).
Proof.
destruct build_facts as (_ & _ & Hf).
unfold execute. cbn [snd]. rewrite Hf. apply faces_list_once.
Qed.

Lemma face_dir_nonzero p n : (n < 6)%nat → offset_add p (face_dir n) ≠ p.
Proof.
intros Hn. destruct p as [[i j] k]. six n; cbn; intros [=]; lia.
Qed.

(** A face whose neighbour is no surface voxel is counted once. *)
Lemma slot_once_open p n :
(p, n) ∈ face_slots (surface_cells g) →
surface_at g (offset_add p (face_dir n)) = false →
occurrences (slot_face (final_numbering g) (p, n)) (raw_faces g) = 1%nat.
Proof.
intros Hs Hopen. unfold raw_faces.
apply occurrences_fmap_once;
[apply NoDup_face_slots, NoDup_surface_cells|done|].
intros [p' n'] Hs' Heq. apply slot_face_eq in Heq; [|done..].
pose proof Hs as [_ Hn]%elem_of_face_slots.
pose proof Hs' as [Hp' Hn']%elem_of_face_slots.
symmetry in Heq. apply corner_face_eq in Heq as [[-> ->]|(-> & _ & _)];
[done| |done..].
apply elem_of_surface_cells in Hp'. congruence.
Qed.

(** A face shared along the first or second axis with another surface voxel
is counted more than once. *)
Lemma slot_shared_lateral p n :
(p, n) ∈ face_slots (surface_cells g) →
(2 ≤ n)%nat →
surface_at g (offset_add p (face_dir n)) = true →
occurrences (slot_face (final_numbering g) (p, n)) (raw_faces g) ≠ 1%nat.
Proof.
intros Hs Hlat Hocc Hone. unfold raw_faces in Hone.
pose proof Hs as [Hp Hn]%elem_of_face_slots.
assert ((offset_add p (face_dir n), opposite n)
        ∈ face_slots (surface_cells g)) as Hs'.
{ apply elem_of_face_slots. split; [by apply elem_of_surface_cells|].
revert Hn Hlat. clear. intros. six n; simpl; lia. }
pose proof (proj1 (occurrences_fmap_once (slot_face (final_numbering g))
                   (face_slots (surface_cells g)) (p, n)
                   (NoDup_face_slots _ NoDup_surface_cells) Hs) Hone)
as Huniq. clear Hone. rename Huniq into Hone.
specialize (Hone _ Hs'). apply (face_dir_nonzero p n Hn).
assert ((offset_add p (face_dir n), opposite n) = (p, n)) as [= ? ?];
[|done].
apply Hone. apply slot_face_eq; [done..|].
symmetry. apply corner_face_shared. lia.
Qed.

(** Without surface voxels adjacent along the third axis, the faces kept are
the faces whose neighbour is no surface voxel. *)
Lemma execute_face_count :
(∀ p, surface_at g p = true →
    surface_at g (offset_add p (0, 0, 1)) = false) →
length (execute g).2 = exposed_faces (surface_at g) (surface_cells g).
Proof.
intros Hflat. rewrite execute_faces.
assert (∀ (P : face → Prop) (HP : ∀ x, Decision (P x)),
        length (filter P (raw_faces g))
        = length (filter (λ s, P (slot_face (final_numbering g) s))
                    (face_slots (surface_cells g)))) as Hlen.
{ intros P HP. unfold raw_faces. by rewrite filter_fmap, length_fmap. }
rewrite Hlen.
rewrite (filter_ext_in _
(λ s, surface_at g (offset_add s.1 (face_dir s.2)) = false)).
- rewrite (length_filter_slots
  (λ s, surface_at g (offset_add s.1 (face_dir s.2)) = false)).
unfold exposed_faces. f_equal. apply list_fmap_ext. intros _ p _.
simpl. apply open_directions_slots.
- intros [p n] Hs. simpl. split.
+ intros Hone.
  destruct (surface_at g (offset_add p (face_dir n))) eqn:Hocc; [|done].
  exfalso. pose proof Hs as [Hp Hn]%elem_of_face_slots.
  apply elem_of_surface_cells in Hp.
  destruct (decide (2 ≤ n)%nat) as [Hlat|Hvert].
  * by apply (slot_shared_lateral p n Hs Hlat Hocc).
  * destruct p as [[i j] k].
    destruct n as [|[|n]]; [| |lia]; cbn in Hocc.
    -- specialize (Hflat _ Hocc). cbn in Hflat.
       replace (i + 0 + 0, j + 0 + 0, k + -1 + 1) with (i, j, k) in Hflat
         by (repeat f_equal; lia).
       congruence.
    -- specialize (Hflat _ Hp). cbn in Hflat. congruence.
+ intros Hopen. by apply slot_once_open.
Qed.
End Extraction.

Lemma face_dir_opposite n :
  (n < 6)%nat → face_dir (opposite n) = offset_neg (face_dir n).
Proof. intros Hn. by six n. Qed.

Lemma elem_of_face_dirs d :
  d ∈ face_dirs ↔ ∃ n, (n < 6)%nat ∧ d = face_dir n.
Proof.
  change face_dirs with (face_dir <$> seq 0 6).
  rewrite list_elem_of_fmap. split.
  - intros (n & -> & Hn%elem_of_seq). exists n. split; [lia|done].
  - intros (n & Hn & ->). exists n. split; [done|]. apply elem_of_seq. lia.
Qed.

Lemma lateral_face_dir n : (n < 6)%nat → lateral (face_dir n) → (2 ≤ n)%nat.
Proof. intros Hn. unfold lateral. six n; cbn; lia. Qed.

Lemma voxel_face_slot vi p n :
  (n < 6)%nat → voxel_face vi p (face_dir n) = Some (slot_face vi (p, n)).
Proof.
  intros Hn. unfold voxel_face. rewrite voxel_faces_slots.
  six n; reflexivity.
Qed.

(** In the slab of four voxels no two surface voxels are stacked along the
    third axis, and all four voxels are surface voxels. *)
Lemma slab_unstacked p :
  surface_at (ones (2, 2, 1)) p = true →
  surface_at (ones (2, 2, 1)) (offset_add p (0, 0, 1)) = false.
Proof.
intros Hp.
assert (wf_ndarray (ones (2, 2, 1))) as Hwf by solve_wf.
pose proof (proj2 (elem_of_surface_cells (ones (2, 2, 1)) Hwf p) Hp) as Hin.
assert (forallb (λ q, negb (surface_at (ones (2, 2, 1))
                              (offset_add q (0, 0, 1))))
          (surface_cells (ones (2, 2, 1))) = true) as Hall by (by vm_compute).
rewrite forallb_forall in Hall.
apply negb_true_iff, Hall. by apply list_elem_of_In.
Qed.

Lemma slab_faces :
  surface_at (ones (2, 2, 1)) (0, 0, 0) = true
  ∧ surface_at (ones (2, 2, 1)) (1, 0, 0) = true
  ∧ surface_at (ones (2, 2, 1)) (0, 1, 0) = true
  ∧ exposed_faces (surface_at (ones (2, 2, 1))) (surface_cells (ones (2, 2, 1)))
    = 16%nat
  ∧ length (surface_cells (ones (2, 2, 1))) = 4%nat.
Proof. split_and!; by vm_compute. Qed.

(** The claim C1 as stated fails on the code.  On the cross every arm keeps
    the face it shares with the solid centre, which is no surface voxel and
    emits nothing: 36 faces are retained where the sum over surface voxels
    of the directions without a solid neighbour is 30.  On the bar the two
    copies of the face shared along the third axis are different tuples, so
    both are retained: 12 faces where the sum is 10. *)
Lemma retained_faces_counterexample :
  (length (ProcessVoxelDataOperator.execute cross).2 = 36%nat
   ∧ exposed_faces (solid_at cross) (surface_cells cross) = 30%nat
   ∧ length (ProcessVoxelDataOperator.execute cross).2
     ≠ exposed_faces (solid_at cross) (surface_cells cross))
  ∧ (surface_at bar (0, 0, 0) = true ∧ surface_at bar (0, 0, 1) = true
     ∧ voxel_face (final_numbering bar) (0, 0, 0) (0, 0, 1)
       ≠ voxel_face (final_numbering bar) (0, 0, 1) (0, 0, -1)
     ∧ length (ProcessVoxelDataOperator.execute bar).2 = 12%nat
     ∧ exposed_faces (solid_at bar) (surface_cells bar) = 10%nat
     ∧ length (ProcessVoxelDataOperator.execute bar).2
       ≠ exposed_faces (solid_at bar) (surface_cells bar)).
Proof. split_and!; by vm_compute. Qed.

(** C1 (amended).  Let [g] be the array the loops of the shared-vertex
    path run over, with cells 0 or 1 (in the operator it is the loaded grid
    after the quarter turn, so the axes meant are those of the turned
    array: its first axis is the depth axis of the file, its second the
    width axis reversed, its third the height axis).  For every pair of
    surface voxels of [g] adjacent along the first or the second axis of
    [g], the two per-voxel copies of the shared face are the same tuple of
    vertex numbers, and that face is not retained; and if no two surface
    voxels of [g] are adjacent along the third axis of [g], the number of
    retained faces is the sum, over the surface voxels, of the number of
    the voxel's six face directions not occupied by a surface voxel. *)
Theorem lateral_faces_cancel (g : ndarray Z) :
  wf_ndarray g → binary g →
  (∀ (vi : vertex → nat) p d,
     d ∈ face_dirs → lateral d →
     ∃ f, voxel_face vi p d = Some f
          ∧ voxel_face vi (offset_add p d) (offset_neg d) = Some f)
  ∧ (∀ p d f,
       d ∈ face_dirs → lateral d →
       surface_at g p = true → surface_at g (offset_add p d) = true →
       voxel_face (final_numbering g) p d = Some f →
       f ∉ (ProcessVoxelDataOperator.execute g).2)
  ∧ ((∀ p, surface_at g p = true →
           surface_at g (offset_add p (0, 0, 1)) = false) →
     length (ProcessVoxelDataOperator.execute g).2
     = exposed_faces (surface_at g) (surface_cells g)).
Proof.
  intros Hwf Hbin. split_and!.
  - intros vi p d (n & Hn & ->)%elem_of_face_dirs Hlat.
    apply lateral_face_dir in Hlat; [|done].
    exists (slot_face vi (p, n)). split; [by apply voxel_face_slot|].
    rewrite <- face_dir_opposite by done.
    rewrite voxel_face_slot by (clear -Hn; six n; simpl; lia).
    f_equal. unfold slot_face. simpl. f_equal.
    symmetry. apply corner_face_shared. lia.
  - intros p d f (n & Hn & ->)%elem_of_face_dirs Hlat Hp Hq Hf Hin.
    apply lateral_face_dir in Hlat; [|done].
    rewrite voxel_face_slot in Hf by done. injection Hf as <-.
    rewrite (execute_faces g Hwf Hbin) in Hin.
    apply list_elem_of_filter in Hin as [Hone _].
    eapply (slot_shared_lateral g Hwf Hbin p n); [|done..].
    apply elem_of_face_slots. split; [|done].
    by apply elem_of_surface_cells.
  - by apply execute_face_count.
Qed.

Lemma lateral_faces_cancel_witness :
  (∀ (vi : vertex → nat) p d,
     d ∈ face_dirs → lateral d →
     ∃ f, voxel_face vi p d = Some f
          ∧ voxel_face vi (offset_add p d) (offset_neg d) = Some f)
  ∧ (∃ f, voxel_face (final_numbering (ones (2, 2, 1))) (0, 0, 0) (1, 0, 0)
          = Some f
          ∧ voxel_face (final_numbering (ones (2, 2, 1))) (1, 0, 0) (-1, 0, 0)
            = Some f
          ∧ f ∉ (ProcessVoxelDataOperator.execute (ones (2, 2, 1))).2)
  ∧ (∃ f, voxel_face (final_numbering (ones (2, 2, 1))) (0, 0, 0) (0, 1, 0)
          = Some f
          ∧ voxel_face (final_numbering (ones (2, 2, 1))) (0, 1, 0) (0, -1, 0)
            = Some f
          ∧ f ∉ (ProcessVoxelDataOperator.execute (ones (2, 2, 1))).2)
  ∧ length (ProcessVoxelDataOperator.execute (ones (2, 2, 1))).2
    = exposed_faces (surface_at (ones (2, 2, 1)))
        (surface_cells (ones (2, 2, 1)))
  ∧ length (ProcessVoxelDataOperator.execute (ones (2, 2, 1))).2 = 16%nat
  ∧ length (surface_cells (ones (2, 2, 1))) = 4%nat.
Proof.
destruct (lateral_faces_cancel (ones (2, 2, 1)))
  as (Hsame & Hgone & Hcount); [solve_wf | solve_binary |].
destruct slab_faces as (H0 & H1 & H2 & Hexp & Hlen).
assert ((1, 0, 0) ∈ face_dirs) as Hd1 by (do 3 right; left).
assert ((0, 1, 0) ∈ face_dirs) as Hd2 by (do 4 right; left).
split_and!.
- exact Hsame.
- destruct (Hsame (final_numbering (ones (2, 2, 1))) (0, 0, 0) (1, 0, 0)
              Hd1 eq_refl) as (f & Hf & Hf').
  exists f. split_and!; [exact Hf|exact Hf'|].
  exact (Hgone (0, 0, 0) (1, 0, 0) f Hd1 eq_refl H0 H1 Hf).
- destruct (Hsame (final_numbering (ones (2, 2, 1))) (0, 0, 0) (0, 1, 0)
              Hd2 eq_refl) as (f & Hf & Hf').
  exists f. split_and!; [exact Hf|exact Hf'|].
  exact (Hgone (0, 0, 0) (0, 1, 0) f Hd2 eq_refl H0 H2 Hf).
- exact (Hcount slab_unstacked).
- rewrite (Hcount slab_unstacked). exact Hexp.
- exact Hlen.
Defined.

(** ** The solid block *)

Section SolidBlock.
Variable sh : Z * Z * Z.
Abbreviation N6 := BaseCountConnectedComponentsOperator.NEIGHBORS_6.

Lemma ones_cell p : in_bounds sh p = true → cell (ones sh) 1 p.
Proof.
intros Hin. split.
- unfold ones. by rewrite shape_tabulate.
- unfold ones. by rewrite getitem_tabulate.
Qed.

Lemma ones_link p d :
d ∈ N6 → in_bounds sh p = true → in_bounds sh (offset_add p d) = true →
link (ones sh) 1 N6 p (offset_add p d).
Proof.
intros Hd Hp Hq. split_and!; [by apply ones_cell..|]. by exists d.
Qed.

Lemma ones_walk0 (n : nat) j k :
in_bounds sh (Z.of_nat n, j, k) = true →
connected (ones sh) 1 N6 (0, j, k) (Z.of_nat n, j, k).
Proof.
induction n as [|n IH]; intros Hin; [apply rtc_refl|].
assert (in_bounds sh (Z.of_nat n, j, k) = true) as Hprev.
{ apply in_bounds_spec in Hin. apply in_bounds_spec. simpl in *. lia. }
eapply rtc_r; [by apply IH|].
replace (Z.of_nat (S n), j, k) with (offset_add (Z.of_nat n, j, k) (1, 0, 0))
by (unfold offset_add; f_equal; [f_equal|]; lia).
apply ones_link; [by vm_compute; set_solver|done|].
replace (offset_add (Z.of_nat n, j, k) (1, 0, 0)) with (Z.of_nat (S n), j, k)
by (unfold offset_add; f_equal; [f_equal|]; lia).
done.
Qed.

Lemma ones_walk1 (n : nat) i k :
in_bounds sh (i, Z.of_nat n, k) = true →
connected (ones sh) 1 N6 (i, 0, k) (i, Z.of_nat n, k).
Proof.
induction n as [|n IH]; intros Hin; [apply rtc_refl|].
assert (in_bounds sh (i, Z.of_nat n, k) = true) as Hprev.
{ apply in_bounds_spec in Hin. apply in_bounds_spec. simpl in *. lia. }
eapply rtc_r; [by apply IH|].
replace (i, Z.of_nat (S n), k) with (offset_add (i, Z.of_nat n, k) (0, 1, 0))
by (unfold offset_add; f_equal; [f_equal|]; lia).
apply ones_link; [by vm_compute; set_solver|done|].
replace (offset_add (i, Z.of_nat n, k) (0, 1, 0)) with (i, Z.of_nat (S n), k)
by (unfold offset_add; f_equal; [f_equal|]; lia).
done.
Qed.

Lemma ones_walk2 (n : nat) i j :
in_bounds sh (i, j, Z.of_nat n) = true →
connected (ones sh) 1 N6 (i, j, 0) (i, j, Z.of_nat n).
Proof.
induction n as [|n IH]; intros Hin; [apply rtc_refl|].
assert (in_bounds sh (i, j, Z.of_nat n) = true) as Hprev.
{ apply in_bounds_spec in Hin. apply in_bounds_spec. simpl in *. lia. }
eapply rtc_r; [by apply IH|].
replace (i, j, Z.of_nat (S n)) with (offset_add (i, j, Z.of_nat n) (0, 0, 1))
by (unfold offset_add; f_equal; [f_equal|]; lia).
apply ones_link; [by vm_compute; set_solver|done|].
replace (offset_add (i, j, Z.of_nat n) (0, 0, 1)) with (i, j, Z.of_nat (S n))
by (unfold offset_add; f_equal; [f_equal|]; lia).
done.
Qed.

(** Every voxel of the block is reached from the corner voxel by steps
  along the axes. *)
Lemma ones_connected p :
in_bounds sh p = true → connected (ones sh) 1 N6 (0, 0, 0) p.
Proof.
destruct p as [[i j] k]. intros Hin.
pose proof (proj1 (in_bounds_spec _ _) Hin) as Hb. simpl in Hb.
assert (in_bounds sh (0, 0, k) = true) as H2.
{ apply in_bounds_spec. simpl. lia. }
assert (in_bounds sh (0, j, k) = true) as H1.
{ apply in_bounds_spec. simpl. lia. }
pose proof (ones_walk2 (Z.to_nat k) 0 0) as W2.
pose proof (ones_walk1 (Z.to_nat j) 0 k) as W1.
pose proof (ones_walk0 (Z.to_nat i) j k) as W0.
rewrite Z2Nat.id in W0, W1, W2 by lia.
eapply rtc_trans; [by apply W2|]. eapply rtc_trans; [by apply W1|].
by apply W0.
Qed.

Lemma ones_component_count :
in_bounds sh (0, 0, 0) = true → component_count (ones sh) N6 1.
Proof.
intros H0. exists [(0, 0, 0)]. split; [|done]. split.
- intros r ->%list_elem_of_singleton. by apply ones_cell.
- intros [|i] [|j] r r' Hi Hj _; simplify_eq/=; done.
- intros v [Hv _]. exists (0, 0, 0). split; [by left|].
apply ones_connected. unfold ones in Hv. by rewrite shape_tabulate in Hv.
Qed.

End SolidBlock.

Lemma ones_one_component (N : Z) :
  1 ≤ N →
  (BaseCountConnectedComponentsOperator.find_connected_components 6
     (Heap (ones (N, N, N)) None)).1 = Return 1.
Proof.
intros HN. rewrite find_connected_components_run by (by left).
destruct (count_components_correct (neighbors_of 6)
            (Heap (ones (N, N, N)) None)) as (n & h' & -> & Hn).
- apply wf_tabulate; simpl; lia.
- apply neighbors_of_symmetric.
- simpl. f_equal.
  eapply component_count_unique; [apply (neighbors_of_symmetric 6)|done|].
  apply ones_component_count, in_bounds_spec. simpl. lia.
Qed.

(** C2, evaluated.  The block of ones is one component under
    6-connectivity whatever its size, and the shared-vertex path retains 32
    faces on the 2x2x2 block where the claim says 6 * 2 * 2 = 24: the eight
    faces shared along the third axis are counted once each, the two copies
    of such a face being different tuples.  The single voxel gives the 6
    faces the claim says. *)
Theorem solid_block_two :
  (∀ N, 1 ≤ N →
     (BaseCountConnectedComponentsOperator.find_connected_components 6
        (Heap (ones (N, N, N)) None)).1 = Return 1)
  ∧ length (ProcessVoxelDataOperator.execute (ones (2, 2, 2))).2 = 32%nat
  ∧ (32 ≠ 6 * 2 * 2)%nat
  ∧ voxel_face (final_numbering (ones (2, 2, 2))) (0, 0, 0) (0, 0, 1)
    ≠ voxel_face (final_numbering (ones (2, 2, 2))) (0, 0, 1) (0, 0, -1)
  ∧ length (ProcessVoxelDataOperator.execute (ones (1, 1, 1))).2 = 6%nat.
Proof. split; [apply ones_one_component|]. split_and!; by vm_compute. Qed.

(** ** The vertex list of the shared-vertex path *)

Section Vertices.
Import ProcessVoxelDataOperator.

Lemma assign_vertex_vertices b vis v w :
  w ∈ vertices (assign_vertex (b, vis) v).1 → w ∈ vertices b ∨ w = v.
Proof.
unfold assign_vertex. destruct (vertex_map b !! v); cbn; [by left|].
rewrite elem_of_app, list_elem_of_singleton. tauto.
Qed.

Lemma assign_vertices_vertices l : ∀ b vis w,
  w ∈ vertices (foldl assign_vertex (b, vis) l).1 → w ∈ vertices b ∨ w ∈ l.
Proof.
induction l as [|v l IH]; intros b vis w; cbn [foldl]; [by left|].
destruct (assign_vertex (b, vis) v) as [b1 vis1] eqn:E.
intros [Hw|Hw]%IH; [|right; by right].
pose proof (assign_vertex_vertices b vis v w) as H. rewrite E in H.
destruct (H Hw) as [?| ->]; [by left|right; by left].
Qed.

Lemma process_voxel_vertices surface b p w :
  w ∈ vertices (process_voxel surface b p) →
  w ∈ vertices b ∨ (getitem surface p = true ∧ w ∈ cube_vertices p).
Proof.
unfold process_voxel. destruct (getitem surface p) eqn:Hs; [|by left].
destruct p as [[i j] k].
pose proof (assign_vertices_vertices (cube_vertices (i, j, k)) b [] w) as H.
destruct (foldl assign_vertex (b, []) (cube_vertices (i, j, k)))
  as [b1 vis1] eqn:E.
cbn. intros Hw. destruct (H Hw); [by left|by right].
Qed.

Lemma process_voxels_vertices surface l : ∀ b w,
  w ∈ vertices (foldl (process_voxel surface) b l) →
  w ∈ vertices b
  ∨ ∃ p, p ∈ l ∧ getitem surface p = true ∧ w ∈ cube_vertices p.
Proof.
induction l as [|p l IH]; intros b w; cbn [foldl]; [by left|].
intros [Hw|(q & Hq & Hs & Hw)]%IH.
- apply process_voxel_vertices in Hw as [?|[? ?]]; [by left|].
  right. exists p. split; [by left|done].
- right. exists q. split; [by right|done].
Qed.

Lemma consistent_NoDup b : consistent b → NoDup (vertices b).
Proof.
intros Hc. apply NoDup_alt. intros i j v Hi Hj.
apply Hc in Hi, Hj. congruence.
Qed.

Lemma consistent_lookup b v :
  consistent b → v ∈ vertices b → vertices b !! numbering b v = Some v.
Proof.
intros Hc (i & Hi)%list_elem_of_lookup_1. unfold numbering.
pose proof (proj2 (Hc v i) Hi) as Hm.
by rewrite (lookup_total_correct _ _ _ Hm).
Qed.

Variable g : ndarray Z.
Hypothesis g_wf : wf_ndarray g.
Hypothesis g_binary : binary g.

Lemma elem_of_build_vertices v :
  v ∈ vertices (build (surface_voxels g))
  ↔ ∃ p, surface_at g p = true ∧ v ∈ cube_vertices p.
Proof.
destruct (build_facts g g_wf g_binary) as (Hc & Hv & _). split.
- rewrite build_eq, (surface_mask_cells g g_wf g_binary).
  intros [Hw|(p & Hp & _ & Hw)]%process_voxels_vertices.
  + by apply elem_of_nil in Hw.
  + exists p. split; [|done]. by apply (elem_of_surface_cells g g_wf).
- intros (p & Hp & Hw). apply (elem_of_surface_cells g g_wf) in Hp.
  destruct (Hv p v Hp Hw) as [i Hi]. apply Hc in Hi.
  by eapply list_elem_of_lookup_2.
Qed.

(** Every number in a face of a surface voxel is the position of a corner
    of that voxel in the vertex list. *)
Lemma slot_face_corners p n :
  surface_at g p = true → (n < 6)%nat →
  quad_corners (vertices (build (surface_voxels g)))
    (slot_face (final_numbering g) (p, n))
  = quad_map Some (corner_face p n).
Proof.
intros Hp Hn. destruct (build_facts g g_wf g_binary) as (Hc & _ & _).
pose proof (corner_face_corners p n Hn) as Hcor.
unfold quad_corners, slot_face. cbn [fst snd].
destruct (corner_face p n) as [[[a b] c] d]. cbn [quad_map].
destruct Hcor as (Ha & Hb & Hc' & Hd).
assert (∀ v, v ∈ cube_vertices p →
          vertices (build (surface_voxels g)) !! final_numbering g v
          = Some v) as Hlook.
{ intros v Hv. apply (consistent_lookup _ v Hc).
  apply elem_of_build_vertices. by exists p. }
by rewrite !Hlook.
Qed.

Lemma elem_of_execute_faces f :
  f ∈ (execute g).2 →
  ∃ p n, surface_at g p = true ∧ (n < 6)%nat
         ∧ f = slot_face (final_numbering g) (p, n)
         ∧ occurrences f (raw_faces g) = 1%nat.
Proof.
rewrite (execute_faces g g_wf g_binary).
intros [Hone Hin]%list_elem_of_filter. unfold raw_faces in Hin.
apply list_elem_of_fmap in Hin as ([p n] & -> & Hs).
apply elem_of_face_slots in Hs as [Hp Hn].
exists p, n. split_and!; try done. by apply (elem_of_surface_cells g g_wf).
Qed.

Lemma NoDup_execute_faces : NoDup (execute g).2.
Proof.
destruct (build_facts g g_wf g_binary) as (_ & _ & Hf).
unfold execute. cbn [snd]. apply NoDup_faces_list. rewrite Hf.
by apply (foldl_count_face (raw_faces g) []); [apply NoDup_nil|].
Qed.

End Vertices.

Lemma corner_face_NoDup p n :
  (n < 6)%nat → NoDup (quad_list (corner_face p n)).
Proof.
intros Hn. unfold corner_face, corner_faces.
destruct (is_clockwise p), p as [[i j] k]; six n; cbn;
  repeat (apply NoDup_cons_2;
    [rewrite ?elem_of_cons, elem_of_nil; intros H;
     repeat (destruct H as [H|H]); try done; injection H;
     unfold ProcessVoxelDataOperator.cube_size; lia|]);
  apply NoDup_nil_2.
Qed.

Lemma quad_corners_valid vs f q :
  quad_corners vs f = quad_map Some q → NoDup (quad_list q) →
  Forall (λ i, (i < length vs)%nat) (quad_list f) ∧ NoDup (quad_list f).
Proof.
destruct f as [[[x y] z] w], q as [[[a b] c] d]. unfold quad_corners.
cbn [quad_map quad_list]. intros [= Hx Hy Hz Hw] Hnd.
split.
- repeat (apply Forall_cons_2; [by eapply lookup_lt_Some|]). apply Forall_nil_2.
- rewrite !NoDup_cons, !elem_of_cons, !elem_of_nil in Hnd.
  destruct Hnd as (H1 & H2 & H3 & _).
  repeat (apply NoDup_cons_2;
    [rewrite ?elem_of_cons, elem_of_nil; intros H;
     repeat (destruct H as [H|H]); try done; subst;
     rewrite ?Hx, ?Hy, ?Hz in *; simplify_eq; tauto|]).
  apply NoDup_nil_2.
Qed.

(** X1.  The vertex list of the shared-vertex path has no repeated
    coordinate, holds exactly the corners of the cubes of the surface
    voxels, and the vertex dictionary sends every coordinate of the list to
    its position in the list. *)
Theorem shared_vertices_exact (g : ndarray Z) :
  wf_ndarray g → binary g →
  NoDup (ProcessVoxelDataOperator.execute g).1
  ∧ (∀ v, v ∈ (ProcessVoxelDataOperator.execute g).1
          ↔ ∃ p, surface_at g p = true
                 ∧ v ∈ ProcessVoxelDataOperator.cube_vertices p)
  ∧ (∀ v, v ∈ (ProcessVoxelDataOperator.execute g).1 →
          (ProcessVoxelDataOperator.execute g).1 !! final_numbering g v
          = Some v).
Proof.
intros Hwf Hbin. destruct (build_facts g Hwf Hbin) as (Hc & _ & _).
unfold ProcessVoxelDataOperator.execute. cbn [fst]. split_and!.
- by apply consistent_NoDup.
- intros v. by apply elem_of_build_vertices.
- intros v Hv. by apply consistent_lookup.
Qed.

Lemma shared_vertices_exact_witness :
  NoDup (ProcessVoxelDataOperator.execute cross).1
  ∧ (∀ v, v ∈ (ProcessVoxelDataOperator.execute cross).1
          ↔ ∃ p, surface_at cross p = true
                 ∧ v ∈ ProcessVoxelDataOperator.cube_vertices p)
  ∧ (∀ v, v ∈ (ProcessVoxelDataOperator.execute cross).1 →
          (ProcessVoxelDataOperator.execute cross).1 !! final_numbering cross v
          = Some v).
Proof. apply (shared_vertices_exact cross); [solve_wf | solve_binary]. Defined.

(** X2.  The face list of the shared-vertex path has no repeated face, and
    every face in it names four different positions of the vertex list
    which hold the corners of one face of the cube of a surface voxel. *)
Theorem shared_faces_valid (g : ndarray Z) :
  wf_ndarray g → binary g →
  NoDup (ProcessVoxelDataOperator.execute g).2
  ∧ ∀ f, f ∈ (ProcessVoxelDataOperator.execute g).2 →
      (∃ p n, surface_at g p = true ∧ (n < 6)%nat
              ∧ quad_corners (ProcessVoxelDataOperator.execute g).1 f
                = quad_map Some (corner_face p n))
      ∧ Forall (λ i, (i < length (ProcessVoxelDataOperator.execute g).1)%nat)
               (quad_list f)
      ∧ NoDup (quad_list f).
Proof.
intros Hwf Hbin. split; [by apply NoDup_execute_faces|].
intros f (p & n & Hp & Hn & -> & _)%elem_of_execute_faces; [|done..].
pose proof (slot_face_corners g Hwf Hbin p n Hp Hn) as Hq.
split; [by exists p, n|].
eapply quad_corners_valid; [exact Hq|by apply corner_face_NoDup].
Qed.

Lemma shared_faces_valid_witness :
  NoDup (ProcessVoxelDataOperator.execute cross).2
  ∧ ∀ f, f ∈ (ProcessVoxelDataOperator.execute cross).2 →
      (∃ p n, surface_at cross p = true ∧ (n < 6)%nat
              ∧ quad_corners (ProcessVoxelDataOperator.execute cross).1 f
                = quad_map Some (corner_face p n))
      ∧ Forall (λ i, (i < length (ProcessVoxelDataOperator.execute cross).1)%nat)
               (quad_list f)
      ∧ NoDup (quad_list f).
Proof. apply (shared_faces_valid cross); [solve_wf | solve_binary]. Defined.

Section CompleteMesh.
Import ProcessVoxelDataOperatorComplete.

Lemma complete_process_voxel_skip perimeter st p :
  getitem perimeter p ≠ true → process_voxel perimeter st p = st.
Proof. intros Hs. unfold process_voxel. by destruct (getitem perimeter p). Qed.

Lemma complete_execute_eq data :
  execute data
  = foldl (process_voxel (perimeter_voxels data)) ([], [])
      (filter (λ p, getitem (perimeter_voxels data) p = true)
         (grid_indices (shape (perimeter_voxels data)))).
Proof.
rewrite <- (foldl_filter (process_voxel (perimeter_voxels data))).
rewrite (foldl_ext _ (process_voxel (perimeter_voxels data))).
2:{ intros b p. destruct (decide _); [done|].
  symmetry. by apply complete_process_voxel_skip. }
unfold execute, grid_indices, tabulate, range.
destruct (shape (perimeter_voxels data)) as [[s0 s1] s2]. cbn [flat].
rewrite foldl_bind. apply foldl_ext. intros b i.
rewrite foldl_bind. apply foldl_ext. intros b' j.
by rewrite foldl_fmap.
Qed.

Lemma complete_process_voxels perimeter l : ∀ vs fs,
  (∀ p, p ∈ l → getitem perimeter p = true) →
  foldl (process_voxel perimeter) (vs, fs) l
  = (vs ++ (l ≫= ProcessVoxelDataOperator.cube_vertices),
     fs ++ fresh_faces (length vs) l).
Proof.
induction l as [|p l IH]; intros vs fs Hl.
- cbn. by rewrite !app_nil_r.
- cbn [foldl]. unfold process_voxel at 2.
  rewrite (Hl p) by (by left). destruct p as [[i j] k].
  rewrite IH by (intros q Hq; apply Hl; by right).
  rewrite bind_cons. cbn [fresh_faces].
  rewrite !length_app. cbn [length].
  replace (length vs + 8 - 8)%nat with (length vs) by lia.
  by rewrite <- !app_assoc.
Qed.

End CompleteMesh.

Lemma length_cube_vertices p :
  length (ProcessVoxelDataOperator.cube_vertices p) = 8%nat.
Proof. by destruct p as [[i j] k]. Qed.

Lemma length_bind_cube_vertices l :
  length (l ≫= ProcessVoxelDataOperator.cube_vertices) = (8 * length l)%nat.
Proof.
induction l as [|p l IH]; [done|].
rewrite bind_cons, length_app, length_cube_vertices, IH. cbn [length]. lia.
Qed.

Lemma length_fresh_faces l : ∀ s, length (fresh_faces s l) = (6 * length l)%nat.
Proof.
induction l as [|p l IH]; intros s; [done|].
cbn [fresh_faces]. rewrite length_app, IH. cbn [length]. lia.
Qed.

(** Read through the vertex list, the quads of the fresh-vertex path are
    the quads of the cubes in the first ordering of the face table. *)
Lemma fresh_faces_corners l : ∀ pre,
  quad_corners (pre ++ (l ≫= ProcessVoxelDataOperator.cube_vertices))
    <$> fresh_faces (length pre) l
  = l ≫= λ p, quad_map Some <$> cube_quads p.
Proof.
induction l as [|p l IH]; intros pre; [done|].
cbn [fresh_faces]. rewrite !bind_cons, fmap_app. f_equal.
- destruct p as [[i j] k]. unfold quad_corners, cube_quads. cbn.
  repeat match goal with
  | |- context [(pre ++ ?l) !! ?n] =>
    rewrite (lookup_app_r pre l n) by lia;
    replace (n - length pre)%nat with (n - length pre + 0)%nat by lia
  end.
  replace (length pre - length pre + 0)%nat with 0%nat by lia.
  replace (length pre + 1 - length pre + 0)%nat with 1%nat by lia.
  replace (length pre + 2 - length pre + 0)%nat with 2%nat by lia.
  replace (length pre + 3 - length pre + 0)%nat with 3%nat by lia.
  replace (length pre + 4 - length pre + 0)%nat with 4%nat by lia.
  replace (length pre + 5 - length pre + 0)%nat with 5%nat by lia.
  replace (length pre + 6 - length pre + 0)%nat with 6%nat by lia.
  replace (length pre + 7 - length pre + 0)%nat with 7%nat by lia.
  done.
- rewrite (app_assoc pre).
  replace (length pre + 8)%nat
    with (length (pre ++ ProcessVoxelDataOperator.cube_vertices p))
    by (rewrite length_app, length_cube_vertices; lia).
  apply IH.
Qed.

Lemma perimeter_mask_cells (g : ndarray Z) :
  wf_ndarray g →
  filter (λ p, getitem (ProcessVoxelDataOperatorComplete.perimeter_voxels g) p
               = true)
    (grid_indices (shape (ProcessVoxelDataOperatorComplete.perimeter_voxels g)))
  = surface_cells g.
Proof.
intros Hwf. pose proof (wf_ndarray_shape _ Hwf) as (? & ? & ?).
pose proof (shape_eta (shape g)) as Hsh.
assert (shape (ProcessVoxelDataOperatorComplete.perimeter_voxels g) = shape g)
  as -> by done.
unfold surface_cells. apply filter_ext_in. intros p Hp.
apply elem_of_indices in Hp; [|done..]. rewrite Hsh in Hp.
by rewrite (getitem_perimeter_voxels g _ _ _ Hwf Hsh p Hp).
Qed.

Lemma complete_execute_cells (g : ndarray Z) :
  wf_ndarray g →
  ProcessVoxelDataOperatorComplete.execute g
  = (surface_cells g ≫= ProcessVoxelDataOperator.cube_vertices,
     fresh_faces 0 (surface_cells g)).
Proof.
intros Hwf. rewrite complete_execute_eq, perimeter_mask_cells by done.
rewrite complete_process_voxels; [done|].
intros p Hp. rewrite <- (perimeter_mask_cells g Hwf) in Hp.
by apply list_elem_of_filter in Hp as [? _].
Qed.

(** X3.  On a grid of cells 0 or 1 the fresh-vertex path appends, for the
    surface voxels in scan order, the eight corners of the cube and six
    quads over the eight positions just appended: eight vertices and six
    faces per surface voxel, every quad in the first ordering of the face
    table, whatever the parity of the voxel.  (On such cells the sums of
    the mask, which the source takes in floating point, are exact.) *)
Theorem complete_mesh_exact (g : ndarray Z) :
  wf_ndarray g → binary g →
  let vs := (ProcessVoxelDataOperatorComplete.execute g).1 in
  let fs := (ProcessVoxelDataOperatorComplete.execute g).2 in
  vs = surface_cells g ≫= ProcessVoxelDataOperator.cube_vertices
  ∧ fs = fresh_faces 0 (surface_cells g)
  ∧ quad_corners vs <$> fs
    = surface_cells g ≫= (λ p, quad_map Some <$> cube_quads p)
  ∧ length vs = (8 * length (surface_cells g))%nat
  ∧ length fs = (6 * length (surface_cells g))%nat.
Proof.
intros Hwf _. rewrite complete_execute_cells by done. cbn [fst snd].
split_and!.
- done.
- done.
- apply (fresh_faces_corners (surface_cells g) []).
- apply length_bind_cube_vertices.
- apply length_fresh_faces.
Qed.

Lemma complete_mesh_exact_witness :
  let vs := (ProcessVoxelDataOperatorComplete.execute cross).1 in
  let fs := (ProcessVoxelDataOperatorComplete.execute cross).2 in
  vs = surface_cells cross ≫= ProcessVoxelDataOperator.cube_vertices
  ∧ fs = fresh_faces 0 (surface_cells cross)
  ∧ quad_corners vs <$> fs
    = surface_cells cross ≫= (λ p, quad_map Some <$> cube_quads p)
  ∧ length vs = (8 * length (surface_cells cross))%nat
  ∧ length fs = (6 * length (surface_cells cross))%nat.
Proof. apply (complete_mesh_exact cross); [solve_wf | solve_binary]. Defined.

Lemma length_raw_faces g : length (raw_faces g) = (6 * length (surface_cells g))%nat.
Proof.
unfold raw_faces, face_slots. rewrite length_fmap.
induction (surface_cells g) as [|p l IH]; [done|].
rewrite bind_cons, length_app, IH, length_fmap, length_seq. cbn [length]. lia.
Qed.

(** X4.  The shared-vertex path lists the same coordinates as the
    fresh-vertex path, and never more vertices or more faces. *)
Theorem shared_mesh_smaller (g : ndarray Z) :
  wf_ndarray g → binary g →
  (∀ v, v ∈ (ProcessVoxelDataOperator.execute g).1
        ↔ v ∈ (ProcessVoxelDataOperatorComplete.execute g).1)
  ∧ (length (ProcessVoxelDataOperator.execute g).1
     ≤ length (ProcessVoxelDataOperatorComplete.execute g).1)%nat
  ∧ (length (ProcessVoxelDataOperator.execute g).2
     ≤ length (ProcessVoxelDataOperatorComplete.execute g).2)%nat.
Proof.
intros Hwf Hbin. rewrite complete_execute_cells by done. cbn [fst snd].
split_and!.
- intros v. unfold ProcessVoxelDataOperator.execute. cbn [fst].
  rewrite (elem_of_build_vertices g Hwf Hbin), list_elem_of_bind.
  split; intros (p & H1 & H2); exists p; split; try done;
    by apply (elem_of_surface_cells g Hwf).
- apply submseteq_length, NoDup_submseteq.
  + destruct (build_facts g Hwf Hbin) as (Hc & _ & _).
    by apply consistent_NoDup.
  + intros v Hv. apply (elem_of_build_vertices g Hwf Hbin) in Hv.
    destruct Hv as (p & Hp & Hv).
    apply list_elem_of_bind. exists p. split; [done|].
    by apply elem_of_surface_cells.
- rewrite length_fresh_faces, <- length_raw_faces.
  rewrite (execute_faces g Hwf Hbin). apply length_filter.
Qed.

Lemma shared_mesh_smaller_witness :
  (∀ v, v ∈ (ProcessVoxelDataOperator.execute cross).1
        ↔ v ∈ (ProcessVoxelDataOperatorComplete.execute cross).1)
  ∧ (length (ProcessVoxelDataOperator.execute cross).1
     ≤ length (ProcessVoxelDataOperatorComplete.execute cross).1)%nat
  ∧ (length (ProcessVoxelDataOperator.execute cross).2
     ≤ length (ProcessVoxelDataOperatorComplete.execute cross).2)%nat.
Proof. apply (shared_mesh_smaller cross); [solve_wf | solve_binary]. Defined.

(** ** Grids without solid voxels *)

Section Leftmost.
Variable g : ndarray Z.
Hypothesis g_wf : wf_ndarray g.
Hypothesis g_binary : binary g.

Lemma padded_value_cell p : padded_value g p = 1 ↔ cell g 1 p.
Proof.
unfold padded_value, cell. destruct (in_bounds (shape g) p); [tauto|].
split; [done|]. by intros [? _].
Qed.

(** Walking down the first axis from a solid voxel ends at a solid voxel
    whose lower neighbour is empty or outside the grid. *)
Lemma solid_leftmost (n : nat) : ∀ i j k,
  Z.to_nat i = n → cell g 1 (i, j, k) →
  ∃ i', cell g 1 (i', j, k) ∧ padded_value g (i' - 1, j, k) = 0.
Proof.
induction n as [|n IH]; intros i j k Hn Hcell.
- exists i. split; [done|]. unfold padded_value.
  destruct Hcell as [Hin _]. apply in_bounds_spec in Hin. simpl in Hin.
  destruct (in_bounds (shape g) (i - 1, j, k)) eqn:Hin'; [|done].
  apply in_bounds_spec in Hin'. simpl in Hin'. lia.
- destruct (padded_value_range g (i - 1, j, k) g_wf g_binary) as [H0|H1].
  + by exists i.
  + apply padded_value_cell in H1. apply (IH (i - 1)); [lia|done].
Qed.

Lemma surface_of_leftmost i j k :
  cell g 1 (i, j, k) → padded_value g (i - 1, j, k) = 0 →
  surface_at g (i, j, k) = true
  ∧ surface_at g (offset_add (i, j, k) (-1, 0, 0)) = false.
Proof.
intros [Hin H1] H0. split.
- unfold surface_at, is_surface. rewrite Hin, H1. cbn [andb].
  rewrite Z.eqb_refl. cbn [andb]. apply Z.ltb_lt.
  unfold face_neighbor_sum, face_offsets. cbn [fmap list_fmap foldr offset_add].
  replace (i + -1, j + 0, k + 0) with (i - 1, j, k) by (repeat f_equal; lia).
  rewrite H0.
  repeat match goal with
  | |- context [padded_value g ?q] =>
    let H := fresh in
    pose proof (padded_value_range g q g_wf g_binary) as H;
    generalize dependent (padded_value g q); intros
  end.
  lia.
- unfold surface_at, is_surface. cbn [offset_add].
  replace (i + -1, j + 0, k + 0) with (i - 1, j, k) by (repeat f_equal; lia).
  unfold padded_value in H0.
  destruct (in_bounds (shape g) (i - 1, j, k)); [|done].
  by rewrite H0.
Qed.

Lemma surface_at_cell p : surface_at g p = true → cell g 1 p.
Proof.
unfold surface_at, is_surface.
intros [Hin [H1%Z.eqb_eq _]%andb_true_iff]%andb_true_iff. by split.
Qed.

Lemma solid_surface p :
  cell g 1 p →
  ∃ q, surface_at g q = true
       ∧ surface_at g (offset_add q (face_dir 5)) = false.
Proof.
destruct p as [[i j] k]. intros Hcell.
destruct (solid_leftmost (Z.to_nat i) i j k eq_refl Hcell) as (i' & Hc & H0).
exists (i', j, k). by apply surface_of_leftmost.
Qed.

Lemma no_solid_no_surface : (∀ p, ¬ cell g 1 p) → surface_cells g = [].
Proof.
intros Hnone. apply elem_of_nil_inv. intros p Hp.
apply (elem_of_surface_cells g g_wf) in Hp.
by apply (Hnone p), surface_at_cell.
Qed.

Lemma surface_face_retained q :
  surface_at g q = true →
  surface_at g (offset_add q (face_dir 5)) = false →
  slot_face (final_numbering g) (q, 5%nat)
  ∈ (ProcessVoxelDataOperator.execute g).2.
Proof.
intros Hq Hopen. rewrite (execute_faces g g_wf g_binary).
assert ((q, 5%nat) ∈ face_slots (surface_cells g)) as Hs.
{ apply elem_of_face_slots. split; [|lia].
  by apply (elem_of_surface_cells g g_wf). }
apply list_elem_of_filter. split.
- by apply (slot_once_open g g_wf g_binary).
- unfold raw_faces. apply list_elem_of_fmap. by exists (q, 5%nat).
Qed.

End Leftmost.

(** X5.  Each of the two extractions returns an empty mesh exactly when
    the grid has no solid voxel: with a solid voxel there is a surface voxel
    one of whose faces is kept. *)
Theorem mesh_empty_iff (g : ndarray Z) :
  wf_ndarray g → binary g →
  ((∀ p, ¬ cell g 1 p) ↔ (ProcessVoxelDataOperator.execute g).2 = [])
  ∧ ((∀ p, ¬ cell g 1 p) ↔ (ProcessVoxelDataOperator.execute g).1 = [])
  ∧ ((∀ p, ¬ cell g 1 p)
     ↔ ProcessVoxelDataOperatorComplete.execute g = ([], [])).
Proof.
intros Hwf Hbin. split_and!; split.
- intros Hnone. apply elem_of_nil_inv. intros f Hf.
  apply (elem_of_execute_faces g Hwf Hbin) in Hf as (p & n & Hp & _).
  by apply (Hnone p), surface_at_cell.
- intros Hnil p Hcell.
  destruct (solid_surface g Hwf Hbin p Hcell) as (q & Hq & Hopen).
  pose proof (surface_face_retained g Hwf Hbin q Hq Hopen) as Hin.
  rewrite Hnil in Hin. by apply elem_of_nil in Hin.
- intros Hnone. apply elem_of_nil_inv. intros v Hv.
  apply (elem_of_build_vertices g Hwf Hbin) in Hv as (p & Hp & _).
  by apply (Hnone p), surface_at_cell.
- intros Hnil p Hcell.
  destruct (solid_surface g Hwf Hbin p Hcell) as (q & Hq & _).
  assert (q ∈ (ProcessVoxelDataOperator.execute g).1) as Hin.
  { apply (elem_of_build_vertices g Hwf Hbin). exists q. split; [done|].
    destruct q as [[i j] k]. by left. }
  rewrite Hnil in Hin. by apply elem_of_nil in Hin.
- intros Hnone. rewrite complete_execute_cells by done.
  by rewrite (no_solid_no_surface g Hwf Hnone).
- intros Hnil p Hcell.
  destruct (solid_surface g Hwf Hbin p Hcell) as (q & Hq & _).
  rewrite complete_execute_cells in Hnil by done.
  apply (elem_of_surface_cells g Hwf) in Hq.
  destruct (surface_cells g); [by apply elem_of_nil in Hq|].
  destruct i as [[? ?] ?]. discriminate Hnil.
Qed.

Lemma mesh_empty_iff_witness :
  ((∀ p, ¬ cell (np_zeros (2, 2, 2)) 1 p)
   ↔ (ProcessVoxelDataOperator.execute (np_zeros (2, 2, 2))).2 = [])
  ∧ ((∀ p, ¬ cell (np_zeros (2, 2, 2)) 1 p)
     ↔ (ProcessVoxelDataOperator.execute (np_zeros (2, 2, 2))).1 = [])
  ∧ ((∀ p, ¬ cell (np_zeros (2, 2, 2)) 1 p)
     ↔ ProcessVoxelDataOperatorComplete.execute (np_zeros (2, 2, 2)) = ([], [])).
Proof. apply (mesh_empty_iff (np_zeros (2, 2, 2))); [solve_wf | solve_binary]. Defined.

(** ** Bounds on the counts *)

Lemma representatives_NoDup {V} (P : V → Prop) (R : relation V) reps :
  (∀ v, R v v) → representatives P R reps → NoDup reps.
Proof.
intros Hrefl [_ Hapart _]. apply NoDup_alt. intros i j v Hi Hj.
by apply (Hapart i j v v).
Qed.

Lemma class_count_bound {V} (P : V → Prop) (R : relation V) (l : list V) n :
  (∀ v, R v v) → (∀ v, P v → v ∈ l) → class_count P R n →
  0 ≤ n ≤ Z.of_nat (length l).
Proof.
intros Hrefl Hl (reps & Hreps & ->). split; [lia|].
apply inj_le, submseteq_length, NoDup_submseteq.
- by eapply representatives_NoDup.
- intros v Hv. by apply Hl, (reps_member _ _ _ Hreps).
Qed.

Lemma class_count_zero {V} (P : V → Prop) (R : relation V) n :
  class_count P R n → n = 0 ↔ ∀ v, ¬ P v.
Proof.
intros Hcount. split; [|intros; by eapply class_count_empty].
destruct Hcount as (reps & Hreps & ->). intros Hn v Hv.
destruct reps; [|done].
destruct (reps_cover _ _ _ Hreps v Hv) as (r & Hr & _).
by apply elem_of_nil in Hr.
Qed.

Lemma neighbors_6_all c d :
  valid_connectivity c → d ∈ neighbors_of 6 → d ∈ neighbors_of c.
Proof.
intros [-> | [-> | ->]] Hd; [done|by apply neighbors_6_18|].
by apply neighbors_18_26, neighbors_6_18.
Qed.

(** X6.  For an adjacency model among 6, 18 and 26 the component count is
    returned, lies between 0 and the number of solid voxels, and is 0
    exactly when the grid has no solid voxel. *)
Theorem components_bounded (c : Z) (h : heap (list bool)) :
  wf_ndarray (data h) → valid_connectivity c →
  ∃ n h',
    BaseCountConnectedComponentsOperator.find_connected_components c h
      = (Return n, h')
    ∧ 0 ≤ n ≤ Z.of_nat (length (solid_cells (data h)))
    ∧ (n = 0 ↔ ∀ p, ¬ cell (data h) 1 p).
Proof.
intros Hwf Hc. rewrite find_connected_components_run by done.
destruct (count_components_correct (neighbors_of c) h Hwf
            (neighbors_of_symmetric c)) as (n & h' & Hrun & Hcount).
exists n, h'. split; [done|]. split; [|by eapply class_count_zero].
eapply class_count_bound; [| |exact Hcount].
- intros v. apply rtc_refl.
- intros v Hv. by apply elem_of_solid_cells.
Qed.

Lemma components_bounded_witness :
  ∃ n h',
    BaseCountConnectedComponentsOperator.find_connected_components 18
      (Heap two_corner None) = (Return n, h')
    ∧ 0 ≤ n ≤ Z.of_nat (length (solid_cells two_corner))
    ∧ (n = 0 ↔ ∀ p, ¬ cell two_corner 1 p).
Proof.
apply (components_bounded 18 (Heap two_corner None)).
- solve_wf.
- unfold valid_connectivity. lia.
Defined.

Lemma empty_cells_spec (g : ndarray Z) p :
  wf_ndarray g →
  p ∈ BaseCountBubblesOperator.np_nonzero (np_map (λ v, v =? 0) g)
  ↔ cell g 0 p.
Proof.
intros Hwf. rewrite elem_of_np_nonzero by (by apply wf_np_map).
rewrite shape_np_map. unfold cell. split.
- intros [Hin Hp]. split; [done|].
  rewrite getitem_np_map in Hp by done. by apply Z.eqb_eq.
- intros [Hin Hp]. split; [done|].
  rewrite getitem_np_map by done. by apply Z.eqb_eq.
Qed.

(** X7.  For an adjacency model among 6, 18 and 26 the bubble count is
    returned, lies between 0 and the number of empty voxels (so the final
    clamp at 0 never acts), and is 0 exactly when no empty voxel is
    enclosed. *)
Theorem bubbles_bounded (c : Z) (h : heap (ndarray bool)) :
  wf_ndarray (data h) → valid_connectivity c →
  ∃ n h',
    BaseCountBubblesOperator.find_bubbles c h = (Return n, h')
    ∧ 0 ≤ n ≤ Z.of_nat (length (BaseCountBubblesOperator.np_nonzero
                                  (np_map (λ v, v =? 0) (data h))))
    ∧ (n = 0 ↔ ∀ p, ¬ enclosed (data h) (neighbors_of c) p).
Proof.
intros Hwf Hc. rewrite find_bubbles_run by done.
destruct (count_bubbles_correct (neighbors_of c) h Hwf
            (neighbors_of_symmetric c)) as (n & h' & Hrun & Hcount).
exists n, h'. split; [done|]. split; [|by eapply class_count_zero].
eapply class_count_bound; [| |exact Hcount].
- intros v. apply rtc_refl.
- intros v [Hv _]. by apply empty_cells_spec.
Qed.

Lemma bubbles_bounded_witness :
  ∃ n h',
    BaseCountBubblesOperator.find_bubbles 6 (Heap hollow None) = (Return n, h')
    ∧ 0 ≤ n ≤ Z.of_nat (length (BaseCountBubblesOperator.np_nonzero
                                  (np_map (λ v, v =? 0) hollow)))
    ∧ (n = 0 ↔ ∀ p, ¬ enclosed hollow (neighbors_of 6) p).
Proof.
apply (bubbles_bounded 6 (Heap hollow None)).
- solve_wf.
- unfold valid_connectivity. lia.
Defined.

Lemma axis_offset_neighbors c d :
  valid_connectivity c → axis_offset d → d ∈ neighbors_of c.
Proof.
intros Hc Hd. apply neighbors_6_all; [done|]. by apply NEIGHBORS_6_spec.
Qed.

Lemma thin_not_enclosed g c p :
  valid_connectivity c → thin (shape g) → ¬ enclosed g (neighbors_of c) p.
Proof.
intros Hc Hthin [[Hin _] Hclosed]. apply (Hclosed p); [apply rtc_refl|].
destruct (shape g) as [[s0 s1] s2], p as [[i j] k].
apply in_bounds_spec in Hin. simpl in Hin. unfold thin in Hthin.
simpl in Hthin. unfold outside_neighbor.
assert (∀ d, axis_offset d → in_bounds (s0, s1, s2) (offset_add (i, j, k) d) = false
             → ∃ d, d ∈ neighbors_of c
                    ∧ in_bounds (s0, s1, s2) (offset_add (i, j, k) d) = false)
  as Hex.
{ intros d Hd Hout. exists d. split; [by apply axis_offset_neighbors|done]. }
assert (∀ q, ¬ (0 ≤ q.1.1 < s0 ∧ 0 ≤ q.1.2 < s1 ∧ 0 ≤ q.2 < s2)
             → in_bounds (s0, s1, s2) q = false) as Hout.
{ intros q Hq. destruct (in_bounds (s0, s1, s2) q) eqn:E; [|done].
  apply in_bounds_spec in E. done. }
destruct (decide (i = 0)) as [->|]; [apply (Hex (-1, 0, 0));
  [cbn; lia|apply Hout; cbn; lia]|].
destruct (decide (j = 0)) as [->|]; [apply (Hex (0, -1, 0));
  [cbn; lia|apply Hout; cbn; lia]|].
destruct (decide (k = 0)) as [->|]; [apply (Hex (0, 0, -1));
  [cbn; lia|apply Hout; cbn; lia]|].
destruct Hthin as [?|[?|?]].
- apply (Hex (1, 0, 0)); [cbn; lia|apply Hout; cbn; lia].
- apply (Hex (0, 1, 0)); [cbn; lia|apply Hout; cbn; lia].
- apply (Hex (0, 0, 1)); [cbn; lia|apply Hout; cbn; lia].
Qed.

(** A straight run of cells of one value along the first axis is
    connected. *)
Lemma run_connected g t N (n : nat) : ∀ i j k,
  (1, 0, 0) ∈ N →
  (∀ m, 0 ≤ m ≤ Z.of_nat n → cell g t (i + m, j, k)) →
  connected g t N (i, j, k) (i + Z.of_nat n, j, k).
Proof.
induction n as [|n IH]; intros i j k HN Hrun.
- replace (i + Z.of_nat 0) with i by lia. apply rtc_refl.
- eapply rtc_r; [apply IH; [done|intros m Hm; apply Hrun; lia]|].
  split_and!; [apply Hrun; lia|apply Hrun; lia|].
  exists (1, 0, 0). split; [done|]. unfold offset_add. f_equal; [f_equal|]; lia.
Qed.

Lemma all_empty_not_enclosed g c p :
  valid_connectivity c → all_empty g → ¬ enclosed g (neighbors_of c) p.
Proof.
intros Hc Hzero [[Hin _] Hclosed].
destruct p as [[i j] k]. destruct (shape g) as [[s0 s1] s2] eqn:Hsh.
pose proof (proj1 (in_bounds_spec _ _) Hin) as Hb. simpl in Hb.
assert ((1, 0, 0) ∈ neighbors_of c) as HN
  by (apply axis_offset_neighbors; [done|cbn; lia]).
apply (Hclosed (i + Z.of_nat (Z.to_nat (s0 - 1 - i)), j, k)).
- apply run_connected; [done|]. intros m Hm.
  assert (in_bounds (shape g) (i + m, j, k) = true) as Hin'.
  { rewrite Hsh. apply in_bounds_spec. simpl. lia. }
  split; [done|]. by apply Hzero.
- exists (1, 0, 0). split; [done|]. cbn.
  destruct (in_bounds (s0, s1, s2)
              (i + Z.of_nat (Z.to_nat (s0 - 1 - i)) + 1, j + 0, k + 0)) eqn:E;
    [|done].
  apply in_bounds_spec in E. simpl in E. lia.
Qed.

(** X8.  A grid with an extent of at most two voxels along some axis, and a
    grid all of whose voxels are empty, has no bubble under any of the three
    adjacency models: every empty voxel then reaches the boundary. *)
Theorem no_bubbles (c : Z) (h : heap (ndarray bool)) :
  wf_ndarray (data h) → valid_connectivity c →
  thin (shape (data h)) ∨ all_empty (data h) →
  (BaseCountBubblesOperator.find_bubbles c h).1 = Return 0.
Proof.
intros Hwf Hc Hcase. rewrite find_bubbles_run by done.
destruct (count_bubbles_correct (neighbors_of c) h Hwf
            (neighbors_of_symmetric c)) as (n & h' & -> & Hcount).
cbn [fst]. f_equal. eapply class_count_empty; [|exact Hcount].
intros p. destruct Hcase; [by apply thin_not_enclosed|].
by apply all_empty_not_enclosed.
Qed.

Lemma no_bubbles_witness :
  (BaseCountBubblesOperator.find_bubbles 26
     (Heap (tabulate (2, 4, 4)
              (λ p, if bool_decide (p = (0, 1, 1)) then 0 else 1)) None)).1
  = Return 0.
Proof.
apply (no_bubbles 26).
- solve_wf.
- unfold valid_connectivity. lia.
- left. unfold thin. vm_compute. left. discriminate.
Defined.

Section Rot90.
Context {A : Type} `{Inhabited A}.
Variable a : ndarray A.
Hypothesis a_wf : wf_ndarray a.

Lemma shape_np_flip axis : shape (np_flip a axis) = shape a.
Proof.
unfold np_flip. destruct (shape a) as [[n0 n1] n2].
by rewrite shape_tabulate.
Qed.

Lemma shape_np_rot90 :
  shape (np_rot90 a) = ((shape a).1.1, (shape a).2, (shape a).1.2).
Proof.
unfold np_rot90, np_transpose_021. rewrite shape_np_flip.
destruct (shape a) as [[n0 n1] n2]. by rewrite shape_tabulate.
Qed.

Lemma wf_np_rot90 : wf_ndarray (np_rot90 a).
Proof.
pose proof (wf_ndarray_shape _ a_wf) as (? & ? & ?).
unfold np_rot90, np_transpose_021. rewrite shape_np_flip.
destruct (shape a) as [[n0 n1] n2]. by apply wf_tabulate.
Qed.

Lemma getitem_np_rot90 i j k :
  in_bounds (shape (np_rot90 a)) (i, j, k) = true →
  getitem (np_rot90 a) (i, j, k) = getitem a (i, k, (shape a).2 - 1 - j).
Proof.
rewrite shape_np_rot90. intros Hin.
unfold np_rot90, np_transpose_021. rewrite shape_np_flip.
unfold np_flip.
destruct (shape a) as [[n0 n1] n2] eqn:Hsh. cbn [fst snd] in *.
rewrite getitem_tabulate by done.
rewrite getitem_tabulate; [done|].
apply in_bounds_spec in Hin. apply in_bounds_spec. simpl in *. lia.
Qed.

Lemma in_bounds_rot90 p :
  in_bounds (shape (np_rot90 a)) (rot90_index (shape a) p)
  = in_bounds (shape a) p.
Proof.
rewrite shape_np_rot90. destruct (shape a) as [[n0 n1] n2], p as [[i j] k].
unfold in_bounds, rot90_index. cbn [fst snd].
apply eq_true_iff_eq. rewrite !andb_true_iff, !Z.leb_le, !Z.ltb_lt. lia.
Qed.

Lemma getitem_rot90_index p :
  in_bounds (shape a) p = true →
  getitem (np_rot90 a) (rot90_index (shape a) p) = getitem a p.
Proof.
intros Hin. pose proof (in_bounds_rot90 p) as Hb. rewrite Hin in Hb.
destruct p as [[i j] k]. unfold rot90_index in *.
rewrite getitem_np_rot90 by done. do 2 f_equal. lia.
Qed.

End Rot90.

(** ** Grids that differ by a rearrangement of the positions *)

Section GridMap.
Variables g g' : ndarray Z.
Variable N : list index.
Variable f : index → index.
Variable fd : index → index.
Hypothesis f_bounds : ∀ p, in_bounds (shape g') (f p) = in_bounds (shape g) p.
Hypothesis f_value :
  ∀ p, in_bounds (shape g) p = true → getitem g' (f p) = getitem g p.
Hypothesis f_offset : ∀ p d, f (offset_add p d) = offset_add (f p) (fd d).
Hypothesis fd_closed : ∀ d, d ∈ N → fd d ∈ N.

Lemma map_cell t p : cell g t p → cell g' t (f p).
Proof.
intros [Hin Hv]. split; [by rewrite f_bounds|]. by rewrite f_value.
Qed.

Lemma map_connected t p q :
  connected g t N p q → connected g' t N (f p) (f q).
Proof.
intros Hc. induction Hc as [|x y z (Hx & Hy & d & Hd & ->) _ IH];
  [apply rtc_refl|].
eapply rtc_l; [|exact IH]. split_and!; [by apply map_cell..|].
exists (fd d). split; [by apply fd_closed|apply f_offset].
Qed.

Lemma map_outside_neighbor p :
  outside_neighbor (shape g) N p → outside_neighbor (shape g') N (f p).
Proof.
intros (d & Hd & Hout). exists (fd d). split; [by apply fd_closed|].
by rewrite <- f_offset, f_bounds.
Qed.

End GridMap.

Section GridIso.
Variables g g' : ndarray Z.
Variable N : list index.
Variables f f' fd fd' : index → index.
Hypothesis f_bounds : ∀ p, in_bounds (shape g') (f p) = in_bounds (shape g) p.
Hypothesis f_value :
  ∀ p, in_bounds (shape g) p = true → getitem g' (f p) = getitem g p.
Hypothesis f_offset : ∀ p d, f (offset_add p d) = offset_add (f p) (fd d).
Hypothesis fd_closed : ∀ d, d ∈ N → fd d ∈ N.
Hypothesis f'_offset : ∀ p d, f' (offset_add p d) = offset_add (f' p) (fd' d).
Hypothesis fd'_closed : ∀ d, d ∈ N → fd' d ∈ N.
Hypothesis f_f' : ∀ p, f (f' p) = p.
Hypothesis f'_f : ∀ p, f' (f p) = p.

Lemma f'_bounds p : in_bounds (shape g) (f' p) = in_bounds (shape g') p.
Proof. by rewrite <- f_bounds, f_f'. Qed.

Lemma f'_value p :
  in_bounds (shape g') p = true → getitem g (f' p) = getitem g' p.
Proof.
intros Hin. rewrite <- f_value by (by rewrite f'_bounds). by rewrite f_f'.
Qed.

Lemma iso_connected t p q :
  connected g t N p q ↔ connected g' t N (f p) (f q).
Proof.
split.
- by apply (map_connected g g' N f fd).
- intros Hc.
  apply (map_connected g' g N f' fd' f'_bounds f'_value f'_offset fd'_closed)
    in Hc.
  by rewrite !f'_f in Hc.
Qed.

Lemma iso_cell t p : cell g t p ↔ cell g' t (f p).
Proof.
split; [by apply (map_cell g g' f)|].
intros Hc. apply (map_cell g' g f' f'_bounds f'_value) in Hc.
by rewrite f'_f in Hc.
Qed.

Lemma iso_enclosed p : enclosed g N p ↔ enclosed g' N (f p).
Proof.
split.
- intros [Hc Hcl]. split; [by apply iso_cell|].
  intros q Hq Hout. apply (Hcl (f' q)).
  + apply iso_connected. by rewrite f_f'.
  + apply (map_outside_neighbor g' g N f' fd' f'_bounds f'_offset fd'_closed).
    done.
- intros [Hc Hcl]. split; [by apply iso_cell|].
  intros q Hq Hout. apply (Hcl (f q)).
  + by apply iso_connected.
  + by apply (map_outside_neighbor g g' N f fd).
Qed.

Lemma iso_representatives (P : index → Prop) (P' : index → Prop) t reps :
  (∀ p, P p ↔ P' (f p)) →
  representatives P (connected g t N) reps →
  representatives P' (connected g' t N) (f <$> reps).
Proof.
intros HP [Hm Ha Hc]. split.
- intros r (r0 & -> & Hr)%list_elem_of_fmap. by apply HP, Hm.
- intros i j r r' Hi Hj Hr.
  apply list_lookup_fmap_Some in Hi as (r0 & -> & Hi).
  apply list_lookup_fmap_Some in Hj as (r1 & -> & Hj).
  apply (Ha i j r0 r1); [done..|]. by apply iso_connected.
- intros v Hv. destruct (Hc (f' v)) as (r & Hr & Hrv).
  { apply HP. by rewrite f_f'. }
  exists (f r). split; [apply list_elem_of_fmap; by exists r|].
  apply iso_connected in Hrv. by rewrite f_f' in Hrv.
Qed.

Lemma iso_component_count n :
  component_count g N n → component_count g' N n.
Proof.
intros (reps & Hreps & ->). exists (f <$> reps).
split; [|by rewrite length_fmap].
apply (iso_representatives (cell g 1)); [|done]. intros p. apply iso_cell.
Qed.

Lemma iso_bubble_count n : bubble_count g N n → bubble_count g' N n.
Proof.
intros (reps & Hreps & ->). exists (f <$> reps).
split; [|by rewrite length_fmap].
apply (iso_representatives (enclosed g N)); [|done]. intros p.
apply iso_enclosed.
Qed.

End GridIso.

Lemma offsets_closed_decide (fd : index → index) (N : list index) :
  bool_decide (Forall (λ d, fd d ∈ N) N) = true → ∀ d, d ∈ N → fd d ∈ N.
Proof.
intros HF%bool_decide_eq_true d Hd. rewrite Forall_forall in HF. by apply HF.
Qed.

Lemma rot90_offset_closed c d :
  valid_connectivity c → d ∈ neighbors_of c → rot90_offset d ∈ neighbors_of c.
Proof.
intros [-> | [-> | ->]]; by apply offsets_closed_decide.
Qed.

Lemma rot90_offset_inv_closed c d :
  valid_connectivity c → d ∈ neighbors_of c →
  rot90_offset_inv d ∈ neighbors_of c.
Proof.
intros [-> | [-> | ->]]; by apply offsets_closed_decide.
Qed.

Ltac solve_index_eq :=
  repeat match goal with |- (_, _) = (_, _) => f_equal end; lia.

Lemma rot90_index_offset sh p d :
  rot90_index sh (offset_add p d)
  = offset_add (rot90_index sh p) (rot90_offset d).
Proof.
destruct p as [[i j] k], d as [[dx dy] dz]. unfold rot90_index, offset_add.
cbn. solve_index_eq.
Qed.

Lemma rot90_index_inv_offset sh p d :
  rot90_index_inv sh (offset_add p d)
  = offset_add (rot90_index_inv sh p) (rot90_offset_inv d).
Proof.
destruct p as [[i j] k], d as [[dx dy] dz].
unfold rot90_index_inv, offset_add. cbn. solve_index_eq.
Qed.

Lemma rot90_index_inv_r sh p : rot90_index sh (rot90_index_inv sh p) = p.
Proof.
destruct p as [[i j] k]. unfold rot90_index, rot90_index_inv.
solve_index_eq.
Qed.

Lemma rot90_index_inv_l sh p : rot90_index_inv sh (rot90_index sh p) = p.
Proof.
destruct p as [[i j] k]. unfold rot90_index, rot90_index_inv.
solve_index_eq.
Qed.

Section Rot90Counts.
Variable g : ndarray Z.
Variable c : Z.
Hypothesis g_wf : wf_ndarray g.
Hypothesis c_valid : valid_connectivity c.

Lemma rot90_component_count n :
  component_count g (neighbors_of c) n →
  component_count (np_rot90 g) (neighbors_of c) n.
Proof.
apply (iso_component_count g (np_rot90 g) (neighbors_of c)
         (rot90_index (shape g)) (rot90_index_inv (shape g))
         rot90_offset rot90_offset_inv).
- apply in_bounds_rot90.
- by apply getitem_rot90_index.
- apply rot90_index_offset.
- intros d. by apply rot90_offset_closed.
- apply rot90_index_inv_offset.
- intros d. by apply rot90_offset_inv_closed.
- apply rot90_index_inv_r.
- apply rot90_index_inv_l.
Qed.

Lemma rot90_bubble_count n :
  bubble_count g (neighbors_of c) n →
  bubble_count (np_rot90 g) (neighbors_of c) n.
Proof.
apply (iso_bubble_count g (np_rot90 g) (neighbors_of c)
         (rot90_index (shape g)) (rot90_index_inv (shape g))
         rot90_offset rot90_offset_inv).
- apply in_bounds_rot90.
- by apply getitem_rot90_index.
- apply rot90_index_offset.
- intros d. by apply rot90_offset_closed.
- apply rot90_index_inv_offset.
- intros d. by apply rot90_offset_inv_closed.
- apply rot90_index_inv_r.
- apply rot90_index_inv_l.
Qed.

End Rot90Counts.

(** X9.  The quarter turn the extraction applies to the loaded grid changes
    neither the component count nor the bubble count, under each of the
    three adjacency models: the counts computed on the grid as loaded are
    the counts of the grid that is meshed. *)
Theorem rotation_keeps_counts (g : ndarray Z) (c : Z) :
  wf_ndarray g → valid_connectivity c →
  (BaseCountConnectedComponentsOperator.find_connected_components c
     (Heap (np_rot90 g) None)).1
  = (BaseCountConnectedComponentsOperator.find_connected_components c
       (Heap g None)).1
  ∧ (BaseCountBubblesOperator.find_bubbles c (Heap (np_rot90 g) None)).1
    = (BaseCountBubblesOperator.find_bubbles c (Heap g None)).1.
Proof.
intros Hwf Hc. pose proof (wf_np_rot90 g Hwf) as Hwf'.
pose proof (neighbors_of_symmetric c) as Hsym. split.
- rewrite !find_connected_components_run by done.
  destruct (count_components_correct (neighbors_of c) (Heap g None) Hwf Hsym)
    as (n & h1 & -> & Hn).
  destruct (count_components_correct (neighbors_of c)
              (Heap (np_rot90 g) None) Hwf' Hsym) as (m & h2 & -> & Hm).
  cbn [fst]. f_equal. cbn [data] in *.
  eapply component_count_unique; [exact Hsym|exact Hm|].
  by apply rot90_component_count.
- rewrite !find_bubbles_run by done.
  destruct (count_bubbles_correct (neighbors_of c) (Heap g None) Hwf Hsym)
    as (n & h1 & -> & Hn).
  destruct (count_bubbles_correct (neighbors_of c)
              (Heap (np_rot90 g) None) Hwf' Hsym) as (m & h2 & -> & Hm).
  cbn [fst]. f_equal. cbn [data] in *.
  eapply bubble_count_unique; [exact Hsym|exact Hm|].
  by apply rot90_bubble_count.
Qed.

Lemma rotation_keeps_counts_witness :
  (BaseCountConnectedComponentsOperator.find_connected_components 6
     (Heap (np_rot90 two_corner) None)).1
  = (BaseCountConnectedComponentsOperator.find_connected_components 6
       (Heap two_corner None)).1
  ∧ (BaseCountBubblesOperator.find_bubbles 6
       (Heap (np_rot90 two_corner) None)).1
    = (BaseCountBubblesOperator.find_bubbles 6 (Heap two_corner None)).1.
Proof.
apply (rotation_keeps_counts two_corner 6).
- solve_wf.
- unfold valid_connectivity. lia.
Defined.

(** ** The surface mask of a rotated grid *)

Lemma Forall_tabulate {A} (P : A → Prop) sh (f : index → A) :
  (∀ p, in_bounds sh p = true → P (f p)) → Forall P (flat (tabulate sh f)).
Proof.
intros HP. destruct sh as [[s0 s1] s2]. unfold tabulate. cbn [flat].
apply Forall_forall. intros x (i & Hx & Hi)%list_elem_of_bind.
apply list_elem_of_bind in Hx as (j & Hx & Hj).
apply list_elem_of_fmap in Hx as (k & -> & Hk).
apply elem_of_seqZ in Hi, Hj, Hk. apply HP, in_bounds_spec. simpl. lia.
Qed.

Lemma wf_surface_voxels (g : ndarray Z) :
  wf_ndarray g →
  wf_ndarray (ProcessVoxelDataOperator.surface_voxels g)
  ∧ shape (ProcessVoxelDataOperator.surface_voxels g) = shape g.
Proof.
intros Hwf. pose proof (shape_eta (shape g)) as Hsh.
destruct (wf_neighbor_sum g _ _ _ Hwf Hsh) as [Hwf1 Hsh1].
split; [|done]. unfold ProcessVoxelDataOperator.surface_voxels.
apply wf_np_map2; [by apply wf_np_map | by apply wf_np_map |].
by rewrite !shape_np_map, Hsh1.
Qed.

Lemma wf_perimeter_voxels (g : ndarray Z) :
  wf_ndarray g →
  wf_ndarray (ProcessVoxelDataOperatorComplete.perimeter_voxels g)
  ∧ shape (ProcessVoxelDataOperatorComplete.perimeter_voxels g) = shape g.
Proof.
intros Hwf. pose proof (shape_eta (shape g)) as Hsh.
destruct (wf_complete_neighbor_sum g _ _ _ Hwf Hsh) as [Hwf2 Hsh2].
pose proof (wf_ndarray_shape _ Hwf) as (? & ? & ?).
split; [|done]. unfold ProcessVoxelDataOperatorComplete.perimeter_voxels.
apply wf_np_map2; [by apply wf_np_map | apply wf_np_map, wf_getslice |].
rewrite !shape_np_map, shape_getslice, Hsh2. cbn [fst snd].
fold mid. rewrite !slice_bounds_mid by done. done.
Qed.

Section Rot90Surface.
Variable g : ndarray Z.
Hypothesis g_wf : wf_ndarray g.

Lemma binary_np_rot90 : binary g → binary (np_rot90 g).
Proof.
intros Hbin. pose proof (wf_ndarray_shape _ g_wf) as (? & ? & ?).
unfold binary, np_rot90, np_transpose_021. rewrite shape_np_flip.
unfold np_flip. destruct (shape g) as [[n0 n1] n2] eqn:Hsh.
apply Forall_tabulate. intros [[i j] k] Hin.
rewrite getitem_tabulate.
- apply binary_getitem; [done..|]. rewrite Hsh.
  apply in_bounds_spec in Hin. apply in_bounds_spec. simpl in *. lia.
- apply in_bounds_spec in Hin. apply in_bounds_spec. simpl in *. lia.
Qed.

Lemma padded_value_rot90 p :
  padded_value (np_rot90 g) (rot90_index (shape g) p) = padded_value g p.
Proof.
unfold padded_value. rewrite in_bounds_rot90 by done.
destruct (in_bounds (shape g) p) eqn:Hin; [|done].
by apply getitem_rot90_index.
Qed.

Lemma padded_value_rot90_offset p d :
  padded_value (np_rot90 g) (offset_add (rot90_index (shape g) p) d)
  = padded_value g (offset_add p (rot90_offset_inv d)).
Proof.
rewrite <- padded_value_rot90, rot90_index_offset. do 2 f_equal.
destruct d as [[dx dy] dz]. unfold rot90_offset, rot90_offset_inv.
solve_index_eq.
Qed.

Lemma face_neighbor_sum_rot90 p :
  face_neighbor_sum (np_rot90 g) (rot90_index (shape g) p)
  = face_neighbor_sum g p.
Proof.
unfold face_neighbor_sum, face_offsets. cbn [fmap list_fmap foldr].
rewrite !padded_value_rot90_offset. cbn [rot90_offset_inv].
change (- 0) with 0. change (- -1) with 1. change (- (1)) with (-1). lia.
Qed.

Lemma is_surface_rot90 p :
  in_bounds (shape g) p = true →
  is_surface (np_rot90 g) (rot90_index (shape g) p) = is_surface g p.
Proof.
intros Hin. unfold is_surface.
by rewrite face_neighbor_sum_rot90, getitem_rot90_index.
Qed.

Lemma rot90_index_inv_bounds {A} `{Inhabited A} (a : ndarray A) q :
  shape a = shape g →
  in_bounds (shape (np_rot90 a)) q = true →
  in_bounds (shape g) (rot90_index_inv (shape g) q) = true
  ∧ getitem (np_rot90 a) q = getitem a (rot90_index_inv (shape g) q).
Proof.
intros Hsh Hin. destruct q as [[i j] k].
split.
- rewrite shape_np_rot90, Hsh in Hin.
  apply in_bounds_spec in Hin. apply in_bounds_spec.
  unfold rot90_index_inv. simpl in *. lia.
- rewrite getitem_np_rot90 by done. by rewrite Hsh.
Qed.

End Rot90Surface.

(** X10.  Both surface masks commute with the quarter turn: the mask of the
    turned grid is the turned mask of the grid. *)
Theorem surface_rotates (g : ndarray Z) :
  wf_ndarray g → binary g →
  ProcessVoxelDataOperator.surface_voxels (np_rot90 g)
  = np_rot90 (ProcessVoxelDataOperator.surface_voxels g)
  ∧ ProcessVoxelDataOperatorComplete.perimeter_voxels (np_rot90 g)
    = np_rot90 (ProcessVoxelDataOperatorComplete.perimeter_voxels g).
Proof.
intros Hwf Hbin. pose proof (wf_np_rot90 g Hwf) as Hwf'.
pose proof (binary_np_rot90 g Hwf Hbin) as Hbin'.
pose proof (shape_eta (shape g)) as Hsh.
pose proof (shape_eta (shape (np_rot90 g))) as Hsh'.
destruct (wf_surface_voxels g Hwf) as [Hw1 Hs1].
destruct (wf_surface_voxels (np_rot90 g) Hwf') as [Hw2 Hs2].
destruct (wf_perimeter_voxels g Hwf) as [Hw3 Hs3].
destruct (wf_perimeter_voxels (np_rot90 g) Hwf') as [Hw4 Hs4].
split.
- apply ndarray_ext; [done|by apply wf_np_rot90| |].
  + by rewrite Hs2, !shape_np_rot90, Hs1.
  + intros q Hin. rewrite Hs2 in Hin.
    assert (in_bounds (shape (np_rot90 (ProcessVoxelDataOperator.surface_voxels g))) q = true) as Hin2
      by (by rewrite shape_np_rot90, Hs1, <- shape_np_rot90).
    destruct (rot90_index_inv_bounds g _ q Hs1 Hin2) as [Hb ->].
    assert (in_bounds ((shape (np_rot90 g)).1.1, (shape (np_rot90 g)).1.2,
                       (shape (np_rot90 g)).2) q = true) as Hin'
      by (by rewrite <- Hsh').
    assert (in_bounds ((shape g).1.1, (shape g).1.2, (shape g).2)
              (rot90_index_inv (shape g) q) = true) as Hb'
      by (by rewrite <- Hsh).
    rewrite (getitem_surface_voxels (np_rot90 g) _ _ _ Hwf' Hsh' q Hbin' Hin').
    rewrite (getitem_surface_voxels g _ _ _ Hwf Hsh _ Hbin Hb').
    rewrite <- (is_surface_rot90 g _ Hb).
    by rewrite rot90_index_inv_r.
- apply ndarray_ext; [done|by apply wf_np_rot90| |].
  + by rewrite Hs4, !shape_np_rot90, Hs3.
  + intros q Hin. rewrite Hs4 in Hin.
    assert (in_bounds (shape (np_rot90 (ProcessVoxelDataOperatorComplete.perimeter_voxels g))) q = true) as Hin2
      by (by rewrite shape_np_rot90, Hs3, <- shape_np_rot90).
    destruct (rot90_index_inv_bounds g _ q Hs3 Hin2) as [Hb ->].
    assert (in_bounds ((shape (np_rot90 g)).1.1, (shape (np_rot90 g)).1.2,
                       (shape (np_rot90 g)).2) q = true) as Hin'
      by (by rewrite <- Hsh').
    assert (in_bounds ((shape g).1.1, (shape g).1.2, (shape g).2)
              (rot90_index_inv (shape g) q) = true) as Hb'
      by (by rewrite <- Hsh).
    rewrite (getitem_perimeter_voxels (np_rot90 g) _ _ _ Hwf' Hsh' q Hin').
    rewrite (getitem_perimeter_voxels g _ _ _ Hwf Hsh _ Hb').
    rewrite <- (is_surface_rot90 g _ Hb).
    by rewrite rot90_index_inv_r.
Qed.

Lemma surface_rotates_witness :
  ProcessVoxelDataOperator.surface_voxels (np_rot90 cross)
  = np_rot90 (ProcessVoxelDataOperator.surface_voxels cross)
  ∧ ProcessVoxelDataOperatorComplete.perimeter_voxels (np_rot90 cross)
    = np_rot90 (ProcessVoxelDataOperatorComplete.perimeter_voxels cross).
Proof. apply (surface_rotates cross); [solve_wf | solve_binary]. Defined.

(** ** The face dictionary keeps the order of first emission *)

Section FaceOrder.
Import ProcessVoxelDataOperator.
Implicit Types (fc : list (face * Z)) (f x : face) (L : list face).

Lemma filter_all {A} (P : A → Prop) `{∀ a, Decision (P a)} (l : list A) :
  (∀ a, a ∈ l → P a) → filter P l = l.
Proof.
induction l as [|y l IH]; intros HP; [done|].
rewrite filter_cons, decide_True by (apply HP; by left).
rewrite IH; [done|]. intros a Ha. apply HP. by right.
Qed.

Lemma faces_list_cons g c fc :
  faces_list ((g, c) :: fc)
  = (if decide (c = 1) then [g] else []) ++ faces_list fc.
Proof.
unfold faces_list. rewrite filter_cons. cbn [snd].
by destruct (decide (c = 1)).
Qed.

Lemma faces_list_keys fc f : f ∈ faces_list fc → f ∈ fc.*1.
Proof.
unfold faces_list. intros (e & -> & [_ He]%list_elem_of_filter)%list_elem_of_fmap.
apply list_elem_of_fmap. by exists e.
Qed.

Lemma faces_list_count_face fc x :
  NoDup fc.*1 → Forall (λ e, 1 ≤ e.2) fc →
  faces_list (count_face fc x)
  = if decide (x ∈ fc.*1) then filter (λ f, f ≠ x) (faces_list fc)
    else faces_list fc ++ [x].
Proof.
induction fc as [|[g c] fc IH]; intros Hnd Hpos.
- cbn [count_face fmap list_fmap].
  rewrite decide_False by apply not_elem_of_nil.
  by rewrite faces_list_cons, decide_True.
- rewrite fmap_cons in Hnd. cbn [fst] in Hnd.
  apply NoDup_cons in Hnd as [Hg Hnd].
  apply Forall_cons in Hpos as [Hc Hpos]. cbn [snd] in Hc.
  cbn [count_face]. rewrite fmap_cons. cbn [fst].
  destruct (decide (g = x)) as [->|Hne].
  + rewrite decide_True by (by left). rewrite !faces_list_cons.
    rewrite decide_False by lia. cbn [app]. rewrite filter_app.
    assert (filter (λ f, f ≠ x) (if decide (c = 1) then [x] else []) = [])
      as ->.
    { destruct (decide (c = 1)); [|done].
      rewrite filter_cons, decide_False; [done|]. by intros ?. }
    cbn [app]. symmetry. apply filter_all.
    intros y Hy ->. by apply Hg, faces_list_keys.
  + rewrite !faces_list_cons, IH by done.
    destruct (decide (x ∈ fc.*1)) as [Hin|Hin].
    * rewrite (decide_True (P := x ∈ g :: fc.*1)) by (by right).
      rewrite filter_app. f_equal.
      destruct (decide (c = 1)); [|done].
      by rewrite filter_cons, decide_True.
    * rewrite (decide_False (P := x ∈ g :: fc.*1));
        [by rewrite app_assoc|].
      intros [?|?]%elem_of_cons; congruence.
Qed.

Lemma elem_of_counted_keys L x :
  x ∈ (foldl count_face [] L).*1 ↔ x ∈ L.
Proof.
destruct (foldl_count_face L []) as (Hnd & Hpos & Ht);
  [constructor|constructor|].
specialize (Ht x). cbn [tally] in Ht. rewrite (occurrences_pos x L). split.
- intros (e & -> & He)%list_elem_of_fmap. destruct e as [y c].
  rewrite Forall_forall in Hpos. specialize (Hpos _ He). cbn [fst snd] in *.
  rewrite (tally_key _ _ _ Hnd He) in Ht. lia.
- intros Hocc. destruct (decide (x ∈ (foldl count_face [] L).*1)); [done|].
  rewrite tally_not_key in Ht by done. lia.
Qed.

End FaceOrder.

Lemma occurrences_snoc {A} `{EqDecision A} (a b : A) (l : list A) :
  occurrences a (l ++ [b])
  = (occurrences a l + if decide (b = a) then 1 else 0)%nat.
Proof.
rewrite occurrences_app, occurrences_cons.
change (occurrences a []) with 0%nat. lia.
Qed.

(** X11.  Counting the emitted faces in the dictionary and keeping the
    entries of count one gives the faces that occur exactly once in the
    emitted sequence, in the order of emission. *)
Theorem faces_list_exact (L : list face) :
  ProcessVoxelDataOperator.faces_list
    (foldl ProcessVoxelDataOperator.count_face [] L)
  = filter (λ f, occurrences f L = 1%nat) L.
Proof.
induction L as [|x L IH] using rev_ind; [done|].
destruct (foldl_count_face L []) as (Hnd & Hpos & _);
  [constructor|constructor|].
rewrite foldl_app. cbn [foldl]. rewrite faces_list_count_face by done.
rewrite IH, filter_app.
destruct (decide (x ∈ _)) as [Hin|Hin]; rewrite elem_of_counted_keys in Hin.
- pose proof (proj1 (occurrences_pos x L) Hin) as Hocc.
  rewrite filter_cons, decide_False, app_nil_r.
  2:{ rewrite occurrences_snoc, decide_True by done. lia. }
  rewrite list_filter_filter. apply list_filter_iff. intros f.
  rewrite occurrences_snoc.
  destruct (decide (x = f)) as [->|Hne].
  + split; [by intros [? ?]|lia].
  + split; [intros [? ?]; lia|intros ?; split; [congruence|lia]].
- assert (occurrences x L = 0%nat) as Hocc.
  { destruct (occurrences x L) eqn:E; [done|]. exfalso. apply Hin.
    apply occurrences_pos. lia. }
  rewrite filter_cons, decide_True.
  2:{ rewrite occurrences_snoc, decide_True by done. lia. }
  f_equal. apply filter_ext_in. intros f Hf.
  rewrite occurrences_snoc.
  rewrite decide_False by (intros ->; done). lia.
Qed.

(** X12.  The flat position the component fill stores in its queue and the
    index triple it decodes from it are inverse to each other over the
    grid, and the cell the scan reads at a flat position is the cell at the
    decoded triple. *)
Theorem flat_index_round_trip (sh : Z * Z * Z) :
  0 ≤ sh.1.1 → 0 ≤ sh.1.2 → 0 ≤ sh.2 →
  (∀ p, in_bounds sh p = true →
        0 ≤ ravel sh p < size_of sh ∧ unravel sh (ravel sh p) = p)
  ∧ (∀ idx, 0 ≤ idx < size_of sh →
        in_bounds sh (unravel sh idx) = true
        ∧ ravel sh (unravel sh idx) = idx)
  ∧ (∀ (g : ndarray Z) idx,
        wf_ndarray g → shape g = sh → 0 ≤ idx < size_of sh →
        flat g !!! Z.to_nat idx = getitem g (unravel sh idx)).
Proof.
intros H0 H1 H2. split_and!.
- intros p Hp. split; [by apply ravel_bounds|by apply unravel_ravel].
- intros idx Hidx. by apply unravel_spec.
- intros g idx Hwf <- Hidx.
  destruct (unravel_spec (shape g) idx H0 H1 H2 Hidx) as [Hin Hr].
  unfold getitem. by rewrite Hr.
Qed.

Lemma flat_index_round_trip_witness :
  (∀ p, in_bounds (2, 3, 4) p = true →
        0 ≤ ravel (2, 3, 4) p < size_of (2, 3, 4)
        ∧ unravel (2, 3, 4) (ravel (2, 3, 4) p) = p)
  ∧ (∀ idx, 0 ≤ idx < size_of (2, 3, 4) →
        in_bounds (2, 3, 4) (unravel (2, 3, 4) idx) = true
        ∧ ravel (2, 3, 4) (unravel (2, 3, 4) idx) = idx)
  ∧ (∀ (g : ndarray Z) idx,
        wf_ndarray g → shape g = (2, 3, 4) → 0 ≤ idx < size_of (2, 3, 4) →
        flat g !!! Z.to_nat idx = getitem g (unravel (2, 3, 4) idx)).
Proof. apply (flat_index_round_trip (2, 3, 4)); simpl; lia. Defined.

Lemma add_uint8_sum a b c d e f :
  add_uint8 (add_uint8 (add_uint8 (add_uint8 (add_uint8 a b) c) d) e) f
  = (a + b + c + d + e + f) `mod` 256.
Proof.
unfold add_uint8, uint8.
rewrite (Z.add_mod_idemp_l (a + b) c) by done.
rewrite (Z.add_mod_idemp_l (a + b + c) d) by done.
rewrite (Z.add_mod_idemp_l (a + b + c + d) e) by done.
by rewrite (Z.add_mod_idemp_l (a + b + c + d + e) f).
Qed.

Lemma padded_value_np_map_uint8 (g : ndarray Z) p :
  wf_ndarray g → padded_value (np_map uint8 g) p = uint8 (padded_value g p).
Proof.
intros Hwf. unfold padded_value. rewrite shape_np_map.
destruct (in_bounds (shape g) p) eqn:Hin; [|done].
by rewrite getitem_np_map by done.
Qed.

(** X13.  On a grid whose cells are integers between 0 and 255 the
    shared-vertex path takes the sum of the six neighbour values modulo
    256, the fresh-vertex path takes the exact sum; on the voxel of value 1
    surrounded by six values 43 the first mask is set and the second is
    not. *)
Theorem surface_voxels_wrap (g : ndarray Z) :
  wf_ndarray g → uint8_cells g →
  (∀ p, in_bounds (shape g) p = true →
     getitem (ProcessVoxelDataOperator.surface_voxels g) p
     = (getitem g p =? 1) && (wrapped_neighbor_sum g p <? 6))
  ∧ (∀ p, in_bounds (shape g) p = true →
       getitem (ProcessVoxelDataOperatorComplete.perimeter_voxels g) p
       = (getitem g p =? 1) && (face_neighbor_sum g p <? 6))
  ∧ getitem (ProcessVoxelDataOperator.surface_voxels loud) (1, 1, 1)
    ≠ getitem (ProcessVoxelDataOperatorComplete.perimeter_voxels loud)
        (1, 1, 1).
Proof.
intros Hwf _. pose proof (shape_eta (shape g)) as Hsh. split_and!.
- intros [[i j] k] Hin.
  assert (in_bounds ((shape g).1.1, (shape g).1.2, (shape g).2) (i, j, k)
          = true) as Hin' by (by rewrite <- Hsh).
  destruct (wf_neighbor_sum g _ _ _ Hwf Hsh) as [Hwf1 Hsh1].
  unfold ProcessVoxelDataOperator.surface_voxels.
  rewrite getitem_np_map2;
    rewrite ?shape_np_map, ?Hsh1; try done; try by apply wf_np_map.
  rewrite !getitem_np_map by (by rewrite ?Hsh1).
  rewrite (getitem_neighbor_sum g _ _ _ Hwf Hsh i j k Hin'). cbv zeta.
  rewrite add_uint8_sum, !padded_value_np_map_uint8 by done.
  unfold wrapped_neighbor_sum, face_offsets.
  cbn [fmap list_fmap foldr offset_add].
  replace (i + -1) with (i - 1) by lia.
  replace (j + -1) with (j - 1) by lia.
  replace (k + -1) with (k - 1) by lia.
  rewrite !Z.add_0_r. do 3 f_equal. lia.
- intros p Hin.
  assert (in_bounds ((shape g).1.1, (shape g).1.2, (shape g).2) p = true)
    as Hin' by (by rewrite <- Hsh).
  by rewrite (getitem_perimeter_voxels g _ _ _ Hwf Hsh p Hin').
- by vm_compute.
Qed.

Lemma surface_voxels_wrap_witness :
  (∀ p, in_bounds (shape loud) p = true →
     getitem (ProcessVoxelDataOperator.surface_voxels loud) p
     = (getitem loud p =? 1) && (wrapped_neighbor_sum loud p <? 6))
  ∧ (∀ p, in_bounds (shape loud) p = true →
       getitem (ProcessVoxelDataOperatorComplete.perimeter_voxels loud) p
       = (getitem loud p =? 1) && (face_neighbor_sum loud p <? 6))
  ∧ getitem (ProcessVoxelDataOperator.surface_voxels loud) (1, 1, 1)
    ≠ getitem (ProcessVoxelDataOperatorComplete.perimeter_voxels loud)
        (1, 1, 1).
Proof.
apply (surface_voxels_wrap loud); [solve_wf|].
unfold uint8_cells. vm_compute.
repeat (apply List.Forall_cons; [split; discriminate|]). apply List.Forall_nil.
Defined.

Section Retained.
Variable g : ndarray Z.
Hypothesis g_wf : wf_ndarray g.
Hypothesis g_binary : binary g.

(** The base and the top of a voxel are counted once, whatever lies below
    or above. *)
Lemma slot_once_vertical p n :
  (p, n) ∈ face_slots (surface_cells g) → (n < 2)%nat →
  occurrences (slot_face (final_numbering g) (p, n)) (raw_faces g) = 1%nat.
Proof.
intros Hs Hn. unfold raw_faces.
apply occurrences_fmap_once;
  [apply NoDup_face_slots, (NoDup_surface_cells g)|done|].
intros [p' n'] Hs' Heq. apply (slot_face_eq g g_wf g_binary) in Heq; [|done..].
pose proof Hs' as [Hp' Hn']%elem_of_face_slots.
symmetry in Heq. apply corner_face_eq in Heq as [[-> ->]|(_ & _ & Hlat)];
  [done| |lia|done].
exfalso. apply lateral_face_dir in Hlat; lia.
Qed.

Lemma slot_kept_iff p n :
  (p, n) ∈ face_slots (surface_cells g) →
  occurrences (slot_face (final_numbering g) (p, n)) (raw_faces g) = 1%nat
  ↔ kept_slot g (p, n).
Proof.
intros Hs. pose proof Hs as [Hp Hn]%elem_of_face_slots.
unfold kept_slot. cbn [fst snd]. split.
- intros Hone. destruct (decide (n < 2)%nat) as [|Hlat]; [by left|right].
  destruct (surface_at g (offset_add p (face_dir n))) eqn:Hocc; [|done].
  exfalso. apply (slot_shared_lateral g g_wf g_binary p n Hs); [lia|done..].
- intros [Hvert|Hopen]; [by apply slot_once_vertical|].
  by apply (slot_once_open g g_wf g_binary).
Qed.

Lemma execute_kept_count :
  length (ProcessVoxelDataOperator.execute g).2
  = sum_list (kept_directions g <$> surface_cells g).
Proof.
rewrite (execute_faces g g_wf g_binary).
assert (∀ (P : face → Prop) (HP : ∀ x, Decision (P x)),
          length (filter P (raw_faces g))
          = length (filter (λ s, P (slot_face (final_numbering g) s))
                      (face_slots (surface_cells g)))) as Hlen.
{ intros P HP. unfold raw_faces. by rewrite filter_fmap, length_fmap. }
rewrite Hlen.
rewrite (filter_ext_in _ (kept_slot g)).
- rewrite (length_filter_slots (kept_slot g)). done.
- intros [p n] Hs. by apply slot_kept_iff.
Qed.

Lemma execute_kept_member p n :
  surface_at g p = true → (n < 6)%nat →
  slot_face (final_numbering g) (p, n) ∈ (ProcessVoxelDataOperator.execute g).2
  ↔ kept_slot g (p, n).
Proof.
intros Hp Hn.
assert ((p, n) ∈ face_slots (surface_cells g)) as Hs.
{ apply elem_of_face_slots. split; [|done].
  by apply (elem_of_surface_cells g g_wf). }
rewrite (execute_faces g g_wf g_binary), list_elem_of_filter.
rewrite slot_kept_iff by done. split; [by intros [? _]|].
intros Hk. split; [done|]. unfold raw_faces.
apply list_elem_of_fmap. by exists (p, n).
Qed.

End Retained.

(** X14.  The faces the shared-vertex path keeps, for every grid: the base
    and the top of every surface voxel, and the side faces whose neighbour
    is no surface voxel.  The face count is the number of these. *)
Theorem retained_faces_exact (g : ndarray Z) :
  wf_ndarray g → binary g →
  length (ProcessVoxelDataOperator.execute g).2
  = sum_list (kept_directions g <$> surface_cells g)
  ∧ ∀ p n, surface_at g p = true → (n < 6)%nat →
      slot_face (final_numbering g) (p, n)
        ∈ (ProcessVoxelDataOperator.execute g).2
      ↔ ((n < 2)%nat ∨ surface_at g (offset_add p (face_dir n)) = false).
Proof.
intros Hwf Hbin. split; [by apply execute_kept_count|].
intros p n Hp Hn. by apply execute_kept_member.
Qed.

Lemma retained_faces_exact_witness :
  length (ProcessVoxelDataOperator.execute (ones (2, 2, 2))).2
  = sum_list (kept_directions (ones (2, 2, 2)) <$> surface_cells (ones (2, 2, 2)))
  ∧ ∀ p n, surface_at (ones (2, 2, 2)) p = true → (n < 6)%nat →
      slot_face (final_numbering (ones (2, 2, 2))) (p, n)
        ∈ (ProcessVoxelDataOperator.execute (ones (2, 2, 2))).2
      ↔ ((n < 2)%nat
         ∨ surface_at (ones (2, 2, 2)) (offset_add p (face_dir n)) = false).
Proof.
apply (retained_faces_exact (ones (2, 2, 2))); [solve_wf | solve_binary].
Defined.

(** ** The fills started by the scans *)

Section FillSpec.
Variable g : ndarray Z.
Variable t : Z.
Variable N : list index.
Variable flag : index → bool.
Variable vis0 : list bool.
Variable start : index.
Hypothesis vis0_len : length vis0 = Z.to_nat (size_of (shape g)).
Hypothesis start_cell : cell g t start.
Hypothesis start_fresh :
  ∀ p, connected g t N start p → vis0 !! grid_key (shape g) p ≠ Some true.

Lemma grid_fill_spec :
  ∃ vis' pop,
    t_fill (grid_key (shape g)) (grid_succ g t N) flag
      (fuel_for (size_of (shape g))) start vis0
    = Some (vis', existsb flag pop)
    ∧ length vis' = length vis0
    ∧ (∀ p, cell g t p →
         vis' !! grid_key (shape g) p = Some true
         ↔ vis0 !! grid_key (shape g) p = Some true
           ∨ connected g t N start p)
    ∧ (∀ p, p ∈ pop ↔ connected g t N start p).
Proof.
assert (vis0 !! grid_key (shape g) start = Some false) as Hfresh.
{ pose proof (grid_key_lt g t start start_cell) as Hlt.
  rewrite <- vis0_len in Hlt. apply lookup_lt_is_Some in Hlt as [b Hb].
  destruct b; [|done]. exfalso. by apply (start_fresh start); [apply rtc_refl|]. }
destruct (t_fill_spec (grid_key (shape g)) (grid_succ g t N) flag
            (cell g t) (Z.to_nat (size_of (shape g)))
            (grid_key_inj g t) (grid_key_lt g t)
            (grid_succ_good g t N)
            vis0 start vis0_len start_cell Hfresh)
  with (fuel := fuel_for (size_of (shape g)))
  as (vis' & pop & Hfill & Hlen & _ & Hmark & Hpop).
- intros v Hv. apply start_fresh. by apply reach_connected.
- apply fuel_for_enough.
- exists vis', pop. split_and!; [done|by rewrite Hlen| |].
  + intros p Hp. unfold marked in Hmark. rewrite (Hmark p Hp). split.
    * intros [?|?]; [by left|right]. by apply reach_connected.
    * intros [?|?]; [by left|right]. by apply connected_reach.
  + intros p. rewrite Hpop. split;
      [by apply reach_connected|apply connected_reach].
Qed.

End FillSpec.

(** X15.  The fill of the bubble count, started at an empty voxel whose
    component holds no visited voxel, returns; afterwards an empty voxel is
    visited exactly if it was before or lies in the component of the start,
    and the result is true exactly if no voxel of that component has a
    neighbour outside the grid. *)
Theorem bubbles_bfs_correct (g : ndarray Z) (N : list index)
    (vis0 : list bool) (start : index) :
  length vis0 = Z.to_nat (size_of (shape g)) →
  cell g 0 start →
  (∀ p, connected g 0 N start p → vis0 !! grid_key (shape g) p ≠ Some true) →
  ∃ vis' b,
    BaseCountBubblesOperator.bfs (fuel_for (size_of (shape g))) N (shape g)
      start (bubbles_heap g vis0)
    = Some (bubbles_heap g vis', b)
    ∧ length vis' = length vis0
    ∧ (∀ p, cell g 0 p →
         vis' !! grid_key (shape g) p = Some true
         ↔ vis0 !! grid_key (shape g) p = Some true
           ∨ connected g 0 N start p)
    ∧ (b = true ↔ enclosed g N start).
Proof.
intros Hlen Hcell Hfresh.
destruct (grid_fill_spec g 0 N (grid_flag (shape g) N) vis0 start
            Hlen Hcell Hfresh) as (vis' & pop & Hfill & Hlen' & Hmark & Hpop).
exists vis', (negb (existsb (grid_flag (shape g) N) pop)).
split_and!; [|done|done|].
- destruct (shape g) as [[sx sy] sz] eqn:Hsh.
  unfold BaseCountBubblesOperator.bfs.
  rewrite (bubbles_visited_set g sx sy sz Hsh).
  rewrite (bubbles_bfs_loop g sx sy sz Hsh).
  unfold t_fill in Hfill. by rewrite Hfill.
- rewrite negb_true_iff. split.
  + intros Hnone. split; [done|]. intros q Hq.
    apply grid_flag_spec. destruct (grid_flag (shape g) N q) eqn:Hflag; [|done].
    assert (existsb (grid_flag (shape g) N) pop = true); [|congruence].
    apply existsb_exists. exists q. split; [|done].
    by apply list_elem_of_In, Hpop.
  + intros [_ Hcl].
    destruct (existsb (grid_flag (shape g) N) pop) eqn:Hex; [|done].
    apply existsb_exists in Hex as (q & Hq%list_elem_of_In & Hflag).
    exfalso. apply Hpop, Hcl in Hq. apply grid_flag_spec in Hq. congruence.
Qed.

(** X16.  The fill of the component count, started at the flat position of
    a solid voxel whose component holds no visited voxel, returns;
    afterwards a solid voxel is visited exactly if it was before or lies in
    the component of the start. *)
Theorem components_bfs_correct (g : ndarray Z) (N : list index)
    (vis0 : list bool) (start : index) :
  length vis0 = Z.to_nat (size_of (shape g)) →
  cell g 1 start →
  (∀ p, connected g 1 N start p → vis0 !! grid_key (shape g) p ≠ Some true) →
  ∃ vis',
    BaseCountConnectedComponentsOperator.bfs (fuel_for (size_of (shape g))) N
      (shape g) (ravel (shape g) start) (components_heap g vis0)
    = Some (components_heap g vis')
    ∧ length vis' = length vis0
    ∧ (∀ p, cell g 1 p →
         vis' !! grid_key (shape g) p = Some true
         ↔ vis0 !! grid_key (shape g) p = Some true
           ∨ connected g 1 N start p).
Proof.
intros Hlen Hcell Hfresh.
destruct (grid_fill_spec g 1 N (λ _, false) vis0 start
            Hlen Hcell Hfresh) as (vis' & pop & Hfill & Hlen' & Hmark & Hpop).
exists vis'. split_and!; [|done|done].
destruct Hcell as [Hin _].
destruct (shape g) as [[sx sy] sz] eqn:Hsh.
unfold BaseCountConnectedComponentsOperator.bfs.
rewrite (components_visited_set g sx sy sz).
change [ravel (sx, sy, sz) start] with (ravel (sx, sy, sz) <$> [start]).
rewrite (components_bfs_loop g sx sy sz Hsh N _ _ false)
  by (by apply Forall_singleton).
unfold t_fill in Hfill. by rewrite Hfill.
Qed.

Lemma bubbles_bfs_correct_witness :
  ∃ vis' b,
    BaseCountBubblesOperator.bfs (fuel_for (size_of (shape hollow)))
      (neighbors_of 6) (shape hollow) (1, 1, 1)
      (bubbles_heap hollow (replicate 27 false))
    = Some (bubbles_heap hollow vis', b)
    ∧ length vis' = length (replicate 27 false)
    ∧ (∀ p, cell hollow 0 p →
         vis' !! grid_key (shape hollow) p = Some true
         ↔ replicate 27 false !! grid_key (shape hollow) p = Some true
           ∨ connected hollow 0 (neighbors_of 6) (1, 1, 1) p)
    ∧ (b = true ↔ enclosed hollow (neighbors_of 6) (1, 1, 1)).
Proof.
apply (bubbles_bfs_correct hollow (neighbors_of 6) (replicate 27 false)
         (1, 1, 1)).
- reflexivity.
- split; reflexivity.
- intros p _ [Hp _]%lookup_replicate. discriminate Hp.
Defined.

Lemma components_bfs_correct_witness :
  ∃ vis',
    BaseCountConnectedComponentsOperator.bfs
      (fuel_for (size_of (shape two_corner))) (neighbors_of 26)
      (shape two_corner) (ravel (shape two_corner) (0, 0, 0))
      (components_heap two_corner (replicate 8 false))
    = Some (components_heap two_corner vis')
    ∧ length vis' = length (replicate 8 false)
    ∧ (∀ p, cell two_corner 1 p →
         vis' !! grid_key (shape two_corner) p = Some true
         ↔ replicate 8 false !! grid_key (shape two_corner) p = Some true
           ∨ connected two_corner 1 (neighbors_of 26) (0, 0, 0) p).
Proof.
apply (components_bfs_correct two_corner (neighbors_of 26)
         (replicate 8 false) (0, 0, 0)).
- reflexivity.
- split; reflexivity.
- intros p _ [Hp _]%lookup_replicate. discriminate Hp.
Defined.
